(** * strudel.nvim language server: completion engine and server helpers

    A shallow embedding of [js/lsp/cm_engine.ts] and [js/lsp/server.ts].

    Conventions of the embedding.
    - A JavaScript string is the list of its code units.  Code units are
      taken in the range 0..255 ([ascii]); the character classes [\s] and
      [\w] and [toLowerCase] are the restrictions of the JavaScript ones to
      that range.
    - A JavaScript number that the code receives from outside (a cursor
      offset, a document version) is a [Z]; an index into a string that the
      code computes itself is a [nat], and is injected into [Z] where the
      code subtracts.
    - [null] and [undefined] results are [None].
    - The regular expressions of the source are terms of [regex], run by a
      backtracking matcher with the priorities of the JavaScript one
      (greedy repetition, left alternative first). *)

From Stdlib Require Import Ascii String.
From stdpp Require Import base decidable option list strings gmap sorting.
From Stdlib Require Import ZArith Lia DecimalString.

Set Warnings "-register-all,-abstract-large-number".
Open Scope Z_scope.
Open Scope nat_scope.

(* ================================================================== *)
(** * Part I: definitions *)
(* ================================================================== *)

(** ** JavaScript strings *)

Module Js.

Abbreviation jsstring := (list ascii).

(** A string literal of the source. *)
Definition str (s : string) : jsstring := list_ascii_of_string s.

Definition dquote : ascii := "034"%char.
Definition squote : ascii := "'"%char.
Definition btick : ascii := "`"%char.
Definition bslash : ascii := "\"%char.
Definition newline : ascii := "010"%char.
Definition creturn : ascii := "013"%char.

Definition code (c : ascii) : nat := nat_of_ascii c.

Definition ceq (a b : ascii) : bool := Ascii.eqb a b.

(** [seq_eqb a b] is [a === b] on strings. *)
Fixpoint seq_eqb (a b : jsstring) : bool :=
  match a, b with
  | [], [] => true
  | x :: a', y :: b' => ceq x y && seq_eqb a' b'
  | _, _ => false
  end.

(** [s.slice(a, b)] for [0 <= a <= b]; [s.slice(a)] is [drop a s]. *)
Definition slice (s : jsstring) (a b : nat) : jsstring := take (b - a) (drop a s).

(** [s.startsWith(p)]. *)
Fixpoint startsWith (s p : jsstring) : bool :=
  match p, s with
  | [], _ => true
  | _ :: _, [] => false
  | y :: p', x :: s' => ceq x y && startsWith s' p'
  end.

(** [s.includes(p)]. *)
Fixpoint includes (s p : jsstring) : bool :=
  startsWith s p ||
  match s with
  | [] => false
  | _ :: s' => includes s' p
  end.

(** [s.includes(c)] for a one-character string. *)
Definition includesChar (s : jsstring) (c : ascii) : bool := existsb (ceq c) s.

(** [s.lastIndexOf(c)] for a one-character string: the greatest index
    holding [c], or [-1]. *)
Fixpoint lastIndexOf_from (i : nat) (s : jsstring) (c : ascii) (acc : Z) : Z :=
  match s with
  | [] => acc
  | x :: s' => lastIndexOf_from (S i) s' c (if ceq x c then Z.of_nat i else acc)
  end.

Definition lastIndexOf (s : jsstring) (c : ascii) : Z := lastIndexOf_from 0 s c (-1)%Z.

(** [s.indexOf(c, i)] as an option. *)
Fixpoint indexOf_from (i : nat) (s : jsstring) (c : ascii) : option nat :=
  match s with
  | [] => None
  | x :: s' => if ceq x c then Some i else indexOf_from (S i) s' c
  end.

(** [toLowerCase] on a code unit below 256: A-Z, and the Latin-1 capitals
    U+00C0..U+00DE except the multiplication sign U+00D7. *)
Definition lowerChar (c : ascii) : ascii :=
  let n := code c in
  if ((65 <=? n) && (n <=? 90)) || ((192 <=? n) && (n <=? 222) && negb (n =? 215))
  then ascii_of_nat (n + 32)
  else c.

Definition toLowerCase (s : jsstring) : jsstring := map lowerChar s.

(** The order of [Array.prototype.sort()] without a comparator: strings
    compared by code units. *)
Fixpoint str_leb (a b : jsstring) : bool :=
  match a, b with
  | [], _ => true
  | _ :: _, [] => false
  | x :: a', y :: b' =>
      if code x <? code y then true
      else if code y <? code x then false
      else str_leb a' b'
  end.

Definition str_le (a b : jsstring) : Prop := str_leb a b = true.

(** [arr.sort(cmp)], which is stable: [le x y] says that [cmp(x, y) <= 0].
    The elements are inserted from the right, each before the first
    element it does not have to follow. *)
Fixpoint insertBy {A : Type} (le : A -> A -> bool) (x : A) (l : list A) : list A :=
  match l with
  | [] => [x]
  | y :: l' => if le x y then x :: l else y :: insertBy le x l'
  end.

Fixpoint sortBy {A : Type} (le : A -> A -> bool) (l : list A) : list A :=
  match l with
  | [] => []
  | x :: l' => insertBy le x (sortBy le l')
  end.

(** [arr.slice().sort()]. *)
Definition sort (l : list jsstring) : list jsstring := sortBy str_leb l.

(** [Math.min(Math.max(n, 0), len)]. *)
Definition clamp (n : Z) (len : nat) : nat :=
  Z.to_nat (Z.min (Z.max n 0) (Z.of_nat len)).

(** Character classes. *)
Definition isDigit (c : ascii) : bool := (48 <=? code c) && (code c <=? 57).
Definition isUpper (c : ascii) : bool := (65 <=? code c) && (code c <=? 90).
Definition isLower (c : ascii) : bool := (97 <=? code c) && (code c <=? 122).

(** [\w] *)
Definition isWord (c : ascii) : bool :=
  isUpper c || isLower c || isDigit c || ceq c "_"%char.

(** [\s] below 256: TAB, LF, VT, FF, CR, space and the no-break space. *)
Definition isSpace (c : ascii) : bool :=
  ((9 <=? code c) && (code c <=? 13)) || (code c =? 32) || (code c =? 160).

(** The class of the single and the double quote. *)
Definition isQuote12 (c : ascii) : bool := ceq c squote || ceq c dquote.

(** The three quote characters: single, double, backtick. *)
Definition isQuote (c : ascii) : bool := isQuote12 c || ceq c btick.

End Js.

(** ** Regular expressions *)

Module Re.
Import Js.

Inductive regex : Type :=
| Chr (p : ascii -> bool)      (* a character or a character class *)
| Eps                          (* the empty pattern *)
| Seq (a b : regex)            (* ab *)
| Alt (a b : regex)            (* a|b *)
| Star (a : regex)             (* a*, greedy *)
| Eol                          (* $ without the m flag *)
| Cap (n : nat) (a : regex).   (* the n-th capturing group *)

(** [a?], greedy. *)
Definition Opt (a : regex) : regex := Alt a Eps.
(** [a+], greedy. *)
Definition Plus (a : regex) : regex := Seq a (Star a).
(** A literal character. *)
Definition Lit1 (c : ascii) : regex := Chr (ceq c).
(** A literal string. *)
Fixpoint Lit (s : jsstring) : regex :=
  match s with
  | [] => Eps
  | [c] => Lit1 c
  | c :: s' => Seq (Lit1 c) (Lit s')
  end.
(** A sequence of patterns. *)
Fixpoint Seqs (l : list regex) : regex :=
  match l with
  | [] => Eps
  | [a] => a
  | a :: l' => Seq a (Seqs l')
  end.

(** Captures: group number, start and end of the captured span; the most
    recent binding first. *)
Definition caps : Type := list (nat * (nat * nat)).

Fixpoint cap_lookup (n : nat) (c : caps) : option (nat * nat) :=
  match c with
  | [] => None
  | (k, se) :: c' => if k =? n then Some se else cap_lookup n c'
  end.

Section Matcher.
Variable s : jsstring.
Context {R : Type}.

(** The iterations of [a*] from position [i]: [step] matches [a].  An
    iteration that consumes nothing is refused, as in JavaScript, and the
    longer match is tried before the shorter.  [fuel] bounds the number
    of iterations; the characters left are enough, each iteration taking
    at least one. *)
Fixpoint starLoop (step : nat -> caps -> (nat -> caps -> option R) -> option R)
    (k : nat -> caps -> option R) (fuel : nat) (i : nat) (c : caps) : option R :=
  match fuel with
  | 0 => k i c
  | S fuel' =>
      match step i c (fun j c' => if j <=? i then None else starLoop step k fuel' j c') with
      | Some x => Some x
      | None => k i c
      end
  end.

(** [run r i c k]: match [r] at position [i] of [s] with captures [c];
    every way to match is offered to the continuation [k] in the order
    of a backtracking matcher, and the first one [k] accepts wins. *)
Fixpoint run (r : regex) (i : nat) (c : caps)
    (k : nat -> caps -> option R) {struct r} : option R :=
  match r with
  | Chr p =>
      match s !! i with
      | Some ch => if p ch then k (S i) c else None
      | None => None
      end
  | Eps => k i c
  | Seq a b => run a i c (fun j c' => run b j c' k)
  | Alt a b =>
      match run a i c k with
      | Some x => Some x
      | None => run b i c k
      end
  | Star a => starLoop (run a) k (length s - i) i c
  | Eol => if i =? length s then k i c else None
  | Cap n a => run a i c (fun j c' => k j ((n, (i, j)) :: c'))
  end.
End Matcher.

(** What it means for [r] to match the characters of [s] from [i] up to
    [j], whatever the order in which a matcher tries. *)
Inductive matches (s : jsstring) : regex -> nat -> nat -> Prop :=
| M_Chr p i ch : s !! i = Some ch -> p ch = true -> matches s (Chr p) i (S i)
| M_Eps i : matches s Eps i i
| M_Seq a b i j k : matches s a i j -> matches s b j k -> matches s (Seq a b) i k
| M_AltL a b i j : matches s a i j -> matches s (Alt a b) i j
| M_AltR a b i j : matches s b i j -> matches s (Alt a b) i j
| M_StarNil a i : matches s (Star a) i i
| M_StarCons a i j k :
    matches s a i j -> i < j -> matches s (Star a) j k -> matches s (Star a) i k
| M_Eol i : i = length s -> matches s Eol i i
| M_Cap n a i j : matches s a i j -> matches s (Cap n a) i j.

(** The result of [RegExp.prototype.exec]: [index], [m0] is [m[0]], and
    the captures as spans of the subject. *)
Record RegExpExecArray : Type := mkExec {
  index : nat;
  m0 : jsstring;
  groups : caps;
  input : jsstring
}.

(** [m[n]] for a capturing group. *)
Definition group (m : RegExpExecArray) (n : nat) : option jsstring :=
  match cap_lookup n (groups m) with
  | Some (a, b) => Some (slice (input m) a b)
  | None => None
  end.

Definition matchAt (r : regex) (s : jsstring) (i : nat) : option RegExpExecArray :=
  run s r i [] (fun j c => Some (mkExec i (slice s i j) c s)).

(** The first position from [i] on, at most [fuel] positions further,
    where [r] matches. *)
Fixpoint search (r : regex) (s : jsstring) (fuel : nat) (i : nat) : option RegExpExecArray :=
  match matchAt r s i with
  | Some m => Some m
  | None =>
      match fuel with
      | 0 => None
      | S fuel' => search r s fuel' (S i)
      end
  end.

(** [re.exec(s)] for a global [re] whose [lastIndex] is [lastIndex]:
    [null] when [lastIndex] is beyond the end of [s]. *)
Definition exec (r : regex) (s : jsstring) (lastIndex : nat) : option RegExpExecArray :=
  if length s <? lastIndex then None
  else search r s (length s - lastIndex) lastIndex.

(** [s.match(re)] for a [re] without the g flag. *)
Definition match_ (s : jsstring) (r : regex) : option RegExpExecArray := exec r s 0.

End Re.

(** ** The completion engine, [cm_engine.ts] *)

Module CmEngine.
Import Js Re.

Record CmCompletionOption : Type := mkOption {
  label : jsstring;
  type : option jsstring;
  apply : option jsstring;
  filterText : option jsstring;
  canonicalName : option jsstring;
  isSynonym : option bool
}.

Record CmCompletionResult : Type := mkResult {
  from : Z;
  options : list CmCompletionOption
}.

Definition CmCompletionMaybe : Type := option CmCompletionResult.

Record DynamicSources : Type := mkSources {
  soundNames : option (list jsstring);
  bankNames : option (list jsstring)
}.

(** The part of [DocIndex] that [complete] reads. *)
Record DocIndex : Type := mkDocIndex {
  jsdocCompletions : list CmCompletionOption
}.

(** [{ label, type }] *)
Definition option2 (l t : jsstring) : CmCompletionOption :=
  mkOption l (Some t) None None None None.

(** [{ label, apply, type }] *)
Definition option3 (l a t : jsstring) : CmCompletionOption :=
  mkOption l (Some t) (Some a) None None None.

(** *** isInsideString *)

(** The loop state: [inQuote] and [escaped]. *)
Definition scanState : Type := (option ascii * bool)%type.

(** One turn of the loop of [isInsideString] on the character [ch]. *)
Definition scanStep (st : scanState) (ch : ascii) : scanState :=
  let '(inQuote, escaped) := st in
  if escaped then (inQuote, false)
  else if ceq ch bslash then (inQuote, true)
  else
    let afterQuote : option scanState :=
      if isQuote ch then
        match inQuote with
        | None => Some (Some ch, escaped)
        | Some q => if ceq q ch then Some (None, escaped) else None
        end
      else None in
    match afterQuote with
    | Some st' => st'
    | None =>
        if ceq ch newline &&
           match inQuote with
           | Some q => isQuote12 q
           | None => false
           end
        then (None, false)
        else (inQuote, escaped)
    end.

Definition scan (text : jsstring) (cursorOffset : Z) : scanState :=
  let clamped := clamp cursorOffset (length text) in
  fold_left scanStep (take clamped text) (None, false).

Definition isInsideString (text : jsstring) (cursorOffset : Z) : bool :=
  match fst (scan text cursorOffset) with
  | Some _ => true
  | None => false
  end.

(** The two ways the state of the scan changes on an unescaped character
    [ch] while [inQuote] is the quote open: a quote character that opens a
    string, or that closes the string of its own kind; a line feed while a
    single- or double-quoted string is open. *)
Definition quoteToggles (inQuote : option ascii) (ch : ascii) : bool :=
  isQuote ch &&
  match inQuote with
  | None => true
  | Some q => ceq q ch
  end.

Definition newlineCloses (inQuote : option ascii) (ch : ascii) : bool :=
  ceq ch newline &&
  match inQuote with
  | Some q => isQuote12 q
  | None => false
  end.

Definition inside (st : scanState) : bool :=
  match fst st with
  | Some _ => true
  | None => false
  end.

(** *** makeContext *)

Record MatchSpan : Type := mkSpan {
  m_from : nat;
  m_to : nat;
  m_text : jsstring
}.

Record CompletionContext : Type := mkContext {
  explicit : bool;
  matchBefore : regex -> option MatchSpan
}.

(** The [while] loop of [matchBefore]: [lastIndex] is the [lastIndex] of
    [globalRe], [best] the best match so far.  [None] is for a loop that
    has not finished within [fuel] turns. *)
Fixpoint matchLoop (re : regex) (windowText : jsstring) (fuel : nat)
    (lastIndex : nat) (best : option RegExpExecArray) : option (option RegExpExecArray) :=
  match fuel with
  | 0 => None
  | S fuel' =>
      match exec re windowText lastIndex with
      | None => Some best
      | Some m =>
          let idx := index m in
          let matchText := m0 m in
          let end_ := idx + length matchText in
          let best' := if end_ =? length windowText then Some m else best in
          let lastIndex' := if length matchText =? 0 then idx + 1 else end_ in
          matchLoop re windowText fuel' lastIndex' best'
      end
  end.

(** The loop takes at most one turn per position of the window, and one
    more to see [exec] fail. *)
Definition matchFuel (windowText : jsstring) : nat := length windowText + 2.

Definition makeContext (text : jsstring) (cursorOffset : Z) (explicit : bool)
    (lookbehindLimit : nat) : CompletionContext :=
  let to := clamp cursorOffset (length text) in
  let windowFrom := to - lookbehindLimit in
  let windowText := slice text windowFrom to in
  mkContext explicit
    (fun re =>
       match matchLoop re windowText (matchFuel windowText) 0 None with
       | Some (Some best) =>
           let matchText := m0 best in
           let from := windowFrom + index best in
           let end_ := from + length matchText in
           Some (mkSpan from end_ matchText)
       | _ => None
       end).

(** The matches that the loop of [matchBefore] goes through, in the order
    of the loop: each [exec] starts where the last match ended, one
    further after an empty match. *)
Definition nextIndex (m : RegExpExecArray) : nat :=
  if length (m0 m) =? 0 then index m + 1 else index m + length (m0 m).

Fixpoint execAll (re : regex) (windowText : jsstring) (fuel : nat) (lastIndex : nat)
    : list RegExpExecArray :=
  match fuel with
  | 0 => []
  | S fuel' =>
      match exec re windowText lastIndex with
      | None => []
      | Some m => m :: execAll re windowText fuel' (nextIndex m)
      end
  end.

(** A match that ends where the window ends, which is at the cursor. *)
Definition endsAtCursor (windowText : jsstring) (m : RegExpExecArray) : bool :=
  index m + length (m0 m) =? length windowText.

(** The span of the text for a match in the window. *)
Definition spanOf (windowFrom : nat) (m : RegExpExecArray) : MatchSpan :=
  mkSpan (windowFrom + index m) (windowFrom + index m + length (m0 m)) (m0 m).

(** *** The patterns *)

Definition notQuote12 (c : ascii) : bool := negb (isQuote12 c).

(** The class of white space and the opening brackets. *)
Definition isDelim (c : ascii) : bool :=
  isSpace c || ceq c "["%char || ceq c "{"%char || ceq c "("%char || ceq c "<"%char.

(** [name\(\s*$] *)
Definition noQuotes (name : regex) : regex :=
  Seqs [name; Lit1 "("%char; Star (Chr isSpace); Eol].

(** [name\(\s*] then a quote, then characters other than quotes, then [$]. *)
Definition withQuotes (name : regex) : regex :=
  Seqs [name; Lit1 "("%char; Star (Chr isSpace); Chr isQuote12; Star (Chr notQuote12); Eol].

(** [name\(\s*], a quote, characters other than quotes, a colon, characters
    other than quotes, [$]. *)
Definition afterColon (name : regex) : regex :=
  Seqs [name; Lit1 "("%char; Star (Chr isSpace); Chr isQuote12; Star (Chr notQuote12);
        Lit1 ":"%char; Star (Chr notQuote12); Eol].

(** A delimiter, then group 1: characters of the class [cls], then [$]. *)
Definition fragmentMatch (cls : ascii -> bool) : regex :=
  Seqs [Chr isDelim; Cap 1 (Star (Chr cls)); Eol].

(** [(s|sound)] *)
Definition soundName : regex := Cap 1 (Alt (Lit (str "s")) (Lit (str "sound"))).

Definition SOUND_NO_QUOTES_REGEX : regex := noQuotes soundName.
Definition SOUND_WITH_QUOTES_REGEX : regex := withQuotes soundName.
Definition SOUND_FRAGMENT_MATCH_REGEX : regex := fragmentMatch isWord.

Definition BANK_NO_QUOTES_REGEX : regex := noQuotes (Lit (str "bank")).
Definition BANK_WITH_QUOTES_REGEX : regex := withQuotes (Lit (str "bank")).

Definition pitchNames : list jsstring :=
  map str ["C"; "C#"; "Db"; "D"; "D#"; "Eb"; "E"; "E#"; "Fb"; "F"; "F#"; "Gb"; "G";
           "G#"; "Ab"; "A"; "A#"; "Bb"; "B"; "B#"; "Cb"]%string.

(** [[...pitchNames].sort((a, b) => b.length - a.length)] *)
Definition pitchNamesLongestFirst : list jsstring :=
  sortBy (fun a b => length b <=? length a) pitchNames.

Definition scaleCompletions : list CmCompletionOption := [].

Definition modeCompletions : list CmCompletionOption :=
  [option2 (str "below") (str "mode"); option2 (str "above") (str "mode");
   option2 (str "duck") (str "mode"); option2 (str "root") (str "mode")].

(** [getChordSymbolCompletions], given [Object.keys(complex)] of the
    package [@strudel/tonal]. *)
Definition getChordSymbolCompletions (complexKeys : list jsstring) : list CmCompletionOption :=
  let chordSymbols := sort ([] :: complexKeys) in
  map (fun symbol =>
         if seq_eqb symbol [] then option3 (str "major") [] (str "chord-symbol")
         else option3 symbol symbol (str "chord-symbol"))
      chordSymbols.

Definition SCALE_NO_QUOTES_REGEX : regex := noQuotes (Lit (str "scale")).
Definition SCALE_AFTER_COLON_REGEX : regex := afterColon (Lit (str "scale")).
Definition SCALE_PRE_COLON_REGEX : regex := withQuotes (Lit (str "scale")).

Definition isPitchLetter (c : ascii) : bool :=
  ((65 <=? code c) && (code c <=? 71)) || ((97 <=? code c) && (code c <=? 103)).
Definition isAccidental (c : ascii) : bool := ceq c "#"%char || ceq c "b"%char.

(** An optional group 1 (a letter A-G or a-g, then sharps and flats), then [$]. *)
Definition SCALE_PITCH_MATCH_REGEX : regex :=
  Seq (Opt (Cap 1 (Seq (Chr isPitchLetter) (Star (Chr isAccidental))))) Eol.

Definition MODE_NO_QUOTES_REGEX : regex := noQuotes (Lit (str "mode")).
Definition MODE_AFTER_COLON_REGEX : regex := afterColon (Lit (str "mode")).
Definition MODE_PRE_COLON_REGEX : regex := withQuotes (Lit (str "mode")).
Definition MODE_FRAGMENT_MATCH_REGEX : regex :=
  fragmentMatch (fun c => isWord c || ceq c ":"%char).

Definition CHORD_NO_QUOTES_REGEX : regex := noQuotes (Lit (str "chord")).
Definition CHORD_WITH_QUOTES_REGEX : regex := withQuotes (Lit (str "chord")).
Definition CHORD_FRAGMENT_MATCH_REGEX : regex :=
  fragmentMatch (fun c => isWord c || ceq c "#"%char || ceq c "b"%char || ceq c "+"%char
                          || ceq c "^"%char || ceq c ":"%char || ceq c "-"%char).

(** [\w*] *)
Definition FALLBACK_WORD_REGEX : regex := Star (Chr isWord).

(** [s.replace(/\s+/g, ":")]: every maximal run of white space becomes
    one colon. *)
Fixpoint spacesToColon (inRun : bool) (s : jsstring) : jsstring :=
  match s with
  | [] => []
  | c :: s' =>
      if isSpace c then (if inRun then [] else [":"%char]) ++ spacesToColon true s'
      else c :: spacesToColon false s'
  end.

(** [fragMatch ? fragMatch[1] : inside]; group 1 takes part in every
    match of a [fragmentMatch] pattern. *)
Definition fragmentOf (inside : jsstring) (re : regex) : jsstring :=
  match match_ inside re with
  | Some m => default [] (group m 1)
  | None => inside
  end.

(** [Math.max(text.lastIndexOf(dquote), text.lastIndexOf(squote))] *)
Definition lastQuoteIdx (text : jsstring) : Z :=
  Z.max (lastIndexOf text dquote) (lastIndexOf text squote).

(** *** The handlers *)

Definition extractSoundFragment (inside : jsstring) : jsstring :=
  fragmentOf inside SOUND_FRAGMENT_MATCH_REGEX.

Definition soundHandler (context : CompletionContext) (sources : DynamicSources)
    : CmCompletionMaybe :=
  match matchBefore context SOUND_NO_QUOTES_REGEX with
  | Some soundNoQuotesContext =>
      Some (mkResult (Z.of_nat (m_to soundNoQuotesContext)) [])
  | None =>
      match matchBefore context SOUND_WITH_QUOTES_REGEX with
      | None => None
      | Some soundContext =>
          let text := m_text soundContext in
          let quoteIdx := lastQuoteIdx text in
          if (quoteIdx =? -1)%Z then None
          else
            let inside := drop (Z.to_nat (quoteIdx + 1)) text in
            let fragment := extractSoundFragment inside in
            let soundNames := sort (default [] (soundNames sources)) in
            let filteredSounds := List.filter (fun name => includes name fragment) soundNames in
            let from := (Z.of_nat (m_to soundContext) - Z.of_nat (length fragment))%Z in
            Some (mkResult from (map (fun label => option2 label (str "sound")) filteredSounds))
      end
  end.

Definition bankHandler (context : CompletionContext) (sources : DynamicSources)
    : CmCompletionMaybe :=
  match matchBefore context BANK_NO_QUOTES_REGEX with
  | Some bankNoQuotesContext =>
      Some (mkResult (Z.of_nat (m_to bankNoQuotesContext)) [])
  | None =>
      match matchBefore context BANK_WITH_QUOTES_REGEX with
      | None => None
      | Some bankMatch =>
          let text := m_text bankMatch in
          let quoteIdx := lastQuoteIdx text in
          if (quoteIdx =? -1)%Z then None
          else
            let inside := drop (Z.to_nat (quoteIdx + 1)) text in
            let fragment := inside in
            let bankNames := sort (default [] (bankNames sources)) in
            let filtered := List.filter (fun b => startsWith b fragment) bankNames in
            let from := (Z.of_nat (m_to bankMatch) - Z.of_nat (length fragment))%Z in
            Some (mkResult from (map (fun label => option2 label (str "bank")) filtered))
      end
  end.

(** [chordHandler]; [chordSymbolCompletions] is what the cached promise
    of [getChordSymbolCompletions] resolves to. *)
Definition chordHandler (chordSymbolCompletions : list CmCompletionOption)
    (context : CompletionContext) : CmCompletionMaybe :=
  match matchBefore context CHORD_NO_QUOTES_REGEX with
  | Some chordNoQuotesContext =>
      Some (mkResult (Z.of_nat (m_to chordNoQuotesContext)) [])
  | None =>
      match matchBefore context CHORD_WITH_QUOTES_REGEX with
      | None => None
      | Some chordContext =>
          let text := m_text chordContext in
          let quoteIdx := lastQuoteIdx text in
          if (quoteIdx =? -1)%Z then None
          else
            let inside := drop (Z.to_nat (quoteIdx + 1)) text in
            let fragment := fragmentOf inside CHORD_FRAGMENT_MATCH_REGEX in
            let rootMatch :=
              List.find (fun pitch => startsWith (toLowerCase fragment) (toLowerCase pitch))
                        pitchNamesLongestFirst in
            let symbolFragment :=
              match rootMatch with
              | Some pitch => drop (length pitch) fragment
              | None => fragment
              end in
            let needle :=
              match rootMatch with
              | Some _ => symbolFragment
              | None => fragment
              end in
            let filteredSymbols :=
              List.filter (fun s => startsWith (toLowerCase (label s)) (toLowerCase needle))
                          chordSymbolCompletions in
            let from :=
              match rootMatch with
              | Some _ => (Z.of_nat (m_to chordContext) - Z.of_nat (length fragment))%Z
              | None => (Z.of_nat (m_to chordContext) - Z.of_nat (length needle))%Z
              end in
            match rootMatch with
            | None => Some (mkResult from filteredSymbols)
            | Some pitch =>
                let rootPrefix := take (length pitch) fragment in
                let options :=
                  map (fun s =>
                         let symbol :=
                           match apply s with
                           | Some a => a
                           | None => label s
                           end in
                         let chordText :=
                           if seq_eqb symbol [] then rootPrefix else rootPrefix ++ symbol in
                         mkOption (rootPrefix ++ label s) (type s) (Some chordText)
                                  (Some chordText) (canonicalName s) (isSynonym s))
                      filteredSymbols in
                Some (mkResult from options)
            end
      end
  end.

(** [p => ({ label: p, type: "pitch" })] over the pitch names that start
    with [fragment], letter case apart. *)
Definition pitchOptions (fragment : jsstring) : list CmCompletionOption :=
  let filtered :=
    List.filter (fun p => startsWith (toLowerCase p) (toLowerCase fragment)) pitchNames in
  map (fun p => option2 p (str "pitch")) filtered.

(** [{ ...s, apply: s.label.replace(SCALE_SPACES_TO_COLON_REGEX, ":") }]
    over the scale completions whose label starts with [fragment]. *)
Definition scaleOptions (fragment : jsstring) : list CmCompletionOption :=
  let filteredScales :=
    List.filter (fun s => startsWith (label s) fragment) scaleCompletions in
  map (fun s =>
         mkOption (label s) (type s) (Some (spacesToColon false (label s)))
                  (filterText s) (canonicalName s) (isSynonym s))
      filteredScales.

Definition scaleHandler (context : CompletionContext) : CmCompletionMaybe :=
  match matchBefore context SCALE_NO_QUOTES_REGEX with
  | Some scaleNoQuotesContext =>
      Some (mkResult (Z.of_nat (m_to scaleNoQuotesContext)) [])
  | None =>
      let afterColonResult : CmCompletionMaybe :=
        match matchBefore context SCALE_AFTER_COLON_REGEX with
        | None => None
        | Some scaleAfterColonContext =>
            let text := m_text scaleAfterColonContext in
            let colonIdx := lastIndexOf text ":"%char in
            if (colonIdx =? -1)%Z then None
            else
              let fragment := drop (Z.to_nat (colonIdx + 1)) text in
              let options := scaleOptions fragment in
              let from := (Z.of_nat (m_from scaleAfterColonContext) + colonIdx + 1)%Z in
              Some (mkResult from options)
        end in
      match afterColonResult with
      | Some r => Some r
      | None =>
          match matchBefore context SCALE_PRE_COLON_REGEX with
          | None => None
          | Some scalePreColonContext =>
              if includesChar (m_text scalePreColonContext) ":"%char then None
              else if explicit context then
                let text := m_text scalePreColonContext in
                let fragment :=
                  match match_ text SCALE_PITCH_MATCH_REGEX with
                  | Some m => m0 m
                  | None => []
                  end in
                let from :=
                  (Z.of_nat (m_to scalePreColonContext) - Z.of_nat (length fragment))%Z in
                Some (mkResult from (pitchOptions fragment))
              else Some (mkResult (Z.of_nat (m_to scalePreColonContext)) [])
          end
      end
  end.

Definition modeHandler (context : CompletionContext) : CmCompletionMaybe :=
  match matchBefore context MODE_NO_QUOTES_REGEX with
  | Some modeNoQuotesContext =>
      Some (mkResult (Z.of_nat (m_to modeNoQuotesContext)) [])
  | None =>
      let afterColonResult : CmCompletionMaybe :=
        match matchBefore context MODE_AFTER_COLON_REGEX with
        | None => None
        | Some modeAfterColonContext =>
            let text := m_text modeAfterColonContext in
            let colonIdx := lastIndexOf text ":"%char in
            if (colonIdx =? -1)%Z then None
            else
              let fragment := drop (Z.to_nat (colonIdx + 1)) text in
              let from := (Z.of_nat (m_from modeAfterColonContext) + colonIdx + 1)%Z in
              Some (mkResult from (pitchOptions fragment))
        end in
      match afterColonResult with
      | Some r => Some r
      | None =>
          match matchBefore context MODE_PRE_COLON_REGEX with
          | None => None
          | Some modeContext =>
              let text := m_text modeContext in
              let quoteIdx := lastQuoteIdx text in
              if (quoteIdx =? -1)%Z then None
              else
                let inside := drop (Z.to_nat (quoteIdx + 1)) text in
                let fragment := fragmentOf inside MODE_FRAGMENT_MATCH_REGEX in
                let filteredModes :=
                  List.filter (fun m => startsWith (label m) fragment) modeCompletions in
                let from := (Z.of_nat (m_to modeContext) - Z.of_nat (length fragment))%Z in
                Some (mkResult from filteredModes)
          end
      end
  end.

Definition fallbackHandler (context : CompletionContext)
    (options : list CmCompletionOption) : CmCompletionMaybe :=
  match matchBefore context FALLBACK_WORD_REGEX with
  | Some word =>
      if (m_from word =? m_to word) && negb (explicit context) then None
      else Some (mkResult (Z.of_nat (m_from word)) options)
  | None => None
  end.

(** The loop over the handlers: the first result that is not [null]. *)
Fixpoint firstResult (handlers : list (unit -> CmCompletionMaybe)) : CmCompletionMaybe :=
  match handlers with
  | [] => None
  | h :: rest =>
      match h tt with
      | Some res => Some res
      | None => firstResult rest
      end
  end.

(** [complete]; the default [lookbehindLimit] of [makeContext] is 8192. *)
Definition complete (chordSymbolCompletions : list CmCompletionOption)
    (text : jsstring) (cursorOffset : Z)
    (explicit : bool) (docIndex : DocIndex) (sources : option DynamicSources)
    : CmCompletionMaybe :=
  let sources := default (mkSources None None) sources in
  let ctx := makeContext text cursorOffset explicit 8192 in
  let inString := isInsideString text cursorOffset in
  let handlers : list (unit -> CmCompletionMaybe) :=
    if inString then
      [ fun _ => soundHandler ctx sources;
        fun _ => bankHandler ctx sources;
        fun _ => chordHandler chordSymbolCompletions ctx;
        fun _ => scaleHandler ctx;
        fun _ => modeHandler ctx ]
    else
      [ fun _ => soundHandler ctx sources;
        fun _ => bankHandler ctx sources;
        fun _ => chordHandler chordSymbolCompletions ctx;
        fun _ => scaleHandler ctx;
        fun _ => modeHandler ctx;
        fun _ => fallbackHandler ctx (jsdocCompletions docIndex) ] in
  firstResult handlers.

End CmEngine.

(** ** The server, [server.ts] *)

Module Server.
Import Js Re CmEngine.

(** *** Offsets and positions *)

(** The loop of [String.prototype.split] with a regular expression that
    has no capturing group: [p] is the end of the last separator, [q] the
    position tried next, [acc] the pieces so far, latest first. *)
Fixpoint splitLoop (re : regex) (s : jsstring) (fuel : nat) (p q : nat)
    (acc : list jsstring) : list jsstring :=
  match fuel with
  | 0 => rev (slice s p (length s) :: acc)
  | S fuel' =>
      if length s <=? q then rev (slice s p (length s) :: acc)
      else
        match matchAt re s q with
        | None => splitLoop re s fuel' p (S q) acc
        | Some m =>
            let e := Nat.min (q + length (m0 m)) (length s) in
            if e =? p then splitLoop re s fuel' p (S q) acc
            else splitLoop re s fuel' e e (slice s p q :: acc)
        end
  end.

(** [s.split(re)] *)
Definition split (s : jsstring) (re : regex) : list jsstring :=
  match s with
  | [] =>
      match matchAt re s 0 with
      | Some _ => []
      | None => [s]
      end
  | _ => splitLoop re s (length s) 0 0 []
  end.

(** [\r?\n] *)
Definition LINE_BREAK_REGEX : regex := Seq (Opt (Lit1 creturn)) (Lit1 newline).

Record Position : Type := mkPosition {
  line : nat;
  character : nat
}.

(** The [for] loop of [positionToOffset], from line [i] on, [n] lines to go. *)
Fixpoint sumLines (lines : list jsstring) (i n : nat) (offset : nat) : nat :=
  match n with
  | 0 => offset
  | S n' => sumLines lines (S i) n' (offset + (length (default [] (lines !! i)) + 1))
  end.

Definition positionToOffset (text : jsstring) (pos : Position) : nat :=
  let lines := split text LINE_BREAK_REGEX in
  let offset := sumLines lines 0 (line pos) 0 in
  offset + character pos.

Definition offsetToPosition (text : jsstring) (offset : Z) : Position :=
  let clamped := clamp offset (length text) in
  let before := take clamped text in
  let parts := split before LINE_BREAK_REGEX in
  let line := length parts - 1 in
  let character := length (default [] (parts !! (length parts - 1))) in
  mkPosition line character.

Record Range : Type := mkRange {
  r_start : Position;
  r_end : Position
}.

Definition rangeToOffsets (text : jsstring) (range : Range) : nat * nat :=
  let start := positionToOffset text (r_start range) in
  let end_ := positionToOffset text (r_end range) in
  (Nat.min start end_, Nat.max start end_).

(** *** String literals and the quote rewriter *)

Inductive QuoteChar : Type := QSingle | QDouble | QBacktick.

Definition quoteChar (q : QuoteChar) : ascii :=
  match q with
  | QSingle => squote
  | QDouble => dquote
  | QBacktick => btick
  end.

Definition quoteOf (c : ascii) : option QuoteChar :=
  if ceq c squote then Some QSingle
  else if ceq c dquote then Some QDouble
  else if ceq c btick then Some QBacktick
  else None.

Definition quote_eqb (a b : QuoteChar) : bool :=
  match a, b with
  | QSingle, QSingle | QDouble, QDouble | QBacktick, QBacktick => true
  | _, _ => false
  end.

(** The loop of [isEscaped]: the backslashes counted from index [j - 1]
    down. *)
Fixpoint countBackslashes (text : jsstring) (j : nat) : nat :=
  match j with
  | 0 => 0
  | S j' =>
      match text !! j' with
      | Some c => if ceq c bslash then S (countBackslashes text j') else 0
      | None => 0
      end
  end.

Definition isEscaped (text : jsstring) (i : nat) : bool :=
  Nat.odd (countBackslashes text i).

(** [s.replace(re, rep)] for a global [re] that is one literal character. *)
Definition replaceAll1 (c : ascii) (rep : jsstring) (s : jsstring) : jsstring :=
  flat_map (fun x => if ceq x c then rep else [x]) s.

(** [s.replace(re, rep)] for a global [re] that is two literal characters. *)
Fixpoint replaceAll2 (c1 c2 : ascii) (rep : jsstring) (s : jsstring) : jsstring :=
  match s with
  | [] => []
  | x :: s' =>
      match s' with
      | y :: s'' =>
          if ceq x c1 && ceq y c2 then rep ++ replaceAll2 c1 c2 rep s''
          else x :: replaceAll2 c1 c2 rep s'
      | [] => [x]
      end
  end.

Definition rewriteLiteralContent (content : jsstring) (from to : QuoteChar)
    : option jsstring :=
  let out := content in
  let out :=
    if quote_eqb from QSingle && negb (quote_eqb to QSingle)
    then replaceAll2 bslash squote [squote] out else out in
  let out :=
    if quote_eqb from QDouble && negb (quote_eqb to QDouble)
    then replaceAll2 bslash dquote [dquote] out else out in
  let out :=
    if quote_eqb from QBacktick && negb (quote_eqb to QBacktick)
    then replaceAll2 bslash btick [btick] out else out in
  match to with
  | QDouble =>
      let out := replaceAll1 bslash [bslash; bslash] out in
      let out := replaceAll1 dquote [bslash; dquote] out in
      if includesChar out newline then None else Some out
  | QBacktick =>
      let out := replaceAll1 bslash [bslash; bslash] out in
      let out := replaceAll1 btick [bslash; btick] out in
      let out := replaceAll2 "$"%char "{"%char [bslash; "$"%char; "{"%char] out in
      Some out
  | QSingle =>
      let out := replaceAll1 bslash [bslash; bslash] out in
      let out := replaceAll1 squote [bslash; squote] out in
      if includesChar out newline then None else Some out
  end.

Record Literal : Type := mkLiteral {
  l_start : nat;
  l_end : nat;
  l_quote : QuoteChar;
  innerStart : nat;
  innerEnd : nat
}.

(** [text.lastIndexOf(c, fromIndex)] as an option: the greatest index at
    most [fromIndex] that holds [c]; a negative [fromIndex] counts as 0. *)
Fixpoint lastIndexUpTo (text : jsstring) (c : ascii) (n : nat) : option nat :=
  match text !! n with
  | Some x =>
      if ceq x c then Some n
      else match n with
           | 0 => None
           | S n' => lastIndexUpTo text c n'
           end
  | None =>
      match n with
      | 0 => None
      | S n' => lastIndexUpTo text c n'
      end
  end.

(** [text.indexOf(c, fromIndex)] as an option. *)
Definition indexOfFrom (text : jsstring) (c : ascii) (fromIndex : nat) : option nat :=
  indexOf_from fromIndex (drop fromIndex text) c.

(** The loop scanning left for an opening quote: [i1] is [i + 1]. *)
Fixpoint scanOpen (text : jsstring) (lineStart : nat) (i1 : nat) : option (nat * QuoteChar) :=
  match i1 with
  | 0 => None
  | S i =>
      if i <? lineStart then None
      else
        match text !! i with
        | Some ch =>
            match quoteOf ch with
            | Some q => if negb (isEscaped text i) then Some (i, q) else scanOpen text lineStart i
            | None => scanOpen text lineStart i
            end
        | None => scanOpen text lineStart i
        end
  end.

(** The loop scanning right for the closing quote, [n] positions from [i]. *)
Fixpoint scanClose (text : jsstring) (quote : QuoteChar) (n : nat) (i : nat) : option nat :=
  match n with
  | 0 => None
  | S n' =>
      match text !! i with
      | Some ch =>
          if ceq ch (quoteChar quote) && negb (isEscaped text i) then Some i
          else scanClose text quote n' (S i)
      | None => scanClose text quote n' (S i)
      end
  end.

Definition findEnclosingStringLiteral (text : jsstring) (selectionStart selectionEnd : nat)
    : option Literal :=
  let before := lastIndexUpTo text newline (selectionStart - 1) in
  let lineStart := match before with None => 0 | Some b => b + 1 end in
  let after := indexOfFrom text newline selectionEnd in
  let lineEnd := match after with None => length text | Some a => a end in
  match scanOpen text lineStart selectionStart with
  | None => None
  | Some (open, quote) =>
      let i0 := Nat.max selectionEnd (open + 1) in
      match scanClose text quote (lineEnd - i0) i0 with
      | None => None
      | Some close =>
          if (selectionStart <? open) || (close + 1 <? selectionEnd) then None
          else Some (mkLiteral open (close + 1) quote (open + 1) close)
      end
  end.

(** A quote conversion offered by [onCodeAction]: the title, the range
    replaced and the new text. *)
Record QuoteAction : Type := mkQuoteAction {
  title : string;
  literalRange : Range;
  newText : jsstring
}.

(** The quote conversions of [onCodeAction] for the selection [range]. *)
Definition quoteActions (text : jsstring) (range : Range) : list QuoteAction :=
  let '(selStart, selEnd) := rangeToOffsets text range in
  let effectiveEnd :=
    if selStart =? selEnd then Nat.min (selEnd + 1) (length text) else selEnd in
  match findEnclosingStringLiteral text selStart effectiveEnd with
  | None => []
  | Some lit =>
      let content := slice text (innerStart lit) (innerEnd lit) in
      let litRange :=
        mkRange (offsetToPosition text (Z.of_nat (l_start lit)))
                (offsetToPosition text (Z.of_nat (l_end lit))) in
      let toTemplate :=
        if negb (quote_eqb (l_quote lit) QBacktick) then
          match rewriteLiteralContent content (l_quote lit) QBacktick with
          | Some rewritten =>
              [mkQuoteAction "Convert to template string" litRange
                             ([btick] ++ rewritten ++ [btick])]
          | None => []
          end
        else [] in
      let toDouble :=
        if negb (quote_eqb (l_quote lit) QDouble) then
          match rewriteLiteralContent content (l_quote lit) QDouble with
          | Some rewritten =>
              [mkQuoteAction "Convert to double quotes" litRange
                             ([dquote] ++ rewritten ++ [dquote])]
          | None => []
          end
        else [] in
      toTemplate ++ toDouble
  end.

(** *** The sample index *)

Record SampleIndex : Type := mkSampleIndex {
  si_soundNames : list jsstring;
  banks : list jsstring
}.

(** [key.split("_")]: the pieces between underscores. *)
Fixpoint splitOn (c : ascii) (s : jsstring) (cur : jsstring) : list jsstring :=
  match s with
  | [] => [rev cur]
  | x :: s' => if ceq x c then rev cur :: splitOn c s' [] else splitOn c s' (x :: cur)
  end.

(** [banks.add(bank)] on a [Set] kept in insertion order. *)
Definition setAdd (x : jsstring) (l : list jsstring) : list jsstring :=
  if existsb (seq_eqb x) l then l else l ++ [x].

Definition nonEmpty (s : jsstring) : bool :=
  match s with
  | [] => false
  | _ :: _ => true
  end.

Definition deriveBanksFromSounds (soundNames : list jsstring) : list jsstring :=
  let banks :=
    fold_left
      (fun banks key =>
         let pieces := splitOn "_"%char key [] in
         match pieces !! 0, pieces !! 1 with
         | Some bank, Some suffix =>
             if nonEmpty suffix && nonEmpty bank then setAdd bank banks else banks
         | _, _ => banks
         end)
      soundNames [] in
  sort banks.

(** A value received as the parameter of a notification. *)
Inductive json : Type :=
| JNull
| JBool (b : bool)
| JNum (n : Z)
| JStr (s : jsstring)
| JArr (items : list json)
| JObj (fields : list (jsstring * json)).

(** [obj[key]] on an object whose keys are distinct. *)
Fixpoint getField (fields : list (jsstring * json)) (key : jsstring) : option json :=
  match fields with
  | [] => None
  | (k, v) :: rest => if seq_eqb k key then Some v else getField rest key
  end.

(** [!payload || typeof payload !== "object"]; [None] is [undefined]. *)
Definition notAnObject (payload : option json) : bool :=
  match payload with
  | Some (JArr _) | Some (JObj _) => false
  | _ => true
  end.

(** [(payload as any).soundNames] *)
Definition soundNamesField (payload : option json) : option json :=
  match payload with
  | Some (JObj fields) => getField fields (str "soundNames")
  | _ => None
  end.

(** [(s) => typeof s === "string" && s], keeping the strings. *)
Fixpoint nonEmptyStrings (items : list json) : list jsstring :=
  match items with
  | [] => []
  | JStr s :: rest => if nonEmpty s then s :: nonEmptyStrings rest else nonEmptyStrings rest
  | _ :: rest => nonEmptyStrings rest
  end.

(** The handler of the notification [strudel/samples]: the new value of
    the variable [sampleIndex]. *)
Definition onSamples (payload : option json) (sampleIndex : SampleIndex) : SampleIndex :=
  if notAnObject payload then sampleIndex
  else
    let soundNames :=
      match soundNamesField payload with
      | Some (JArr items) => nonEmptyStrings items
      | _ => []
      end in
    let sortedSoundNames := sort soundNames in
    mkSampleIndex sortedSoundNames (deriveBanksFromSounds sortedSoundNames).

(** *** Diagnostics *)

Record TextDocument : Type := mkDocument {
  uri : string;
  version : Z;
  getText : jsstring
}.

Record Diagnostic : Type := mkDiagnostic {
  d_message : jsstring;
  d_range : Range
}.

(** What [parse] throws: a value that is not an object, or an object with
    its [message] when that is a string and its [loc] when [line] and
    [column] are numbers. *)
Inductive Thrown : Type :=
| ThrownValue
| ThrownObject (message : option jsstring) (loc : option (Z * Z)).

Definition syntaxDiagnosticsFromError (err : Thrown) : option (list Diagnostic) :=
  match err with
  | ThrownValue => None
  | ThrownObject message loc =>
      match message with
      | None => None
      | Some msg =>
          if negb (nonEmpty msg) then None
          else
            match loc with
            | None => None
            | Some (l, c) =>
                let line := Z.to_nat (Z.max 0 (l - 1)) in
                let character := Z.to_nat (Z.max 0 c) in
                Some [mkDiagnostic msg (mkRange (mkPosition line character)
                                                (mkPosition line character))]
            end
      end
  end.

(** The state of the server that the diagnostics read and write:
    [documents] is the store of the [TextDocuments] manager, [sent] the
    calls of [connection.sendDiagnostics], latest first, and [timers] the
    number of timers created so far, used to name them. *)
Record ServerState : Type := mkState {
  documents : gmap string TextDocument;
  lastKnownVersionByUri : gmap string Z;
  debounceTimersByUri : gmap string nat;
  timers : nat;
  sent : list (string * list Diagnostic)
}.

Definition sendDiagnostics (u : string) (ds : list Diagnostic) (st : ServerState)
    : ServerState :=
  mkState (documents st) (lastKnownVersionByUri st) (debounceTimersByUri st)
          (timers st) ((u, ds) :: sent st).

Definition version_eqb (known : option Z) (v : Z) : bool :=
  match known with
  | Some k => (k =? v)%Z
  | None => false
  end.

Section Diagnostics.
(** The parser of the package [acorn]: [None] when [text] parses. *)
Variable parse : jsstring -> option Thrown.

Definition validateDocument (doc : TextDocument) (st : ServerState) : ServerState :=
  let uri := uri doc in
  let version := version doc in
  let text := getText doc in
  match parse text with
  | None =>
      if negb (version_eqb (lastKnownVersionByUri st !! uri) version) then st
      else sendDiagnostics uri [] st
  | Some e =>
      if negb (version_eqb (lastKnownVersionByUri st !! uri) version) then st
      else
        match syntaxDiagnosticsFromError e with
        | Some diagnostics => sendDiagnostics uri diagnostics st
        | None => sendDiagnostics uri [] st
        end
  end.

(** [scheduleValidation]: the timer armed before, if any, is cleared by
    being replaced in [debounceTimersByUri]; a timer fires only while it
    is the one recorded there. *)
Definition scheduleValidation (u : string) (st : ServerState) : ServerState :=
  let t := timers st in
  mkState (documents st) (lastKnownVersionByUri st)
          (<[u := t]> (debounceTimersByUri st)) (S t) (sent st).

(** The callback given to [setTimeout] by [scheduleValidation]. *)
Definition timerCallback (u : string) (st : ServerState) : ServerState :=
  let st :=
    mkState (documents st) (lastKnownVersionByUri st)
            (delete u (debounceTimersByUri st)) (timers st) (sent st) in
  match documents st !! u with
  | None => st
  | Some doc => validateDocument doc st
  end.

Definition onDidOpen (doc : TextDocument) (st : ServerState) : ServerState :=
  validateDocument doc st.

Definition onDidChangeContent (doc : TextDocument) (st : ServerState) : ServerState :=
  let st :=
    mkState (documents st) (<[uri doc := version doc]> (lastKnownVersionByUri st))
            (debounceTimersByUri st) (timers st) (sent st) in
  scheduleValidation (uri doc) st.

Definition onDidClose (doc : TextDocument) (st : ServerState) : ServerState :=
  let u := uri doc in
  let st := sendDiagnostics u [] st in
  mkState (documents st) (delete u (lastKnownVersionByUri st))
          (delete u (debounceTimersByUri st)) (timers st) (sent st).

(** What happens to the server: the three events of the document
    manager, which has put the document in its store (or removed it)
    before it calls the handler, and the firing of timer [t] of [u]. *)
Inductive Event : Type :=
| DidOpen (doc : TextDocument)
| DidChangeContent (doc : TextDocument)
| DidClose (doc : TextDocument)
| TimerFired (u : string) (t : nat).

Definition storeDocument (doc : TextDocument) (st : ServerState) : ServerState :=
  mkState (<[uri doc := doc]> (documents st)) (lastKnownVersionByUri st)
          (debounceTimersByUri st) (timers st) (sent st).

Definition dropDocument (doc : TextDocument) (st : ServerState) : ServerState :=
  mkState (delete (uri doc) (documents st)) (lastKnownVersionByUri st)
          (debounceTimersByUri st) (timers st) (sent st).

Definition step (st : ServerState) (ev : Event) : ServerState :=
  match ev with
  | DidOpen doc => onDidOpen doc (storeDocument doc st)
  | DidChangeContent doc => onDidChangeContent doc (storeDocument doc st)
  | DidClose doc => onDidClose doc (dropDocument doc st)
  | TimerFired u t =>
      match debounceTimersByUri st !! u with
      | Some t' => if t' =? t then timerCallback u st else st
      | None => st
      end
  end.

Definition runEvents (st : ServerState) (evs : list Event) : ServerState :=
  fold_left step evs st.
End Diagnostics.

Definition initialState : ServerState := mkState ∅ ∅ ∅ 0 [].

End Server.

(** ** The documentation index, [cm_engine.ts] *)

Module CmDocs.
Import Js Re CmEngine Server.

(** [typeof value === "object" && value !== null] *)
Definition isRecord (value : json) : bool :=
  match value with
  | JArr _ | JObj _ => true
  | _ => false
  end.

(** [doc[key]] for the keys that the index reads, none of which an array
    or a primitive value has. *)
Definition prop (doc : json) (key : jsstring) : option json :=
  match doc with
  | JObj fields => getField fields key
  | _ => None
  end.

Definition stringProp (doc : json) (key : jsstring) : option jsstring :=
  match prop doc key with
  | Some (JStr s) => Some s
  | _ => None
  end.

Definition getDocLabel (doc : json) : option jsstring :=
  match stringProp doc (str "name") with
  | Some s => Some s
  | None =>
      match stringProp doc (str "longname") with
      | Some s => Some s
      | None => stringProp doc (str "longName")
      end
  end.

Definition hasExcludedTags (doc : json) : bool :=
  match prop doc (str "tags") with
  | Some (JArr tags) =>
      existsb (fun needle =>
                 existsb (fun t =>
                            match stringProp t (str "originalTitle") with
                            | Some s => seq_eqb s needle
                            | None => false
                            end) tags)
              [str "superdirtOnly"; str "noAutocomplete"]
  | _ => false
  end.

Definition isValidDoc (doc : json) : bool :=
  match getDocLabel doc with
  | Some label =>
      negb (seq_eqb label []) && negb (startsWith label (str "_")) &&
      negb (match stringProp doc (str "kind") with
            | Some k => seq_eqb k (str "package")
            | None => false
            end) &&
      negb (hasExcludedTags doc)
  | None => false
  end.

(** [Array.isArray(d.synonyms) ? d.synonyms : []] *)
Definition synonymsOf (d : json) : list json :=
  match prop d (str "synonyms") with
  | Some (JArr syns) => syns
  | _ => []
  end.

(** The index with its two maps; [forComplete] is the part that
    [complete] reads. *)
Record FullDocIndex : Type := mkFullDocIndex {
  byName : gmap jsstring json;
  bySynonym : gmap jsstring jsstring;
  forComplete : DocIndex
}.

(** [if (!map.has(key)) map.set(key, value)] *)
Definition setIfAbsent {V : Type} (key : jsstring) (value : V) (m : gmap jsstring V)
    : gmap jsstring V :=
  match m !! key with
  | Some _ => m
  | None => <[key := value]> m
  end.

(** The documents that both loops of [buildDocIndex] go on with, each
    with its label. *)
Definition keptDoc (d : json) : option jsstring :=
  if negb (isRecord d) then None
  else if negb (isValidDoc d) then None
  else
    match getDocLabel d with
    | Some name => if nonEmpty name then Some name else None
    | None => None
    end.

(** The body of the first loop. *)
Definition indexDoc (maps : gmap jsstring json * gmap jsstring jsstring) (d : json)
    : gmap jsstring json * gmap jsstring jsstring :=
  match keptDoc d with
  | None => maps
  | Some name =>
      let byName := setIfAbsent name d (fst maps) in
      let bySynonym :=
        fold_left (fun bySynonym s =>
                     match s with
                     | JStr s => if nonEmpty s then setIfAbsent s name bySynonym else bySynonym
                     | _ => bySynonym
                     end)
                  (synonymsOf d) (snd maps) in
      (byName, bySynonym)
  end.

(** [[canonicalName, ...syns].filter(x => typeof x === "string" && x !== "")] *)
Definition labelsOf (canonicalName : jsstring) (d : json) : list jsstring :=
  nonEmptyStrings (JStr canonicalName :: synonymsOf d).

(** The body of the second loop: [acc] is the set [seen] and the list
    [jsdocCompletions]. *)
Definition completeDoc (acc : list jsstring * list CmCompletionOption) (d : json)
    : list jsstring * list CmCompletionOption :=
  match keptDoc d with
  | None => acc
  | Some canonicalName =>
      fold_left (fun acc label =>
                   if existsb (seq_eqb label) (fst acc) then acc
                   else
                     let isSynonym := negb (seq_eqb label canonicalName) in
                     (fst acc ++ [label],
                      snd acc ++ [mkOption label (Some (str "function")) None None
                                           (Some canonicalName) (Some isSynonym)]))
                (labelsOf canonicalName d) acc
  end.

(** [buildDocIndex]; [None] when it throws. *)
Definition buildDocIndex (docJson : option json) : option FullDocIndex :=
  match docJson with
  | Some (JObj fields) =>
      match getField fields (str "docs") with
      | Some (JArr docs) =>
          let maps := fold_left indexDoc docs (∅, ∅) in
          let completions := fold_left completeDoc docs ([], []) in
          Some (mkFullDocIndex (fst maps) (snd maps) (mkDocIndex (snd completions)))
      | _ => None
      end
  | _ => None
  end.

End CmDocs.

(** ** The request handlers, [server.ts] *)

Module Handlers.
Import Js Re CmEngine Server CmDocs.

(** [Object.keys(value)] of a value that is an object: the keys of an
    object literal, the indices of an array. *)
Definition objectKeys (value : json) : list jsstring :=
  match value with
  | JObj fields => map fst fields
  | JArr items =>
      map (fun i => str (NilEmpty.string_of_uint (Nat.to_uint i))) (seq 0 (length items))
  | _ => []
  end.

Definition buildSampleIndex (sampleMap : option json) : SampleIndex :=
  if notAnObject sampleMap then mkSampleIndex [] []
  else
    let soundNames :=
      List.filter (fun key => negb (seq_eqb key (str "_base")) && nonEmpty key)
                  (objectKeys (default JNull sampleMap)) in
    let soundNames := sort soundNames in
    mkSampleIndex soundNames (deriveBanksFromSounds soundNames).

(** The values of [CompletionItemKind] that the server uses. *)
Inductive CompletionItemKind : Type := KindFunction | KindValue | KindText.

Definition cmTypeToLspKind (type : option jsstring) : CompletionItemKind :=
  match type with
  | None => KindText
  | Some t =>
      if seq_eqb t (str "function") then KindFunction
      else if seq_eqb t (str "sound") || seq_eqb t (str "bank") then KindValue
      else if seq_eqb t (str "pitch") || seq_eqb t (str "mode") || seq_eqb t (str "scale")
      then KindValue
      else if seq_eqb t (str "chord-symbol") then KindValue
      else KindText
  end.

(** The [data] of a completion item: [type] is ["syn"] or ["doc"]. *)
Inductive ItemDataType : Type := DataSyn | DataDoc.

Record ItemData : Type := mkItemData {
  data_type : ItemDataType;
  data_name : jsstring;
  data_synonym : option jsstring
}.

(** [TextEdit.replace(range, newText)] *)
Record TextEdit : Type := mkTextEdit {
  te_range : Range;
  te_newText : jsstring
}.

Record CompletionItem : Type := mkItem {
  ci_label : jsstring;
  ci_kind : CompletionItemKind;
  ci_filterText : option jsstring;
  ci_textEdit : TextEdit;
  ci_data : option ItemData
}.

(** A value that is [true] in a condition: a string that is not empty, the
    boolean [true]. *)
Definition truthyString (s : option jsstring) : bool :=
  match s with
  | Some s => nonEmpty s
  | None => false
  end.

Definition truthyBool (b : option bool) : bool := default false b.

(** The function mapped over [cm.options] by the completion handler. *)
Definition completionItem (text : jsstring) (cmFrom : Z) (offset : nat)
    (opt : CmCompletionOption) : CompletionItem :=
  let newText :=
    match apply opt with
    | Some a => a
    | None => label opt
    end in
  let range :=
    mkRange (offsetToPosition text cmFrom) (offsetToPosition text (Z.of_nat offset)) in
  mkItem (label opt) (cmTypeToLspKind (type opt)) (filterText opt)
         (mkTextEdit range newText)
         (if match type opt with
             | Some t => seq_eqb t (str "function")
             | None => false
             end && truthyString (canonicalName opt)
          then Some (mkItemData (if truthyBool (isSynonym opt) then DataSyn else DataDoc)
                                (default [] (canonicalName opt))
                                (if truthyBool (isSynonym opt) then Some (label opt) else None))
          else None).

(** The handler of [connection.onCompletion]: [documents] is the store of
    the document manager, and the request is always taken as explicit. *)
Definition onCompletion (chordSymbolCompletions : list CmCompletionOption)
    (documents : gmap string TextDocument) (docIndex : DocIndex) (sampleIndex : SampleIndex)
    (u : string) (position : Position) : list CompletionItem :=
  match documents !! u with
  | None => []
  | Some doc =>
      let text := getText doc in
      let offset := positionToOffset text position in
      let explicit := true in
      let cm :=
        complete chordSymbolCompletions text (Z.of_nat offset) explicit docIndex
                 (Some (mkSources (Some (si_soundNames sampleIndex))
                                  (Some (banks sampleIndex)))) in
      match cm with
      | None => []
      | Some cm => map (completionItem text (from cm) offset) (options cm)
      end
  end.

(** The pattern of the word before the cursor: word characters up to the
    end. *)
Definition HOVER_LEFT_REGEX : regex := Seq (Plus (Chr isWord)) Eol.

(** The pattern of the word after the cursor, without its anchor: being
    anchored at the start, it is tried at index 0 only. *)
Definition HOVER_RIGHT_REGEX : regex := Plus (Chr isWord).

(** The word under the cursor, as the hover handler takes it. *)
Definition hoverWord (text : jsstring) (offset : nat) : jsstring :=
  let before := take offset text in
  let after := drop offset text in
  let left :=
    match match_ before HOVER_LEFT_REGEX with
    | Some m => m0 m
    | None => []
    end in
  let right :=
    match matchAt HOVER_RIGHT_REGEX after 0 with
    | Some m => m0 m
    | None => []
    end in
  left ++ right.

Section Documentation.
(** [buildMarkdownDoc] of the completion engine, which renders a
    document under the name it was asked for. *)
Variable buildMarkdownDoc : json -> option jsstring -> jsstring.

(** The handler of [connection.onHover]: the markdown of the answer. *)
Definition onHover (documents : gmap string TextDocument) (docIndex : FullDocIndex)
    (u : string) (position : Position) : option jsstring :=
  match documents !! u with
  | None => None
  | Some doc =>
      let text := getText doc in
      let offset := positionToOffset text position in
      let word := hoverWord text offset in
      if negb (nonEmpty word) then None
      else
        let canonical :=
          match bySynonym docIndex !! word with
          | Some c => c
          | None => word
          end in
        let displayName :=
          match bySynonym docIndex !! word with
          | Some _ => Some word
          | None => None
          end in
        match byName docIndex !! canonical with
        | None => None
        | Some d => Some (buildMarkdownDoc d displayName)
        end
  end.

(** The handler of [connection.onCompletionResolve]: the markdown put in
    [item.documentation], if any; the item is otherwise returned as it
    is. *)
Definition onCompletionResolve (docIndex : FullDocIndex) (item : CompletionItem)
    : option jsstring :=
  match ci_data item with
  | None => None
  | Some data =>
      match byName docIndex !! data_name data with
      | None => None
      | Some doc =>
          let displayName :=
            match data_type data with
            | DataSyn => data_synonym data
            | DataDoc => None
            end in
          Some (buildMarkdownDoc doc displayName)
      end
  end.
End Documentation.

End Handlers.

(** ** What the properties are stated with *)

Import Js Re CmEngine Server.
Import CmDocs Handlers.

(** What a successful [exec] from [lastIndex] returns. *)
Record exec_ok (r : regex) (s : jsstring) (lastIndex : nat) (m : RegExpExecArray) : Prop := {
  ok_from : lastIndex <= index m;
  ok_end : index m + length (m0 m) <= length s;
  ok_text : m0 m = slice s (index m) (index m + length (m0 m));
  ok_input : input m = s;
  ok_matches : matches s r (index m) (index m + length (m0 m))
}.

(** The longest initial part of [l] whose elements pass [p]. *)
Fixpoint takeWhile {A} (p : A -> bool) (l : list A) : list A :=
  match l with
  | [] => []
  | x :: l' => if p x then x :: takeWhile p l' else []
  end.

(** The word-prefix token ending at the cursor, in the words of the
    specification: the longest run of word characters that ends there. *)
Definition wordPrefixToken (text : jsstring) (cursorOffset : Z) : jsstring :=
  rev (takeWhile isWord (rev (take (clamp cursorOffset (length text)) text))).

(** What follows the last single or double quote before the cursor. *)
Definition afterLastQuote (text : jsstring) (cursorOffset : Z) : jsstring :=
  rev (takeWhile notQuote12 (rev (take (clamp cursorOffset (length text)) text))).

(** The pitch typed at the end of the span: the whole match of
    [SCALE_PITCH_MATCH_REGEX] in the text of the span, or the empty string
    when there is none. *)
Definition pitchFragment (spanText : jsstring) : jsstring :=
  match match_ spanText SCALE_PITCH_MATCH_REGEX with
  | Some m => m0 m
  | None => []
  end.

(** The fallback handler as C2 states it: declining exactly on an empty
    token that was not asked for, and otherwise starting at the token and
    keeping the options that the token is a prefix of, letter case apart. *)
Definition fallbackClaimed (text : jsstring) (cursorOffset : Z) (explicit : bool)
    (options : list CmCompletionOption) : CmCompletionMaybe :=
  let word := wordPrefixToken text cursorOffset in
  if (length word =? 0) && negb explicit then None
  else
    Some (mkResult (Z.of_nat (clamp cursorOffset (length text)) - Z.of_nat (length word))
            (List.filter (fun o => startsWith (toLowerCase (label o)) (toLowerCase word))
                         options)).

(** The five handlers that [complete] tries first, in their order. *)
Definition stringHandlers (chordSymbolCompletions : list CmCompletionOption)
    (ctx : CompletionContext) (sources : DynamicSources) : list (unit -> CmCompletionMaybe) :=
  [ fun _ => soundHandler ctx sources;
    fun _ => bankHandler ctx sources;
    fun _ => chordHandler chordSymbolCompletions ctx;
    fun _ => scaleHandler ctx;
    fun _ => modeHandler ctx ].

(** Two continuations of the matcher that agree from [i] to the end of
    the subject [s]. *)
Definition agree {R : Type} (s : jsstring) (i : nat) (k k' : nat -> caps -> option R) : Prop :=
  forall j c, i <= j <= length s -> k j c = k' j c.

(** The characters of the pieces of a split, and one separator for each. *)
Definition total (l : list jsstring) : nat := foldr (fun x n => length x + 1 + n) 0 l.

(** A pattern all of whose matches end at the end of the subject. *)
Definition endAnchored (r : regex) : Prop :=
  forall s i j, matches s r i j -> j = length s.

(** The literal [lit] lies in [s] from [i] on. *)
Definition litAt (s : jsstring) (i : nat) (lit : jsstring) : Prop :=
  forall k c, lit !! k = Some c -> s !! (i + k) = Some c.

Definition lparen : ascii := "("%char.

Definition plainChar (c : ascii) : bool := notQuote12 c && negb (ceq c lparen).

(** [a] is an end part of [b]. *)
Definition suffixb (a b : jsstring) : bool :=
  seq_eqb a (drop (length b - length a) b).

(** The names that a pattern for a function name accepts. *)
Definition accepts (name : regex) (lits : list jsstring) : Prop :=
  forall s i j, matches s name i j ->
    exists lit, lit ∈ lits /\ j = i + length lit /\ litAt s i lit.

Definition colon : ascii := ":"%char.

(** The text before the cursor ends with a call: [fn(], white space, a
    quote and [body], which has neither a quote nor an opening parenthesis. *)
Record callShape (text : jsstring) (cursorOffset : Z) (pre fn ws : jsstring) (q : ascii)
    (body : jsstring) : Prop := {
  shape_text :
    take (clamp cursorOffset (length text)) text = pre ++ fn ++ str "(" ++ ws ++ [q] ++ body;
  shape_ws : forallb isSpace ws = true;
  shape_quote : isQuote12 q = true;
  shape_body : forallb plainChar body = true
}.

(** No literal of [lits] ends where [fn] ends. *)
Definition unrelated (lits : list jsstring) (fn : jsstring) : bool :=
  forallb (fun lit => negb (suffixb lit fn) && negb (suffixb fn lit)) lits.

(** Two rewritten parts with [mid] between them; null when a part is. *)
Definition between (left : option jsstring) (mid : jsstring) (right : option jsstring)
    : option jsstring :=
  match left, right with
  | Some l, Some r => Some (l ++ mid ++ r)
  | _, _ => None
  end.

(** The pieces that the escaping steps of [rewriteLiteralContent] write
    for the target quote [q]: a doubled backslash, the escaped quote, the
    escaped interpolation opener, or one character that is neither a
    backslash nor the quote. *)
Definition escapeToken (q : ascii) (t : jsstring) : Prop :=
  t = [bslash; bslash] \/ t = [bslash; q] \/ t = [bslash; "$"%char; "{"%char] \/
  exists c, t = [c] /\ c <> bslash /\ c <> q.

(** What the two escaping steps write for one character. *)
Definition escapeChar (q : ascii) (c : ascii) : jsstring :=
  if ceq c bslash then [bslash; bslash]
  else if ceq c q then [bslash; q]
  else [c].

(** [key] names a sample of the bank [bank]: it is [bank], an underscore
    and at least one more character that is not an underscore, and [bank]
    is not empty and has no underscore. *)
Definition bankKey (bank key : jsstring) : Prop :=
  exists x rest, key = bank ++ "_"%char :: x :: rest /\
    ("_"%char ∉ bank) /\ bank <> [] /\ x <> "_"%char.

(** [d] is kept by [buildDocIndex] under the label [name]. *)
Definition namedDoc (name : jsstring) (d : json) : bool :=
  match keptDoc d with
  | Some n => seq_eqb n name
  | None => false
  end.

(** [d] is kept by [buildDocIndex] and has the string [s] among its
    synonyms. *)
Definition listsSynonym (s : jsstring) (d : json) : bool :=
  match keptDoc d with
  | Some _ =>
      existsb (fun j => match j with JStr t => seq_eqb t s | _ => false end) (synonymsOf d)
  | None => false
  end.

(** What an option of the index looks like: [docs] are the documents of
    the index. *)
Definition indexOption (docs : list json) (o : CmCompletionOption) : Prop :=
  type o = Some (str "function") /\ apply o = None /\ filterText o = None /\
  exists c d, d ∈ docs /\ keptDoc d = Some c /\ canonicalName o = Some c /\
    label o ∈ labelsOf c d /\ isSynonym o = Some (negb (seq_eqb (label o) c)).

(** The state of the second loop of [buildDocIndex]: the labels seen are
    those of the options, without repetition. *)
Definition completionsOk (docs : list json)
    (acc : list jsstring * list CmCompletionOption) : Prop :=
  fst acc = map label (snd acc) /\ NoDup (fst acc) /\ Forall (indexOption docs) (snd acc).

(** The diagnostics that a validation of [doc] publishes when it is not
    stale. *)
Definition diagnosticsFor (parse : jsstring -> option Thrown) (doc : TextDocument)
    : list Diagnostic :=
  match parse (getText doc) with
  | None => []
  | Some e => default [] (syntaxDiagnosticsFromError e)
  end.

(** The word under the cursor: the word characters around it. *)
Definition wordAround (text : jsstring) (offset : nat) : jsstring :=
  rev (takeWhile isWord (rev (take offset text))) ++ takeWhile isWord (drop offset text).

(** ** The inputs of the examples *)

(** The single-quoted literal of the example: the characters
    [i t \ ' s] between single quotes, as the argument of a call. *)
Definition its_content : jsstring := str "it\'s".
Definition its_source : jsstring := str "s('it\'s')".

(** The content [it\'s], a space and [x] between double quotes: an escaped
    single quote and two double quotes. *)
Definition mixed_content : jsstring := str "it\'s " ++ [dquote] ++ str "x" ++ [dquote].

(** The content [a\b]: a backslash that escapes no quote. *)
Definition path_content : jsstring := str "a\b".

(** A single-quoted and a backtick string left open over a line feed, and
    a double-quoted string that is closed. *)
Definition openSingle : jsstring := [squote; "a"%char; newline].
Definition openBlock : jsstring := [btick; "a"%char; newline].
Definition closedDouble : jsstring := [dquote; "a"%char; dquote; "x"%char].

(** The text of the example: [a], a carriage return and a line feed, [b]. *)
Definition crlfText : jsstring := str "a" ++ [creturn; newline] ++ str "b".

(** The input of the example: the text [chord(] with an opening double
    quote and [C], the cursor at its end, and the chord symbols of a
    [complex] whose keys are [maj7] and [m7], so that the symbols are the
    empty one, [m7] and [maj7]. *)
Definition chordText : jsstring := str "chord(" ++ [dquote] ++ str "C".
Definition chordVocabulary : list CmCompletionOption :=
  getChordSymbolCompletions [str "maj7"; str "m7"].

(** A document at version 1, and the same document edited to version 2. *)
Definition staleDoc : TextDocument := mkDocument "file:///a.str" 1 (str "s(").
Definition editedDoc : TextDocument := mkDocument "file:///a.str" 2 (str "s()").

(** The text [sound(], a double quote and [fragment]; the same for [bank(]. *)
Definition soundText (fragment : string) : jsstring := str "sound(" ++ [dquote] ++ str fragment.
Definition bankText (fragment : string) : jsstring := str "bank(" ++ [dquote] ++ str fragment.
Definition drumSources : DynamicSources :=
  mkSources (Some [str "cp"; str "bd_808"; str "bd"]) (Some [str "drum"; str "bd"]).

(** The text [mode(], a double quote and [arg]; the same for [scale(]. *)
Definition modeText (arg : string) : jsstring := str "mode(" ++ [dquote] ++ str arg.
Definition scaleText (arg : string) : jsstring := str "scale(" ++ [dquote] ++ str arg.

(** A documentation completion list of two functions. *)
Definition noteAndSound : list CmCompletionOption :=
  [option2 (str "note") (str "function"); option2 (str "sound") (str "function")].

(** A store with one document, whose text is two letters of a word. *)
Definition wordDoc : TextDocument := mkDocument "file:///a.str" 1 (str "so").
Definition wordStore : gmap string TextDocument := {["file:///a.str" := wordDoc]}.

(** A document at version 1 whose URI is last known at version 1. *)
Definition freshState : ServerState :=
  mkState {["file:///a.str" := staleDoc]} {["file:///a.str" := 1%Z]} ∅ 0 [].

(** The text [ab], a line feed, [c]. *)
Definition lfText : jsstring := str "ab" ++ [newline] ++ str "c".

(** A [doc.json] of two documents: [lpf] with the synonym [cutoff], and
    one whose label starts with an underscore. *)
Definition exampleDocs : list json :=
  [JObj [(str "name", JStr (str "lpf")); (str "synonyms", JArr [JStr (str "cutoff")])];
   JObj [(str "name", JStr (str "_private"))]].
Definition exampleDocJson : list (jsstring * json) := [(str "docs", JArr exampleDocs)].
Definition exampleIndex : FullDocIndex :=
  default (mkFullDocIndex ∅ ∅ (mkDocIndex [])) (buildDocIndex (Some (JObj exampleDocJson))).

(** The completion of [lpf] in that index. *)
Definition lpfOption : CmCompletionOption :=
  mkOption (str "lpf") (Some (str "function")) None None (Some (str "lpf")) (Some false).

(** A store with one document that calls [cutoff]. *)
Definition cutoffDoc : TextDocument := mkDocument "file:///a.str" 1 (str "cutoff(1)").
Definition cutoffStore : gmap string TextDocument := {["file:///a.str" := cutoffDoc]}.

(* ================================================================== *)
(** * Part II: properties *)
(* ================================================================== *)

(** ** Strings *)

Lemma slice_length (s : jsstring) a b :
  a <= b -> b <= length s -> length (slice s a b) = b - a.
Proof. intros. unfold slice. rewrite length_take, length_drop. lia. Qed.

Lemma slice_slice (s : jsstring) w t a b :
  w <= t -> t <= length s -> a <= b -> b <= t - w ->
  slice (slice s w t) a b = slice s (w + a) (w + b).
Proof.
  intros. unfold slice.
  replace (t - w) with (a + (t - w - a)) by lia.
  rewrite <- take_drop_commute, take_take, drop_drop.
  f_equal. lia.
Qed.

Lemma clamp_le n len : clamp n len <= len.
Proof. unfold clamp. lia. Qed.

Lemma clamp_of_nat i len : i <= len -> clamp (Z.of_nat i) len = i.
Proof. unfold clamp. lia. Qed.

Lemma ceq_eq a b : ceq a b = true <-> a = b.
Proof. apply Ascii.eqb_eq. Qed.

Lemma ceq_refl a : ceq a a = true.
Proof. apply ceq_eq. reflexivity. Qed.

Lemma ceq_neq a b : a <> b -> ceq a b = false.
Proof. intros H. destruct (ceq a b) eqn:E; [|reflexivity]. apply ceq_eq in E. contradiction. Qed.

Lemma ceq_sym a b : ceq a b = ceq b a.
Proof. apply Ascii.eqb_sym. Qed.

(** ** The matcher is sound for [matches] *)

Section RunSound.
Variable s : jsstring.
Context {R : Type}.

Lemma starLoop_sound (a : regex)
    (step : nat -> caps -> (nat -> caps -> option R) -> option R)
    (Hstep : forall i c k x, step i c k = Some x ->
               exists j c', matches s a i j /\ k j c' = Some x)
    (k : nat -> caps -> option R) fuel :
  forall i c x, starLoop step k fuel i c = Some x ->
    exists j c', matches s (Star a) i j /\ k j c' = Some x.
Proof.
  induction fuel as [|fuel IH]; intros i c x H; simpl in H.
  - exists i, c. split; [constructor | exact H].
  - destruct (step i c _) as [y|] eqn:E.
    + injection H as ->.
      apply Hstep in E as (j & c' & Ha & Hk).
      destruct (j <=? i) eqn:Hji; [discriminate|].
      apply Nat.leb_gt in Hji.
      apply IH in Hk as (j' & c'' & Hs & Hk).
      exists j', c''. split; [|exact Hk].
      eapply M_StarCons; eauto.
    + exists i, c. split; [constructor | exact H].
Qed.

Lemma run_sound (r : regex) :
  forall i c (k : nat -> caps -> option R) x,
    Re.run s r i c k = Some x ->
    exists j c', matches s r i j /\ k j c' = Some x.
Proof.
  induction r as [p| |a IHa b IHb|a IHa b IHb|a IHa| |n a IHa]; intros i c k x H; simpl in H.
  - destruct (s !! i) as [ch|] eqn:E; [|discriminate].
    destruct (p ch) eqn:Hp; [|discriminate].
    exists (S i), c. split; [econstructor; eauto | exact H].
  - exists i, c. split; [constructor | exact H].
  - apply IHa in H as (j & c' & Ha & H).
    apply IHb in H as (j' & c'' & Hb & H).
    exists j', c''. split; [econstructor; eauto | exact H].
  - destruct (Re.run s a i c k) as [y|] eqn:E.
    + injection H as ->. apply IHa in E as (j & c' & Ha & H).
      exists j, c'. split; [apply M_AltL; exact Ha | exact H].
    + apply IHb in H as (j & c' & Hb & H).
      exists j, c'. split; [apply M_AltR; exact Hb | exact H].
  - eapply starLoop_sound; [|exact H]. intros; eapply IHa; eauto.
  - destruct (i =? length s) eqn:E; [|discriminate].
    apply Nat.eqb_eq in E. exists i, c. split; [constructor; exact E | exact H].
  - apply IHa in H as (j & c' & Ha & H).
    exists j, ((n, (i, j)) :: c'). split; [constructor; exact Ha | exact H].
Qed.
End RunSound.

Lemma matches_bounds s r i j :
  matches s r i j -> i <= j /\ (i <= length s -> j <= length s).
Proof.
  induction 1; try lia.
  apply lookup_lt_Some in H. lia.
Qed.

(** ** The fuel of the matcher *)

Section Fuel.
Variable s : jsstring.
Context {R : Type}.


Lemma starLoop_agree (step : nat -> caps -> (nat -> caps -> option R) -> option R)
    (Hstep : forall i c k k', i <= length s -> agree s i k k' -> step i c k = step i c k')
    fuel : forall i c (k k' : nat -> caps -> option R),
  i <= length s -> agree s i k k' -> starLoop step k fuel i c = starLoop step k' fuel i c.
Proof.
  induction fuel as [|fuel IH]; intros i c k k' Hi Hk; simpl.
  - apply Hk. lia.
  - rewrite (Hk i c) by lia.
    erewrite Hstep; [reflexivity | exact Hi |].
    intros j c' Hj. destruct (j <=? i) eqn:E; [reflexivity|].
    apply IH; [lia|]. intros j' c'' Hj'. apply Hk. apply Nat.leb_gt in E. lia.
Qed.

Lemma run_agree r : forall i c (k k' : nat -> caps -> option R),
  i <= length s -> agree s i k k' -> Re.run s r i c k = Re.run s r i c k'.
Proof.
  induction r as [p| |a IHa b IHb|a IHa b IHb|a IHa| |n a IHa]; intros i c k k' Hi Hk; simpl.
  - destruct (s !! i) as [ch|] eqn:E; [|reflexivity].
    apply lookup_lt_Some in E. destruct (p ch); [|reflexivity]. apply Hk. lia.
  - apply Hk. lia.
  - apply IHa; [exact Hi|]. intros j c' Hj. apply IHb; [lia|].
    intros j' c'' Hj'. apply Hk. lia.
  - rewrite (IHa i c k k' Hi Hk), (IHb i c k k' Hi Hk). reflexivity.
  - apply starLoop_agree; auto.
  - destruct (i =? length s); [|reflexivity]. apply Hk. lia.
  - apply IHa; [exact Hi|]. intros j c' Hj. apply Hk. lia.
Qed.

(** An iteration of [a] from the end of the subject consumes nothing, so
    it is refused. *)
Lemma run_at_end a i c (X : nat -> caps -> option R) :
  i = length s ->
  Re.run s a i c (fun j c' => if j <=? i then None else X j c') = None.
Proof.
  intros Hi. destruct (Re.run s a i c _) as [x|] eqn:E; [|reflexivity].
  apply run_sound in E as (j & c' & Hm & E).
  apply matches_bounds in Hm as [Hij Hj].
  destruct (j <=? i) eqn:L; [discriminate|]. apply Nat.leb_gt in L.
  lia.
Qed.

(** The fuel that [run] gives to the iterations of [a*] is enough: more
    fuel gives the same result. *)
Lemma starLoop_enough a (k : nat -> caps -> option R) : forall n i c fuel,
  length s - i <= n -> i <= length s -> n <= fuel ->
  starLoop (Re.run s a) k fuel i c = starLoop (Re.run s a) k n i c.
Proof.
  induction n as [|n IH]; intros i c fuel Hn Hi Hf.
  - destruct fuel as [|fuel]; simpl; [reflexivity|].
    rewrite run_at_end by lia. reflexivity.
  - destruct fuel as [|fuel]; [lia|]. simpl.
    erewrite run_agree; [reflexivity | exact Hi |].
    intros j c' Hj. destruct (j <=? i) eqn:E; [reflexivity|].
    apply Nat.leb_gt in E. apply IH; lia.
Qed.
End Fuel.

(** ** What [exec] returns *)

Lemma matchAt_ok r s i m : i <= length s -> matchAt r s i = Some m -> exec_ok r s i m.
Proof.
  intros Hi H. unfold matchAt in H.
  apply run_sound in H as (j & c & Hm & H). injection H as <-.
  destruct (matches_bounds _ _ _ _ Hm) as [Hij Hj]. specialize (Hj Hi).
  assert (Hlen : length (slice s i j) = j - i) by (apply slice_length; lia).
  assert (Hj' : i + (j - i) = j) by lia.
  split; simpl; rewrite ?Hlen, ?Hj'; try lia; auto.
Qed.

Lemma search_ok r s fuel : forall i m,
  i + fuel <= length s -> search r s fuel i = Some m -> exec_ok r s i m.
Proof.
  induction fuel as [|fuel IH]; intros i m Hi H; simpl in H.
  - destruct (matchAt r s i) eqn:E; [|discriminate]. injection H as ->.
    apply matchAt_ok; [lia | exact E].
  - destruct (matchAt r s i) eqn:E.
    + injection H as ->. apply matchAt_ok; [lia | exact E].
    + apply IH in H; [|lia]. destruct H; split; auto; lia.
Qed.

Lemma exec_ok_intro r s li m : exec r s li = Some m -> exec_ok r s li m.
Proof.
  unfold exec. destruct (length s <? li) eqn:E; [discriminate|].
  apply Nat.ltb_ge in E. apply search_ok. lia.
Qed.

(** ** The loop of [matchBefore] *)

Lemma nextIndex_gt r s li m : exec_ok r s li m -> li < nextIndex m <= length s + 1.
Proof.
  intros []. unfold nextIndex. destruct (length (m0 m) =? 0) eqn:E.
  - apply Nat.eqb_eq in E. lia.
  - apply Nat.eqb_neq in E. lia.
Qed.

(** The loop finishes within its fuel. *)
Lemma matchLoop_total re s fuel : forall li best,
  length s + 2 <= li + fuel -> 1 <= fuel ->
  exists b, matchLoop re s fuel li best = Some b.
Proof.
  induction fuel as [|fuel IH]; intros li best H1 H2; [lia|].
  simpl. destruct (exec re s li) as [m|] eqn:E; [|eauto].
  apply exec_ok_intro in E. pose proof (nextIndex_gt _ _ _ _ E) as Hn.
  unfold nextIndex in Hn. apply IH; lia.
Qed.

(** The loop keeps the last match that ends at the end of the window. *)
Lemma matchLoop_spec re s fuel : forall li best b,
  matchLoop re s fuel li best = Some b ->
  b = match last (List.filter (endsAtCursor s) (execAll re s fuel li)) with
      | Some m => Some m
      | None => best
      end.
Proof.
  induction fuel as [|fuel IH]; intros li best b H; simpl in H; [discriminate|].
  simpl. destruct (exec re s li) as [m|] eqn:E.
  - apply IH in H. fold (nextIndex m) in H. rewrite H. simpl.
    unfold endsAtCursor at 2.
    destruct (index m + length (m0 m) =? length s) eqn:Hend.
    + destruct (List.filter _ (execAll _ _ _ _)) eqn:F; simpl; [reflexivity|].
      rewrite last_cons. destruct (last l); reflexivity.
    + reflexivity.
  - injection H as <-. reflexivity.
Qed.

(** Every match the loop goes through is a match of the pattern in the
    window. *)
Lemma execAll_ok re s fuel : forall li m,
  m ∈ execAll re s fuel li -> exec_ok re s li m.
Proof.
  induction fuel as [|fuel IH]; intros li m H; simpl in H.
  - by apply elem_of_nil in H.
  - destruct (exec re s li) as [m'|] eqn:E; [|by apply elem_of_nil in H].
    apply exec_ok_intro in E. apply elem_of_cons in H as [->|H]; [exact E|].
    apply IH in H. pose proof (nextIndex_gt _ _ _ _ E).
    destruct H; split; auto; lia.
Qed.

(** The window of [makeContext]. *)
Lemma window_length text cursorOffset limit :
  let to := clamp cursorOffset (length text) in
  length (slice text (to - limit) to) = to - (to - limit).
Proof.
  intros to. apply slice_length; [lia | apply clamp_le].
Qed.

Lemma matchBefore_unfold re text cursorOffset explicit limit :
  let to := clamp cursorOffset (length text) in
  let windowFrom := to - limit in
  let windowText := slice text windowFrom to in
  matchBefore (makeContext text cursorOffset explicit limit) re =
    spanOf windowFrom <$>
      last (List.filter (endsAtCursor windowText)
                        (execAll re windowText (matchFuel windowText) 0)).
Proof.
  intros to windowFrom windowText. simpl.
  fold to. fold windowFrom. fold windowText.
  destruct (matchLoop_total re windowText (matchFuel windowText) 0 None) as [b Hb];
    [unfold matchFuel; lia | unfold matchFuel; lia |].
  rewrite Hb. apply matchLoop_spec in Hb. subst b.
  destruct (last _); reflexivity.
Qed.

(** What a span returned by [matchBefore] is: a match of the pattern that
    lies in the window and ends at the clamped cursor. *)
Lemma matchBefore_span re text cursorOffset explicit limit w :
  matchBefore (makeContext text cursorOffset explicit limit) re = Some w ->
  let to := clamp cursorOffset (length text) in
  m_to w = to /\ to - limit <= m_from w /\ m_from w <= m_to w /\
  m_text w = slice text (m_from w) (m_to w) /\
  matches (slice text (to - limit) to) re (m_from w - (to - limit)) (to - (to - limit)).
Proof.
  intros H to. rewrite matchBefore_unfold in H. fold to in H.
  set (windowFrom := to - limit) in *.
  set (windowText := slice text windowFrom to) in *.
  destruct (last _) as [m|] eqn:L; [|discriminate].
  injection H as <-.
  apply last_Some_elem_of in L.
  apply list_elem_of_In, filter_In in L as [Hin Hend].
  apply list_elem_of_In, execAll_ok in Hin. destruct Hin as [_ He Ht _ Hm].
  apply Nat.eqb_eq in Hend.
  assert (Hw : length windowText = to - windowFrom) by apply window_length.
  assert (to <= length text) by apply clamp_le.
  assert (windowFrom <= to) by (unfold windowFrom; lia).
  unfold spanOf; simpl. repeat split; try lia.
  - etransitivity; [exact Ht|]. unfold windowText.
    rewrite slice_slice; try lia. f_equal; lia.
  - replace (windowFrom + index m - windowFrom) with (index m) by lia.
    rewrite <- Hw, <- Hend. exact Hm.
Qed.

(** C1. The rightmost-match engine: [matchBefore] finishes, and returns
    the last, in the order of its loop, of the matches of the pattern in
    the window that end where the window ends; there is none, and the
    result is null, when no match ends there.  A span it returns ends at
    the clamped cursor offset, and its text is the text between its two
    offsets. *)
Theorem matchBefore_rightmost (re : regex) (text : jsstring) (cursorOffset : Z)
    (explicit : bool) (lookbehindLimit : nat) :
  let to := clamp cursorOffset (length text) in
  let windowFrom := to - lookbehindLimit in
  let windowText := slice text windowFrom to in
  let ending :=
    List.filter (endsAtCursor windowText)
                (execAll re windowText (matchFuel windowText) 0) in
  let result := matchBefore (makeContext text cursorOffset explicit lookbehindLimit) re in
  (exists best, matchLoop re windowText (matchFuel windowText) 0 None = Some best) /\
  result = spanOf windowFrom <$> last ending /\
  (ending = [] -> result = None) /\
  (forall w, result = Some w ->
     m_to w = to /\ m_from w <= m_to w /\
     m_text w = slice text (m_from w) (m_to w)).
Proof.
  intros to windowFrom windowText ending result.
  split; [apply matchLoop_total; unfold matchFuel; lia|].
  assert (E : result = spanOf windowFrom <$> last ending)
    by apply matchBefore_unfold.
  split; [exact E|]. split.
  - intros Hnil. rewrite E, Hnil. reflexivity.
  - intros w Hw. apply matchBefore_span in Hw. tauto.
Qed.

(** ** The scan of [isInsideString] *)

Arguments scanStep : simpl never.

Lemma scan_S text i ch :
  text !! i = Some ch ->
  scan text (Z.of_nat (S i)) = scanStep (scan text (Z.of_nat i)) ch.
Proof.
  intros H. pose proof (lookup_lt_Some _ _ _ H) as Hi.
  unfold scan. rewrite !clamp_of_nat by lia.
  rewrite (take_S_r _ _ _ H), fold_left_app. reflexivity.
Qed.

Lemma scanStep_escaped st ch :
  snd (scanStep st ch) = if snd st then false else ceq ch bslash.
Proof.
  destruct st as [q e]. unfold scanStep. simpl.
  destruct e; [reflexivity|].
  destruct (ceq ch bslash) eqn:B; [reflexivity|].
  destruct (isQuote ch); [destruct q as [q|]; [destruct (ceq q ch)|]|]; simpl;
    try reflexivity;
    destruct (ceq ch newline && _); reflexivity.
Qed.

Lemma isEscaped_S text i ch :
  text !! i = Some ch ->
  isEscaped text (S i) = if ceq ch bslash then negb (isEscaped text i) else false.
Proof.
  intros H. unfold isEscaped. simpl. rewrite H.
  destruct (ceq ch bslash); [|reflexivity].
  rewrite Nat.odd_succ, <- Nat.negb_odd. reflexivity.
Qed.

(** The flag [escaped] of the scan says that the backslashes just before
    the position are odd in number, which is [isEscaped] of [server.ts]. *)
Lemma scan_escaped text : forall i,
  i <= length text -> snd (scan text (Z.of_nat i)) = isEscaped text i.
Proof.
  induction i as [|i IH]; intros Hi.
  { unfold scan. rewrite clamp_of_nat by lia. reflexivity. }
  destruct (lookup_lt_is_Some_2 text i) as [ch Hch]; [lia|].
  rewrite (scan_S _ _ _ Hch), scanStep_escaped, IH by lia.
  rewrite (isEscaped_S _ _ _ Hch).
  destruct (isEscaped text i), (ceq ch bslash); reflexivity.
Qed.

Lemma scanStep_unescaped q ch :
  inside (scanStep (q, false) ch) =
    xorb (inside (q, false)) (quoteToggles q ch || newlineCloses q ch).
Proof.
  unfold scanStep, quoteToggles, newlineCloses, inside.
  destruct (ceq ch bslash) eqn:B.
  { apply ceq_eq in B. subst ch. destruct q as [q|]; simpl; reflexivity. }
  destruct (isQuote ch) eqn:Q.
  - assert (N : ceq ch newline = false).
    { destruct (ceq ch newline) eqn:N; [|reflexivity].
      apply ceq_eq in N. subst ch. discriminate. }
    rewrite N. destruct q as [q|]; simpl; [|reflexivity].
    destruct (ceq q ch); simpl; reflexivity.
  - simpl. destruct (ceq ch newline); simpl; [|destruct q; reflexivity].
    destruct q as [q|]; simpl; [|reflexivity]. destruct (isQuote12 q); reflexivity.
Qed.

Lemma scanStep_escaped_keeps q ch : fst (scanStep (q, true) ch) = q.
Proof. reflexivity. Qed.

(** The kind of quote after an unescaped character. *)
Lemma scanStep_kind q ch :
  fst (scanStep (q, false) ch) =
    if quoteToggles q ch then (match q with None => Some ch | Some _ => None end)
    else if newlineCloses q ch then None
    else q.
Proof.
  unfold scanStep, quoteToggles, newlineCloses.
  destruct (ceq ch bslash) eqn:B.
  { apply ceq_eq in B. subst ch. destruct q as [q|]; simpl; [|reflexivity].
    destruct (ceq q bslash); reflexivity. }
  destruct (isQuote ch) eqn:Q; simpl.
  - destruct q as [q|]; simpl; [|reflexivity].
    destruct (ceq q ch); simpl; [reflexivity|].
    destruct (ceq ch newline) eqn:N; [|reflexivity].
    apply ceq_eq in N. subst ch. discriminate.
  - destruct (ceq ch newline); simpl; [|reflexivity].
    destruct q as [q|]; [|reflexivity]. destruct (isQuote12 q); reflexivity.
Qed.

Lemma isInsideString_inside text cursorOffset :
  isInsideString text cursorOffset = inside (scan text cursorOffset).
Proof. reflexivity. Qed.

(** The quote recorded as open is one of the three quote characters. *)
Lemma scan_quote text : forall i q,
  i <= length text -> fst (scan text (Z.of_nat i)) = Some q -> isQuote q = true.
Proof.
  induction i as [|i IH]; intros q Hi H.
  { unfold scan in H. rewrite clamp_of_nat in H by lia. discriminate. }
  destruct (lookup_lt_is_Some_2 text i) as [ch Hch]; [lia|].
  rewrite (scan_S _ _ _ Hch) in H.
  destruct (scan text (Z.of_nat i)) as [q0 e] eqn:E.
  assert (IH' : forall q', q0 = Some q' -> isQuote q' = true)
    by (intros q' Hq'; apply IH; [lia | exact Hq']).
  clear IH. rename IH' into IH.
  destruct e; [rewrite scanStep_escaped_keeps in H; auto|].
  rewrite scanStep_kind in H.
  destruct (quoteToggles q0 ch) eqn:T.
  - destruct q0; [discriminate|]. injection H as <-.
    unfold quoteToggles in T. apply andb_prop in T. tauto.
  - destruct (newlineCloses q0 ch); [discriminate|]. auto.
Qed.

(** C6. [isInsideString] is false at offset 0.  At a character [ch] of the
    text, the flag [escaped] of the scan is [isEscaped]: an odd number of
    backslashes just before; the quote recorded as open is a quote
    character, and the result at the character is true exactly when one is
    recorded; the result one character further differs from the
    result here exactly when [ch] is unescaped and is either a quote
    character met while no string is open or the quote character of the
    open string ([quoteToggles]), or a line feed met while a single- or
    double-quoted string is open ([newlineCloses]).  The quote recorded one
    character further is pinned case by case.  An escaped character leaves
    it as it is.  An unescaped quote character met while no string is open
    is recorded as the open quote, so the string has the kind of the quote
    that opens it; the quote character of the open string closes it; an
    unescaped quote of another kind than the open one leaves the open kind
    as it is.  An unescaped line feed gives false in a single- or
    double-quoted string, leaves a backtick string open, and leaves no
    string open where none was.  Any other unescaped character leaves the
    recorded quote as it is. *)
Theorem isInsideString_toggles (text : jsstring) (i : nat) (ch : ascii) :
  text !! i = Some ch ->
  let inQuote := fst (scan text (Z.of_nat i)) in
  let unescaped := negb (isEscaped text i) in
  let next := fst (scan text (Z.of_nat (S i))) in
  isInsideString text 0 = false /\
  snd (scan text (Z.of_nat i)) = isEscaped text i /\
  (forall q, inQuote = Some q -> isQuote q = true) /\
  isInsideString text (Z.of_nat (S i)) =
    xorb (isInsideString text (Z.of_nat i))
         (unescaped && (quoteToggles inQuote ch || newlineCloses inQuote ch)) /\
  (forall q, unescaped = true -> isQuote ch = true -> inQuote = Some q -> q <> ch ->
     next = Some q) /\
  (forall q, unescaped = true -> ch = newline -> inQuote = Some q -> isQuote12 q = true ->
     isInsideString text (Z.of_nat (S i)) = false) /\
  (unescaped = true -> ch = newline -> inQuote = Some btick -> next = Some btick) /\
  (isInsideString text (Z.of_nat i) = true <-> exists q, inQuote = Some q) /\
  (unescaped = false -> next = inQuote) /\
  (unescaped = true -> isQuote ch = true -> inQuote = None -> next = Some ch) /\
  (unescaped = true -> inQuote = Some ch -> next = None) /\
  (unescaped = true -> isQuote ch = false -> ch <> newline -> next = inQuote) /\
  (unescaped = true -> ch = newline -> inQuote = None -> next = None).
Proof.
  intros Hch inQuote unescaped next.
  pose proof (lookup_lt_Some _ _ _ Hch) as Hi.
  assert (Hesc : snd (scan text (Z.of_nat i)) = isEscaped text i)
    by (apply scan_escaped; lia).
  assert (Hq : forall q, inQuote = Some q -> isQuote q = true).
  { intros q Hq. eapply scan_quote; [|exact Hq]. lia. }
  split; [|split; [exact Hesc|split; [exact Hq|]]].
  { unfold isInsideString, scan. rewrite (clamp_of_nat 0) by lia. reflexivity. }
  rewrite !isInsideString_inside. subst next. rewrite (scan_S _ _ _ Hch).
  subst unescaped. revert Hq. subst inQuote.
  destruct (scan text (Z.of_nat i)) as [q0 e] eqn:E. simpl in Hesc. simpl.
  rewrite <- Hesc. clear Hesc E. intros Hq.
  assert (Hin : inside (q0, e) = true <-> exists q, q0 = Some q).
  { unfold inside. simpl. destruct q0 as [q|].
    - split; [eauto|reflexivity].
    - split; [discriminate|]. intros [q Hq']. discriminate. }
  destruct e; simpl.
  { split; [unfold inside; simpl; destruct q0; reflexivity|].
    repeat match goal with |- _ /\ _ => split end;
      first [exact Hin | intros; first [discriminate | reflexivity]]. }
  split; [apply scanStep_unescaped|].
  unfold inside. cbn [fst]. rewrite !scanStep_kind. unfold quoteToggles, newlineCloses.
  repeat match goal with |- _ /\ _ => split end; try exact Hin.
  - intros q _ Hc -> Hne. rewrite Hc. simpl.
    destruct (ceq q ch) eqn:C; [apply ceq_eq in C; contradiction|].
    destruct (ceq ch newline) eqn:N; [|reflexivity].
    apply ceq_eq in N. subst ch. discriminate.
  - intros q _ -> -> Hq'. simpl. rewrite Hq'. reflexivity.
  - intros _ -> ->. reflexivity.
  - discriminate.
  - intros _ Hc ->. rewrite Hc. reflexivity.
  - intros _ ->. rewrite (Hq ch eq_refl), ceq_refl. reflexivity.
  - intros _ Hc Hn. rewrite Hc. simpl.
    destruct (ceq ch newline) eqn:N; [apply ceq_eq in N; contradiction|]. reflexivity.
  - intros _ -> ->. reflexivity.
Qed.

Lemma isInsideString_toggles_witness :
  openSingle !! 2 = Some newline /\
  isInsideString openSingle 2 = true /\
  isInsideString openSingle 3 = false /\
  isInsideString openBlock 3 = true /\
  fst (scan closedDouble 1) = Some dquote /\
  isInsideString closedDouble 3 = false.
Proof.
  split; [reflexivity|]. split; [reflexivity|].
  split.
  { destruct (isInsideString_toggles openSingle 2 newline eq_refl)
      as (_ & _ & _ & _ & _ & H & _).
    apply (H squote); reflexivity. }
  split.
  { destruct (isInsideString_toggles openBlock 2 newline eq_refl)
      as (_ & _ & _ & _ & _ & _ & H & _).
    unfold isInsideString. change (3%Z) with (Z.of_nat 3). rewrite H; reflexivity. }
  split.
  { destruct (isInsideString_toggles closedDouble 0 dquote eq_refl)
      as (_ & _ & _ & _ & _ & _ & _ & _ & _ & H & _).
    apply H; reflexivity. }
  destruct (isInsideString_toggles closedDouble 2 dquote eq_refl)
    as (_ & _ & _ & _ & _ & _ & _ & _ & _ & _ & H & _).
  unfold isInsideString. change (3%Z) with (Z.of_nat 3). rewrite H; reflexivity.
Defined.

(** ** The quote rewriter *)

Lemma includesChar_app s t c : includesChar (s ++ t) c = includesChar s c || includesChar t c.
Proof. unfold includesChar. apply existsb_app. Qed.

Lemma replaceAll2_cons2 c1 c2 rep x y s :
  replaceAll2 c1 c2 rep (x :: y :: s) =
    if ceq x c1 && ceq y c2 then rep ++ replaceAll2 c1 c2 rep s
    else [x] ++ replaceAll2 c1 c2 rep (y :: s).
Proof. reflexivity. Qed.

Lemma replaceAll1_app c rep a b :
  replaceAll1 c rep (a ++ b) = replaceAll1 c rep a ++ replaceAll1 c rep b.
Proof. unfold replaceAll1. rewrite !flat_map_concat_map, map_app, concat_app. reflexivity. Qed.

(** [replaceAll2] works on the two parts of a text apart, unless the pair
    replaced lies across the cut. *)
Lemma replaceAll2_app c1 c2 rep (b : jsstring) : forall a : jsstring,
  (last a = Some c1 -> head b = Some c2 -> False) ->
  replaceAll2 c1 c2 rep (a ++ b) = replaceAll2 c1 c2 rep a ++ replaceAll2 c1 c2 rep b.
Proof.
  assert (G : forall a : jsstring,
            ((last a = Some c1 -> head b = Some c2 -> False) ->
             replaceAll2 c1 c2 rep (a ++ b) =
               replaceAll2 c1 c2 rep a ++ replaceAll2 c1 c2 rep b) /\
            forall x, (last (x :: a) = Some c1 -> head b = Some c2 -> False) ->
              replaceAll2 c1 c2 rep ((x :: a) ++ b) =
                replaceAll2 c1 c2 rep (x :: a) ++ replaceAll2 c1 c2 rep b).
  { induction a as [|y a [IH1 IH2]].
    - split; [reflexivity|]. intros x H. destruct b as [|y b]; [reflexivity|].
      cbn [app]. rewrite replaceAll2_cons2.
      destruct (ceq x c1 && ceq y c2) eqn:X; [|reflexivity].
      apply andb_prop in X as [X1 X2]. apply ceq_eq in X1, X2. subst x y.
      exfalso. apply H; reflexivity.
    - split; [apply IH2|]. intros x H.
      cbn [app]. rewrite !replaceAll2_cons2.
      destruct (ceq x c1 && ceq y c2).
      + rewrite IH1; [rewrite app_assoc; reflexivity|].
        intros L. apply H. rewrite !last_cons, L. reflexivity.
      + change (y :: a ++ b) with ((y :: a) ++ b). rewrite IH2; [reflexivity|].
        intros L. apply H. rewrite last_cons, L. reflexivity. }
  intros a. apply G.
Qed.

(** Replacing a pair by its second character keeps the last character. *)
Lemma last_replaceAll2 c1 c2 : forall s : jsstring,
  last (replaceAll2 c1 c2 [c2] s) = last s.
Proof.
  assert (G : forall s : jsstring,
            last (replaceAll2 c1 c2 [c2] s) = last s /\
            forall x, last (replaceAll2 c1 c2 [c2] (x :: s)) = last (x :: s)).
  { induction s as [|y s [IH1 IH2]].
    - split; [reflexivity|]. intros x. reflexivity.
    - split; [apply IH2|]. intros x. rewrite replaceAll2_cons2.
      destruct (ceq x c1 && ceq y c2) eqn:X.
      + apply andb_prop in X as [_ X2]. apply ceq_eq in X2. subst y.
        cbn [app]. rewrite !last_cons, IH1. destruct (last s); reflexivity.
      + cbn [app]. rewrite last_cons, IH2, <- last_cons. reflexivity. }
  intros s. apply G.
Qed.

Lemma head_replaceAll2 c1 c2 z (s : jsstring) :
  z <> c2 -> head (replaceAll2 c1 c2 [c2] s) = Some z -> head s = Some z.
Proof.
  intros Hz. destruct s as [|x [|y s]]; [discriminate|exact id|].
  rewrite replaceAll2_cons2. destruct (ceq x c1 && ceq y c2); [|exact id].
  intros H. injection H as <-. contradiction.
Qed.

Lemma last_replaceAll1 c rep z (s : jsstring) :
  (exists r, last rep = Some r /\ r <> z) ->
  last (replaceAll1 c rep s) = Some z -> last s = Some z.
Proof.
  intros (r & Hr & Hz). destruct s as [|x s _] using rev_ind; [discriminate|].
  rewrite replaceAll1_app, last_snoc, last_app.
  unfold replaceAll1 at 1. cbn [flat_map]. rewrite app_nil_r.
  destruct (ceq x c).
  - rewrite Hr. intros H. injection H as ->. contradiction.
  - exact id.
Qed.

Lemma head_replaceAll1 c rep z (s : jsstring) :
  (exists r, head rep = Some r /\ r <> z) ->
  head (replaceAll1 c rep s) = Some z -> head s = Some z.
Proof.
  intros (r & Hr & Hz). destruct s as [|x s]; [discriminate|].
  unfold replaceAll1. cbn [flat_map]. destruct (ceq x c).
  - destruct rep as [|r' rep]; [discriminate|]. injection Hr as ->.
    intros H. injection H as ->. contradiction.
  - exact id.
Qed.

(** The rewriter works on the two parts of a content apart, unless an
    escaped source quote or an interpolation opener lies across the cut. *)
Lemma rewriteLiteralContent_app (a b : jsstring) (from to : QuoteChar) :
  (from <> to -> last a = Some bslash -> head b = Some (quoteChar from) -> False) ->
  (to = QBacktick -> last a = Some "$"%char -> head b = Some "{"%char -> False) ->
  rewriteLiteralContent (a ++ b) from to =
    between (rewriteLiteralContent a from to) [] (rewriteLiteralContent b from to).
Proof.
  intros H1 H2.
  set (U := fun s : jsstring =>
              if quote_eqb from to then s
              else replaceAll2 bslash (quoteChar from) [quoteChar from] s).
  set (E := fun s : jsstring =>
              replaceAll1 (quoteChar to) [bslash; quoteChar to]
                (replaceAll1 bslash [bslash; bslash] (U s))).
  assert (S : forall s, rewriteLiteralContent s from to =
                match to with
                | QBacktick =>
                    Some (replaceAll2 "$"%char "{"%char [bslash; "$"%char; "{"%char] (E s))
                | _ => if includesChar (E s) newline then None else Some (E s)
                end)
    by (intros s; destruct from, to; reflexivity).
  assert (EU : E (a ++ b) = E a ++ E b).
  { unfold E. rewrite <- !replaceAll1_app. do 2 f_equal. unfold U.
    destruct (quote_eqb from to) eqn:Q; [reflexivity|].
    apply replaceAll2_app. apply H1. intros ->. destruct to; discriminate. }
  assert (L : last (E a) = Some "$"%char -> last a = Some "$"%char).
  { unfold E. intros L.
    apply last_replaceAll1 in L;
      [|exists (quoteChar to); split; [reflexivity | destruct to; discriminate]].
    apply last_replaceAll1 in L; [|exists bslash; split; [reflexivity|discriminate]].
    unfold U in L. destruct (quote_eqb from to); [exact L|].
    rewrite last_replaceAll2 in L. exact L. }
  assert (F : head (E b) = Some "{"%char -> head b = Some "{"%char).
  { unfold E. intros F.
    apply head_replaceAll1 in F; [|exists bslash; split; [reflexivity|discriminate]].
    apply head_replaceAll1 in F; [|exists bslash; split; [reflexivity|discriminate]].
    unfold U in F. destruct (quote_eqb from to); [exact F|].
    apply head_replaceAll2 in F; [exact F | destruct from; discriminate]. }
  rewrite !S, EU. destruct to.
  - rewrite includesChar_app.
    destruct (includesChar (E a) newline), (includesChar (E b) newline); reflexivity.
  - rewrite includesChar_app.
    destruct (includesChar (E a) newline), (includesChar (E b) newline); reflexivity.
  - cbn [between app]. f_equal. apply replaceAll2_app.
    intros La Fb. apply H2; [reflexivity | apply L, La | apply F, Fb].
Qed.

(** The rewriter on a content cut around [unit], when no escaped source
    quote and no interpolation opener lies across a cut. *)
Lemma rewriteLiteralContent_unit (a unit b out : jsstring) (from to : QuoteChar) :
  rewriteLiteralContent unit from to = Some out ->
  (from <> to -> last a = Some bslash -> head (unit ++ b) = Some (quoteChar from) -> False) ->
  (to = QBacktick -> last a = Some "$"%char -> head (unit ++ b) = Some "{"%char -> False) ->
  (from <> to -> last unit = Some bslash -> head b = Some (quoteChar from) -> False) ->
  (to = QBacktick -> last unit = Some "$"%char -> head b = Some "{"%char -> False) ->
  rewriteLiteralContent (a ++ unit ++ b) from to =
    between (rewriteLiteralContent a from to) out (rewriteLiteralContent b from to).
Proof.
  intros Hu A1 A2 B1 B2.
  rewrite (rewriteLiteralContent_app a (unit ++ b)) by assumption.
  rewrite (rewriteLiteralContent_app unit b) by assumption.
  rewrite Hu. destruct (rewriteLiteralContent a from to), (rewriteLiteralContent b from to);
    cbn [between app]; rewrite ?app_nil_r; reflexivity.
Qed.

Lemma rewriteLiteralContent_plain (c : ascii) (from to : QuoteChar) :
  c <> bslash -> c <> quoteChar to -> (c = newline -> to = QBacktick) ->
  rewriteLiteralContent [c] from to = Some [c].
Proof.
  intros Hb Hq Hn.
  assert (B : ceq c bslash = false) by (apply ceq_neq; exact Hb).
  assert (Q : ceq c (quoteChar to) = false) by (apply ceq_neq; exact Hq).
  assert (E : replaceAll1 (quoteChar to) [bslash; quoteChar to]
                (replaceAll1 bslash [bslash; bslash] [c]) = [c]).
  { unfold replaceAll1. cbn [flat_map]. rewrite B. cbn [app flat_map]. rewrite Q. reflexivity. }
  assert (N : to <> QBacktick -> includesChar [c] newline = false).
  { intros Ht. unfold includesChar. cbn [existsb]. rewrite orb_false_r, ceq_sym.
    apply ceq_neq. intros ->. apply Ht, Hn. reflexivity. }
  destruct from, to; cbn [rewriteLiteralContent quote_eqb andb negb replaceAll2];
    cbn [quoteChar] in E; rewrite E; try reflexivity; rewrite N by discriminate; reflexivity.
Qed.

(** C7. Rewriting the content of the single-quoted literal [it\'s] for
    double quotes gives [it's], without a backslash, and the code action
    on that literal offers the double-quoted literal of that content; in
    the same conversion a double quote of the content gets a backslash and
    a backslash that escapes no quote is doubled.  In general, for every
    content cut in [a], a piece and [b], the rewriter gives what it gives
    for [a], the piece rewritten and what it gives for [b], and null when
    it gives null for [a] or for [b].  The pieces: an escaped source quote
    becomes the bare quote when the kind changes, whatever stands around
    it; any other backslash is doubled; the target quote gets a backslash;
    for a backtick target the interpolation opener gets a backslash; for
    the two other targets a line feed gives null; any other character
    stays as it is. *)
Theorem rewriteLiteralContent_unescapes_then_escapes :
  rewriteLiteralContent its_content QSingle QDouble = Some (str "it's") /\
  newText <$> quoteActions its_source (mkRange (mkPosition 0 4) (mkPosition 0 4)) =
    [[btick] ++ str "it's" ++ [btick]; [dquote] ++ str "it's" ++ [dquote]] /\
  rewriteLiteralContent mixed_content QSingle QDouble =
    Some (str "it's \" ++ [dquote] ++ str "x\" ++ [dquote]) /\
  rewriteLiteralContent path_content QSingle QDouble = Some (str "a\\b") /\
  forall (a b : jsstring) (from to : QuoteChar),
    let rewritten s := rewriteLiteralContent s from to in
    rewritten [] = Some [] /\
    (from <> to ->
     rewritten (a ++ [bslash; quoteChar from] ++ b) =
       between (rewritten a) [quoteChar from] (rewritten b)) /\
    (from = to \/ head b <> Some (quoteChar from) ->
     rewritten (a ++ [bslash] ++ b) = between (rewritten a) [bslash; bslash] (rewritten b)) /\
    rewritten (a ++ [quoteChar to] ++ b) =
      between (rewritten a) [bslash; quoteChar to] (rewritten b) /\
    (to = QBacktick ->
     rewritten (a ++ str "${" ++ b) = between (rewritten a) (str "\${") (rewritten b)) /\
    (to <> QBacktick -> rewritten (a ++ [newline] ++ b) = None) /\
    (forall c, c <> bslash -> c <> quoteChar to -> (c = newline -> to = QBacktick) ->
       (c = quoteChar from -> last a <> Some bslash) ->
       (to = QBacktick -> c = "$"%char -> head b <> Some "{"%char) ->
       (to = QBacktick -> c = "{"%char -> last a <> Some "$"%char) ->
       rewritten (a ++ [c] ++ b) = between (rewritten a) [c] (rewritten b)).
Proof.
  split; [reflexivity|]. split; [reflexivity|]. split; [reflexivity|].
  split; [reflexivity|].
  intros a b from to rewritten. subst rewritten. cbn beta.
  assert (Fb : quoteChar from <> bslash) by (destruct from; discriminate).
  assert (Fd : quoteChar from <> "$"%char) by (destruct from; discriminate).
  assert (Tb : quoteChar to <> bslash) by (destruct to; discriminate).
  assert (Td : quoteChar to <> "$"%char) by (destruct to; discriminate).
  assert (Tc : quoteChar to <> "{"%char) by (destruct to; discriminate).
  split; [destruct from, to; reflexivity|]. split; [|split; [|split; [|split; [|split]]]].
  - intros Hne. apply rewriteLiteralContent_unit.
    + destruct from, to; first [reflexivity | contradiction].
    + intros _ _ H. injection H as H. apply Fb. symmetry. exact H.
    + intros _ _ H. discriminate.
    + intros _ H _. injection H as H. apply Fb. exact H.
    + intros _ H _. injection H as H. apply Fd. exact H.
  - intros Hb. apply rewriteLiteralContent_unit.
    + destruct from, to; reflexivity.
    + intros _ _ H. injection H as H. apply Fb. symmetry. exact H.
    + intros _ _ H. discriminate.
    + intros Hne _ H. destruct Hb as [Hb|Hb]; contradiction.
    + intros _ H _. discriminate.
  - apply rewriteLiteralContent_unit.
    + destruct from, to; reflexivity.
    + intros Hne _ H. injection H as H. apply Hne.
      destruct from, to; first [reflexivity | discriminate].
    + intros _ _ H. injection H as H. apply Tc. exact H.
    + intros _ H _. injection H as H. apply Tb. exact H.
    + intros _ H _. injection H as H. apply Td. exact H.
  - intros ->. apply rewriteLiteralContent_unit.
    + destruct from; reflexivity.
    + intros _ _ H. injection H as H. apply Fd. symmetry. exact H.
    + intros _ _ H. discriminate.
    + intros _ H _. discriminate.
    + intros _ H _. discriminate.
  - intros Ht.
    assert (N : rewriteLiteralContent [newline] from to = None)
      by (destruct from, to; first [reflexivity | contradiction]).
    rewrite (rewriteLiteralContent_app a);
      [|intros _ _ H; destruct from; discriminate|contradiction].
    rewrite (rewriteLiteralContent_app [newline] b);
      [|intros _ H; discriminate|contradiction].
    rewrite N. destruct (rewriteLiteralContent a from to); reflexivity.
  - intros c Hb Hq Hn Hf Hd Hc. apply rewriteLiteralContent_unit.
    + apply rewriteLiteralContent_plain; assumption.
    + intros _ La H. injection H as H. apply (Hf H La).
    + intros Ht La H. injection H as H. apply (Hc Ht H La).
    + intros _ H _. injection H as H. apply Hb. exact H.
    + intros Ht H Fbh. injection H as H. apply (Hd Ht H Fbh).
Qed.

Lemma rewriteLiteralContent_unescapes_then_escapes_witness :
  QSingle <> QDouble /\
  rewriteLiteralContent (str "it" ++ [bslash; quoteChar QSingle] ++ str "s") QSingle QDouble =
    between (rewriteLiteralContent (str "it") QSingle QDouble) [quoteChar QSingle]
            (rewriteLiteralContent (str "s") QSingle QDouble).
Proof.
  split; [discriminate|].
  destruct rewriteLiteralContent_unescapes_then_escapes as (_ & _ & _ & _ & G).
  destruct (G (str "it") (str "s") QSingle QDouble) as (_ & U & _).
  apply U. discriminate.
Defined.

(** ** The sample index *)

(** C9 as stated fails: an object that carries no [soundNames] array is
    not ignored, it empties the sample index. *)
Lemma onSamples_object_counterexample :
  notAnObject (Some (JObj [])) = false /\
  soundNamesField (Some (JObj [])) = None /\
  onSamples (Some (JObj [])) (mkSampleIndex [str "bd"; str "bd_808"] [str "bd"])
    <> mkSampleIndex [str "bd"; str "bd_808"] [str "bd"].
Proof. repeat split; discriminate. Qed.

(** C9, amended. A payload that is not an object (undefined, null, a
    boolean, a number or a string) leaves the sample index as it is.  An
    object or an array that has no array under [soundNames] replaces it by
    the empty index.  An object with an array under [soundNames] replaces
    it by the sorted non-empty strings of the array, with the banks derived
    from them.  The handler is total: it has a result on every payload. *)
Theorem onSamples_malformed (payload : option json) (sampleIndex : SampleIndex) :
  (notAnObject payload = true -> onSamples payload sampleIndex = sampleIndex) /\
  (notAnObject payload = false ->
   (forall items, soundNamesField payload <> Some (JArr items)) ->
   onSamples payload sampleIndex = mkSampleIndex [] []) /\
  (forall items, notAnObject payload = false ->
   soundNamesField payload = Some (JArr items) ->
   onSamples payload sampleIndex =
     mkSampleIndex (sort (nonEmptyStrings items))
                   (deriveBanksFromSounds (sort (nonEmptyStrings items)))).
Proof.
  unfold onSamples. repeat split.
  - intros ->. reflexivity.
  - intros -> H. destruct (soundNamesField payload) as [[]|]; try reflexivity.
    exfalso. eapply H. reflexivity.
  - intros items -> ->. reflexivity.
Qed.

Lemma onSamples_malformed_witness :
  notAnObject (Some (JStr (str "bd"))) = true /\
  onSamples (Some (JStr (str "bd"))) (mkSampleIndex [str "cp"] []) =
    mkSampleIndex [str "cp"] [] /\
  onSamples (Some (JArr [JStr (str "bd")])) (mkSampleIndex [str "cp"] []) =
    mkSampleIndex [] [] /\
  onSamples (Some (JObj [(str "soundNames", JArr [JStr (str "bd_2"); JNum 1; JStr (str "bd")])]))
            (mkSampleIndex [str "cp"] []) =
    mkSampleIndex [str "bd"; str "bd_2"] [str "bd"].
Proof.
  split; [reflexivity|].
  split; [apply (onSamples_malformed (Some (JStr (str "bd")))); reflexivity|].
  split.
  - apply (onSamples_malformed (Some (JArr [JStr (str "bd")]))); [reflexivity|].
    intros items; discriminate.
  - exact (proj2 (proj2 (onSamples_malformed
             (Some (JObj [(str "soundNames",
                           JArr [JStr (str "bd_2"); JNum 1; JStr (str "bd")])]))
             (mkSampleIndex [str "cp"] [])))
           [JStr (str "bd_2"); JNum 1; JStr (str "bd")] eq_refl eq_refl).
Defined.

(** ** Diagnostics *)

Section DiagnosticsFacts.
Variable parse : jsstring -> option Thrown.

Lemma version_eqb_false known v : known <> Some v -> version_eqb known v = false.
Proof.
  intros H. destruct known as [k|]; [|reflexivity]. simpl.
  apply Z.eqb_neq. intros ->. apply H. reflexivity.
Qed.

(** A validation changes at most the diagnostics sent. *)
Lemma validateDocument_frame (doc : TextDocument) (st : ServerState) :
  documents (validateDocument parse doc st) = documents st /\
  lastKnownVersionByUri (validateDocument parse doc st) = lastKnownVersionByUri st /\
  debounceTimersByUri (validateDocument parse doc st) = debounceTimersByUri st /\
  timers (validateDocument parse doc st) = timers st.
Proof.
  unfold validateDocument.
  destruct (parse (getText doc)) as [e|];
    destruct (negb (version_eqb (lastKnownVersionByUri st !! uri doc) (version doc)));
    try destruct (syntaxDiagnosticsFromError e); repeat split; reflexivity.
Qed.

(** The timers armed were handed out before: their numbers are below the
    counter, which never goes down. *)
Lemma step_issued (st : ServerState) (ev : Event) :
  (forall u t, debounceTimersByUri st !! u = Some t -> t < timers st) ->
  timers st <= timers (step parse st ev) /\
  (forall u t, debounceTimersByUri (step parse st ev) !! u = Some t ->
     t < timers (step parse st ev)).
Proof.
  intros I. destruct ev as [d|d|d|u0 t0].
  - cbn [step]. unfold onDidOpen.
    destruct (validateDocument_frame d (storeDocument d st)) as (_ & _ & -> & ->).
    cbn [storeDocument debounceTimersByUri timers]. split; [lia|exact I].
  - cbn [step]. unfold onDidChangeContent, scheduleValidation, storeDocument.
    cbn [documents lastKnownVersionByUri debounceTimersByUri timers sent].
    split; [lia|]. intros u t H.
    destruct (decide (uri d = u)) as [<-|N].
    + rewrite lookup_insert_eq in H. injection H as <-. lia.
    + rewrite lookup_insert_ne in H by exact N. apply I in H. lia.
  - cbn [step]. unfold onDidClose, dropDocument, sendDiagnostics.
    cbn [documents lastKnownVersionByUri debounceTimersByUri timers sent].
    split; [lia|]. intros u t H. apply lookup_delete_Some in H as [_ H]. eauto.
  - cbn [step]. destruct (debounceTimersByUri st !! u0) as [t'|]; [|split; [lia|exact I]].
    destruct (t' =? t0); [|split; [lia|exact I]].
    unfold timerCallback. cbn [documents].
    destruct (documents st !! u0) as [d|].
    + match goal with |- context [validateDocument parse d ?s] =>
        destruct (validateDocument_frame d s) as (_ & _ & -> & ->) end.
      cbn [debounceTimersByUri timers]. split; [lia|].
      intros u t H. apply lookup_delete_Some in H as [_ H]. eauto.
    + cbn [debounceTimersByUri timers]. split; [lia|].
      intros u t H. apply lookup_delete_Some in H as [_ H]. eauto.
Qed.

(** While timer [t] is the one armed for [u], the version last recorded
    for [u] is the one recorded when [t] was armed: every handler that
    changes the recorded version replaces or removes the timer. *)
Lemma step_armed (st : ServerState) (ev : Event) (u : string) (t : nat) (N : Z) :
  t < timers st ->
  (debounceTimersByUri st !! u = Some t -> lastKnownVersionByUri st !! u = Some N) ->
  debounceTimersByUri (step parse st ev) !! u = Some t ->
  lastKnownVersionByUri (step parse st ev) !! u = Some N.
Proof.
  intros Ht A. destruct ev as [d|d|d|u0 t0].
  - cbn [step]. unfold onDidOpen.
    destruct (validateDocument_frame d (storeDocument d st)) as (_ & -> & -> & _).
    exact A.
  - cbn [step]. unfold onDidChangeContent, scheduleValidation, storeDocument.
    cbn [documents lastKnownVersionByUri debounceTimersByUri timers sent].
    destruct (decide (uri d = u)) as [<-|Hne].
    + rewrite lookup_insert_eq. intros H. injection H as <-. lia.
    + rewrite !lookup_insert_ne by exact Hne. exact A.
  - cbn [step]. unfold onDidClose, dropDocument, sendDiagnostics.
    cbn [documents lastKnownVersionByUri debounceTimersByUri timers sent].
    intros H. apply lookup_delete_Some in H as [Hne H].
    rewrite lookup_delete_ne by exact Hne. auto.
  - cbn [step]. destruct (debounceTimersByUri st !! u0) as [t'|]; [|exact A].
    destruct (t' =? t0); [|exact A].
    unfold timerCallback. cbn [documents].
    destruct (documents st !! u0) as [d|].
    + match goal with |- context [validateDocument parse d ?s] =>
        destruct (validateDocument_frame d s) as (_ & -> & -> & _) end.
      cbn [debounceTimersByUri lastKnownVersionByUri].
      intros H. apply lookup_delete_Some in H as [_ H]. auto.
    + cbn [debounceTimersByUri lastKnownVersionByUri].
      intros H. apply lookup_delete_Some in H as [_ H]. auto.
Qed.

Lemma run_issued (evs : list Event) : forall st : ServerState,
  (forall u t, debounceTimersByUri st !! u = Some t -> t < timers st) ->
  timers st <= timers (runEvents parse st evs) /\
  (forall u t, debounceTimersByUri (runEvents parse st evs) !! u = Some t ->
     t < timers (runEvents parse st evs)).
Proof.
  induction evs as [|ev evs IH]; intros st I; [split; [apply Nat.le_refl|exact I]|].
  destruct (step_issued st ev I) as [L I'].
  destruct (IH _ I') as [L' I''].
  change (runEvents parse st (ev :: evs)) with (runEvents parse (step parse st ev) evs).
  split; [lia|exact I''].
Qed.

Lemma run_armed (u : string) (t : nat) (N : Z) (evs : list Event) :
  forall st : ServerState,
  (forall u' t', debounceTimersByUri st !! u' = Some t' -> t' < timers st) ->
  t < timers st ->
  (debounceTimersByUri st !! u = Some t -> lastKnownVersionByUri st !! u = Some N) ->
  debounceTimersByUri (runEvents parse st evs) !! u = Some t ->
  lastKnownVersionByUri (runEvents parse st evs) !! u = Some N.
Proof.
  induction evs as [|ev evs IH]; intros st I Ht A; [exact A|].
  destruct (step_issued st ev I) as [L I'].
  change (runEvents parse st (ev :: evs)) with (runEvents parse (step parse st ev) evs).
  apply (IH (step parse st ev)).
  - exact I'.
  - lia.
  - apply step_armed; assumption.
Qed.

(** C8. The edit that brings a document to version [N] records [N] as
    the last known version of its URI and arms the timer of its
    validation.  Whatever happens to the server afterwards (edits, openings
    and closings of any document, timers that fire), once the last known
    version of the URI is no longer [N] the firing of that timer changes
    nothing: [sendDiagnostics] is called neither with an error nor with the
    empty set.  And a validation of a document whose version is not the
    last known one of its URI leaves the state as it is, whoever calls
    it. *)
Theorem stale_validation_sends_nothing (before after : list Event) (doc : TextDocument) :
  let st0 := runEvents parse initialState before in
  let st1 := step parse st0 (DidChangeContent doc) in
  let st2 := runEvents parse st1 after in
  let t := timers st0 in
  lastKnownVersionByUri st1 !! uri doc = Some (version doc) /\
  debounceTimersByUri st1 !! uri doc = Some t /\
  (lastKnownVersionByUri st2 !! uri doc <> Some (version doc) ->
   step parse st2 (TimerFired (uri doc) t) = st2) /\
  (forall st, lastKnownVersionByUri st !! uri doc <> Some (version doc) ->
   validateDocument parse doc st = st).
Proof.
  intros st0 st1 st2 t.
  assert (I0 : forall u t', debounceTimersByUri st0 !! u = Some t' -> t' < timers st0).
  { apply run_issued. intros u t' H. cbn in H. rewrite lookup_empty in H. discriminate. }
  assert (V : lastKnownVersionByUri st1 !! uri doc = Some (version doc)).
  { subst st1. cbn [step]. unfold onDidChangeContent, scheduleValidation, storeDocument.
    cbn [lastKnownVersionByUri]. apply lookup_insert_eq. }
  assert (T : debounceTimersByUri st1 !! uri doc = Some t).
  { subst st1. cbn [step]. unfold onDidChangeContent, scheduleValidation, storeDocument.
    cbn [debounceTimersByUri timers]. apply lookup_insert_eq. }
  split; [exact V|]. split; [exact T|]. split.
  - intros Hstale.
    assert (A : debounceTimersByUri st2 !! uri doc <> Some t).
    { intros H. apply Hstale. subst st2.
      refine (run_armed (uri doc) t (version doc) after st1 _ _ (fun _ => V) H).
      - apply (step_issued st0 _ I0).
      - subst st1 t. cbn [step]. unfold onDidChangeContent, scheduleValidation, storeDocument.
        cbn [timers]. lia. }
    cbn [step]. destruct (debounceTimersByUri st2 !! uri doc) as [t'|]; [|reflexivity].
    destruct (t' =? t) eqn:E; [|reflexivity].
    apply Nat.eqb_eq in E. subst t'. contradiction.
  - intros st H. apply version_eqb_false in H. unfold validateDocument. rewrite H.
    cbn [negb]. destruct (parse (getText doc)); reflexivity.
Qed.
End DiagnosticsFacts.

Lemma stale_validation_sends_nothing_witness :
  let st2 := runEvents (fun _ => Some ThrownValue) initialState
               [DidChangeContent staleDoc; DidChangeContent editedDoc] in
  lastKnownVersionByUri st2 !! uri staleDoc <> Some (version staleDoc) /\
  step (fun _ => Some ThrownValue) st2 (TimerFired (uri staleDoc) 0) = st2.
Proof.
  intros st2.
  assert (H : lastKnownVersionByUri st2 !! uri staleDoc <> Some (version staleDoc))
    by (vm_compute; discriminate).
  split; [exact H|].
  exact (proj1 (proj2 (proj2 (stale_validation_sends_nothing (fun _ => Some ThrownValue)
                                [] [DidChangeContent editedDoc] staleDoc))) H).
Defined.

(** Two edits in a row: the timer of the first is replaced, so its firing
    does nothing, and the timer of the second validates the second
    version. *)
Example debounce_two_edits :
  let u := "file:///a.str"%string in
  let v1 := mkDocument u 1 (str "s(") in
  let v2 := mkDocument u 2 (str "s()") in
  let parse := fun text : jsstring => if seq_eqb text (str "s()") then None else Some ThrownValue in
  let st := runEvents parse initialState [DidChangeContent v1; DidChangeContent v2] in
  sent (step parse st (TimerFired u 0)) = [] /\
  sent (step parse st (TimerFired u 1)) = [(u, [])].
Proof. split; reflexivity. Qed.

(** ** Offsets and positions *)

(** C5 at a text with a carriage return before the line feed:
    [offsetToPosition] takes the two characters as one line break, and
    [positionToOffset] counts one character for it, so the offsets 3 and 4,
    after the line break, come back as 2 and 3.  The offsets before it come
    back as they are. *)
Theorem offset_roundtrip_crlf :
  length crlfText = 4 /\
  split crlfText LINE_BREAK_REGEX = [str "a"; str "b"] /\
  offsetToPosition crlfText 3 = mkPosition 1 0 /\
  positionToOffset crlfText (offsetToPosition crlfText 3) = 2 /\
  positionToOffset crlfText (offsetToPosition crlfText 4) = 3 /\
  (forall o, o <= 2 -> positionToOffset crlfText (offsetToPosition crlfText (Z.of_nat o)) = o).
Proof.
  repeat split; try reflexivity.
  intros o Ho. destruct o as [|[|[|o]]]; [reflexivity..|lia].
Qed.

(** ** Offsets and positions on a text without carriage returns *)

Lemma slice_S (s : jsstring) p q ch :
  p <= q -> s !! q = Some ch -> slice s p (S q) = slice s p q ++ [ch].
Proof.
  intros Hpq Hq. unfold slice. replace (S q - p) with (S (q - p)) by lia.
  apply take_S_r. rewrite lookup_drop. rewrite <- Hq. f_equal. lia.
Qed.

Lemma slice_nil (s : jsstring) p : slice s p p = [].
Proof. unfold slice. rewrite Nat.sub_diag. reflexivity. Qed.

Section NoCarriageReturn.
Variable s : jsstring.
Hypothesis Hcr : creturn ∉ s.

Lemma matchAt_line_break q :
  matchAt LINE_BREAK_REGEX s q =
    match s !! q with
    | Some ch => if ceq newline ch then Some (mkExec q (slice s q (S q)) [] s) else None
    | None => None
    end.
Proof.
  unfold matchAt, LINE_BREAK_REGEX, Opt, Lit1. cbn [Re.run].
  destruct (s !! q) as [ch|] eqn:E; [|reflexivity].
  assert (ceq creturn ch = false) as ->.
  { apply ceq_neq. intros <-. apply Hcr. eapply list_elem_of_lookup_2. exact E. }
  reflexivity.
Qed.

Lemma splitLoop_lines fuel : forall p q acc,
  p <= q -> q <= length s -> length s - q <= fuel ->
  splitLoop LINE_BREAK_REGEX s fuel p q acc =
    rev acc ++ splitOn newline (drop q s) (rev (slice s p q)).
Proof.
  assert (Hend : forall p q acc, p <= q -> q = length s ->
            rev (slice s p (length s) :: acc) =
            rev acc ++ splitOn newline (drop q s) (rev (slice s p q))).
  { intros p q acc Hp ->. rewrite drop_all. simpl. rewrite rev_involutive. reflexivity. }
  induction fuel as [|fuel IH]; intros p q acc Hp Hq Hf; simpl.
  - apply Hend; lia.
  - destruct (length s <=? q) eqn:L.
    + apply Nat.leb_le in L. apply Hend; lia.
    + apply Nat.leb_gt in L.
      destruct (lookup_lt_is_Some_2 s q L) as [ch Hch].
      rewrite matchAt_line_break, Hch.
      rewrite (drop_S _ _ _ Hch). cbn [splitOn]. rewrite (ceq_sym ch newline).
      destruct (ceq newline ch) eqn:N.
      * cbn [m0]. rewrite slice_length by lia.
        replace (q + (S q - q)) with (S q) by lia.
        replace (S q `min` length s) with (S q) by lia.
        replace (S q =? p) with false by (symmetry; apply Nat.eqb_neq; lia).
        rewrite IH by lia. simpl. rewrite slice_nil, rev_involutive, <- app_assoc. reflexivity.
      * rewrite IH by lia. rewrite (slice_S _ _ _ _ Hp Hch), rev_app_distr. reflexivity.
Qed.

End NoCarriageReturn.

Lemma split_lines s : creturn ∉ s -> split s LINE_BREAK_REGEX = splitOn newline s [].
Proof.
  intros Hcr. unfold split. destruct s as [|x s'] eqn:E; [reflexivity|]. rewrite <- E in *.
  rewrite splitLoop_lines by (auto; lia). rewrite slice_nil. reflexivity.
Qed.

Lemma total_app l1 l2 : total (l1 ++ l2) = total l1 + total l2.
Proof. induction l1 as [|x l1 IH]; simpl; [reflexivity|]. rewrite IH. lia. Qed.

Lemma splitOn_total c s : forall cur, total (splitOn c s cur) = length s + length cur + 1.
Proof.
  induction s as [|x s IH]; intros cur; simpl.
  - rewrite length_rev. lia.
  - destruct (ceq x c); simpl; rewrite IH; simpl; rewrite ?length_rev; lia.
Qed.

Lemma splitOn_app c a : forall cur,
  exists init lst, splitOn c a cur = init ++ [lst] /\
    forall b, splitOn c (a ++ b) cur = init ++ splitOn c b (rev lst).
Proof.
  induction a as [|x a IH]; intros cur; simpl.
  - exists [], (rev cur). split; [reflexivity|]. intros b. rewrite rev_involutive. reflexivity.
  - destruct (ceq x c).
    + destruct (IH []) as (init & lst & E & H). exists (rev cur :: init), lst.
      rewrite E. split; [reflexivity|]. intros b. rewrite H. reflexivity.
    + destruct (IH (x :: cur)) as (init & lst & E & H). exists init, lst.
      split; [exact E | exact H].
Qed.

Lemma sumLines_app init : forall pre rest off,
  sumLines (pre ++ init ++ rest) (length pre) (length init) off = off + total init.
Proof.
  induction init as [|x init IH]; intros pre rest off; simpl; [lia|].
  rewrite lookup_app_r by lia. rewrite Nat.sub_diag. simpl.
  replace (pre ++ x :: init ++ rest) with ((pre ++ [x]) ++ init ++ rest)
    by (rewrite <- app_assoc; reflexivity).
  replace (S (length pre)) with (length (pre ++ [x])) by (rewrite length_app; simpl; lia).
  rewrite IH. lia.
Qed.

(** On a text without carriage returns the conversion of an offset to a
    position and back gives the offset. *)
Lemma offset_roundtrip_no_cr (text : jsstring) (o : nat) :
  creturn ∉ text -> o <= length text ->
  positionToOffset text (offsetToPosition text (Z.of_nat o)) = o.
Proof.
  intros Hcr Ho. unfold positionToOffset, offsetToPosition. cbn [line character].
  rewrite clamp_of_nat by exact Ho.
  assert (Hcr' : creturn ∉ take o text).
  { intros H. apply Hcr. rewrite <- (take_drop o text). apply elem_of_app. left. exact H. }
  rewrite (split_lines _ Hcr), (split_lines _ Hcr').
  destruct (splitOn_app newline (take o text) []) as (init & lst & E & H).
  specialize (H (drop o text)). rewrite take_drop in H. rewrite E, H.
  rewrite length_app. simpl. replace (length init + 1 - 1) with (length init) by lia.
  rewrite lookup_app_r by lia. rewrite Nat.sub_diag. simpl.
  pose proof (sumLines_app init [] (splitOn newline (drop o text) (rev lst)) 0) as S.
  simpl in S. rewrite S.
  pose proof (splitOn_total newline (take o text) []) as T.
  rewrite E, total_app, length_take in T. simpl in T. lia.
Qed.

(** ** The chord handler *)

(** C4 as stated fails: the root is recognized and [from] is the offset
    of [C], but no option has the label [C]. *)
Lemma chord_root_label_counterexample :
  exists r,
    complete chordVocabulary chordText 8 true (mkDocIndex []) None = Some r /\
    from r = 7%Z /\
    existsb (fun o => seq_eqb (label o) (str "C")) (options r) = false.
Proof. eexists. split; [vm_compute; reflexivity|]. split; reflexivity. Qed.

(** C4, amended. On that input the result starts at offset 7, the offset
    of [C], and its options are, in this order: the label [Cmajor], which
    inserts the root [C] alone, for the empty symbol; [Cm7]; and [Cmaj7].
    Each carries its inserted text as [apply] and as [filterText].  This
    holds whether or not the request was explicit, and whatever the
    documentation index and the sample sources. *)
Theorem chord_root_completions (explicit : bool) (docIndex : DocIndex)
    (sources : option DynamicSources) :
  map label chordVocabulary = [str "major"; str "m7"; str "maj7"] /\
  complete chordVocabulary chordText 8 explicit docIndex sources =
    Some (mkResult 7
      [ mkOption (str "Cmajor") (Some (str "chord-symbol")) (Some (str "C"))
                 (Some (str "C")) None None;
        mkOption (str "Cm7") (Some (str "chord-symbol")) (Some (str "Cm7"))
                 (Some (str "Cm7")) None None;
        mkOption (str "Cmaj7") (Some (str "chord-symbol")) (Some (str "Cmaj7"))
                 (Some (str "Cmaj7")) None None ]).
Proof.
  split; [reflexivity|].
  destruct explicit; vm_compute; reflexivity.
Qed.

(** ** Sorting and filtering *)

Lemma str_leb_total a : forall b, str_leb a b = false -> str_leb b a = true.
Proof.
  induction a as [|x a IH]; intros [|y b] H; simpl in *; try congruence.
  destruct (code x <? code y) eqn:E1; [discriminate|].
  destruct (code y <? code x) eqn:E2; [reflexivity|]. auto.
Qed.

Lemma str_leb_trans a : forall b c, str_leb a b = true -> str_leb b c = true -> str_leb a c = true.
Proof.
  induction a as [|x a IH]; intros [|y b] [|z c] H1 H2; simpl in *; try congruence.
  destruct (code x <? code y) eqn:E1, (code y <? code x) eqn:E2,
           (code y <? code z) eqn:E3, (code z <? code y) eqn:E4,
           (code x <? code z) eqn:E5, (code z <? code x) eqn:E6;
    try reflexivity; try discriminate;
    rewrite ?Nat.ltb_lt, ?Nat.ltb_ge in *; try lia.
  eapply IH; eauto.
Qed.

Lemma insertBy_perm {A} (le : A -> A -> bool) x l : insertBy le x l ≡ₚ x :: l.
Proof.
  induction l as [|y l IH]; simpl; [reflexivity|].
  destruct (le x y); [reflexivity|]. rewrite IH. apply Permutation_swap.
Qed.

Lemma sortBy_perm {A} (le : A -> A -> bool) l : sortBy le l ≡ₚ l.
Proof.
  induction l as [|x l IH]; simpl; [reflexivity|].
  rewrite insertBy_perm, IH. reflexivity.
Qed.

Lemma insert_sorted x l :
  StronglySorted str_le l -> StronglySorted str_le (insertBy str_leb x l).
Proof.
  induction 1 as [|y l Hs IH Hy]; simpl.
  - repeat constructor.
  - destruct (str_leb x y) eqn:E.
    + constructor; [constructor; assumption|].
      constructor; [exact E|].
      eapply Forall_impl; [exact Hy|]. intros z Hz. eapply str_leb_trans; eauto.
    + constructor; [exact IH|].
      rewrite insertBy_perm. constructor; [|exact Hy].
      apply str_leb_total. exact E.
Qed.

Lemma sort_sorted l : StronglySorted str_le (sort l).
Proof.
  induction l as [|x l IH]; simpl; [constructor|]. apply insert_sorted, IH.
Qed.

Lemma sort_elem x l : x ∈ sort l <-> x ∈ l.
Proof. unfold sort. rewrite sortBy_perm. reflexivity. Qed.

Lemma filter_sorted (P : jsstring -> bool) l :
  StronglySorted str_le l -> StronglySorted str_le (List.filter P l).
Proof.
  induction 1 as [|y l Hs IH Hy]; simpl; [constructor|].
  destruct (P y); [|exact IH].
  constructor; [exact IH|].
  apply Forall_forall. intros z Hz. apply list_elem_of_In, filter_In in Hz as [Hz _].
  rewrite Forall_forall in Hy. apply Hy, list_elem_of_In, Hz.
Qed.

(** [startsWith] and [includes] say what they should. *)
Lemma startsWith_spec s : forall p, startsWith s p = true <-> exists post, s = p ++ post.
Proof.
  induction s as [|x s IH]; intros [|y p]; simpl.
  - split; [exists []; reflexivity | reflexivity].
  - split; [discriminate | intros [post H]; discriminate].
  - split; [eexists; reflexivity | reflexivity].
  - rewrite andb_true_iff, ceq_eq, IH. split.
    + intros [-> [post ->]]. exists post. reflexivity.
    + intros [post H]. injection H as -> ->. split; [reflexivity | eexists; reflexivity].
Qed.

Lemma includes_spec s : forall p, includes s p = true <-> exists pre post, s = pre ++ p ++ post.
Proof.
  induction s as [|x s IH]; intros p.
  - cbn [includes]. rewrite orb_false_r, startsWith_spec. split.
    + intros [post H]. exists [], post. exact H.
    + intros (pre & post & H). symmetry in H. apply app_eq_nil in H as [-> H].
      apply app_eq_nil in H as [-> ->]. exists []. reflexivity.
  - cbn [includes]. rewrite orb_true_iff, startsWith_spec, IH. split.
    + intros [[post H]|(pre & post & H)].
      * exists [], post. exact H.
      * exists (x :: pre), post. rewrite H. reflexivity.
    + intros (pre & post & H). destruct pre as [|y pre].
      * left. exists post. exact H.
      * right. injection H as -> ->. exists pre, post. reflexivity.
Qed.

(** ** Indices, suffixes *)
Lemma lastIndexOf_from_spec c s : forall i acc,
  (c ∉ s -> lastIndexOf_from i s c acc = acc) /\
  (c ∈ s -> exists p, lastIndexOf_from i s c acc = Z.of_nat (i + p) /\
                      s !! p = Some c /\ forall q, p < q -> s !! q <> Some c).
Proof.
  induction s as [|x s IH]; intros i acc; simpl.
  - split; [reflexivity|]. intros H. by apply elem_of_nil in H.
  - destruct (IH (S i) (if ceq x c then Z.of_nat i else acc)) as [IH1 IH2].
    destruct (decide (c ∈ s)) as [Hin|Hnin].
    + split; [intros H; exfalso; apply H; right; exact Hin|]. intros _.
      destruct (IH2 Hin) as (p & -> & Hp & Hq).
      exists (S p). split; [f_equal; lia|]. split; [exact Hp|].
      intros [|q] Hlt; [lia|]. simpl. apply Hq. lia.
    + rewrite (IH1 Hnin). split.
      * intros H. destruct (ceq x c) eqn:E; [|reflexivity].
        apply ceq_eq in E. subst. exfalso. apply H. left.
      * intros H. apply elem_of_cons in H as [->|H]; [|contradiction].
        rewrite ceq_refl. exists 0. split; [f_equal; lia|]. split; [reflexivity|].
        intros [|q] Hlt; [lia|]. simpl. intros Hq. apply Hnin.
        eapply list_elem_of_lookup_2. exact Hq.
Qed.

Lemma lastIndexOf_none s c : c ∉ s -> lastIndexOf s c = (-1)%Z.
Proof. apply lastIndexOf_from_spec. Qed.

Lemma lastIndexOf_some s c :
  c ∈ s -> exists p, lastIndexOf s c = Z.of_nat p /\ s !! p = Some c /\
                     forall q, p < q -> s !! q <> Some c.
Proof. intros H. apply (lastIndexOf_from_spec c s 0 (-1)%Z) in H. exact H. Qed.

Lemma lastIndexOf_ge s c : (-1 <= lastIndexOf s c)%Z.
Proof.
  destruct (decide (c ∈ s)) as [H|H].
  - apply lastIndexOf_some in H as (p & -> & _). lia.
  - rewrite lastIndexOf_none by exact H. lia.
Qed.

Lemma isQuote12_cases ch : isQuote12 ch = true -> ch = squote \/ ch = dquote.
Proof.
  unfold isQuote12. rewrite orb_true_iff, !ceq_eq. tauto.
Qed.

Lemma lastQuoteIdx_found text p ch :
  text !! p = Some ch -> isQuote12 ch = true -> (0 <= lastQuoteIdx text)%Z.
Proof.
  intros Hp Hq. unfold lastQuoteIdx.
  pose proof (lastIndexOf_ge text dquote). pose proof (lastIndexOf_ge text squote).
  apply list_elem_of_lookup_2 in Hp.
  destruct (isQuote12_cases _ Hq) as [->| ->];
    apply lastIndexOf_some in Hp as (p' & E & _); rewrite E; lia.
Qed.


Lemma drop_slice_suffix (text : jsstring) a to k :
  a <= to -> to <= length text ->
  let f := drop k (slice text a to) in
  f = slice text (to - length f) to /\ length f <= to - a.
Proof.
  intros Ha Hto f.
  destruct (decide (k <= to - a)) as [Hk|Hk].
  - assert (E : f = take (to - a - k) (drop (a + k) text)).
    { subst f. unfold slice.
      replace (to - a) with (k + (to - a - k)) at 1 by lia.
      rewrite <- take_drop_commute, drop_drop. reflexivity. }
    assert (L : length f = to - a - k).
    { rewrite E, length_take, length_drop. lia. }
    rewrite L. split; [|lia]. rewrite E. unfold slice. f_equal; [lia|]. f_equal. lia.
  - assert (E : f = []).
    { subst f. apply drop_ge. unfold slice. rewrite length_take. lia. }
    rewrite E. simpl. split; [|lia]. unfold slice.
    rewrite Nat.sub_0_r, Nat.sub_diag. reflexivity.
Qed.

(** ** What the patterns match *)

(** A match lies as well in the end part of the subject that starts
    before it. *)
Lemma matches_drop s r i j :
  matches s r i j -> forall a, a <= i -> matches (drop a s) r (i - a) (j - a).
Proof.
  induction 1 as [p i ch Hch Hp|i|x y i j k H1 IH1 H2 IH2|x y i j _ IH|x y i j _ IH
                 |x i|x i j k H1 IH1 Hlt _ IH2|i Hi|n x i j _ IH]; intros a Ha.
  - replace (S i - a) with (S (i - a)) by lia.
    econstructor; [|exact Hp]. rewrite lookup_drop. rewrite <- Hch. f_equal. lia.
  - constructor.
  - destruct (matches_bounds _ _ _ _ H1).
    econstructor; [apply IH1; lia | apply IH2; lia].
  - apply M_AltL. auto.
  - apply M_AltR. auto.
  - constructor.
  - eapply M_StarCons; [apply IH1; exact Ha | lia | apply IH2; lia].
  - constructor. rewrite length_drop. lia.
  - constructor. auto.
Qed.


Ltac inv_matches H := inversion H; subst; clear H.

Lemma matches_seq_inv s a b i k :
  matches s (Seq a b) i k -> exists j, matches s a i j /\ matches s b j k.
Proof. intros H. inv_matches H. eauto. Qed.

Lemma matches_chr_inv s p i j :
  matches s (Chr p) i j -> exists ch, j = S i /\ s !! i = Some ch /\ p ch = true.
Proof. intros H. inv_matches H. eauto. Qed.

Lemma matches_eol_inv s i j : matches s Eol i j -> j = i /\ i = length s.
Proof. intros H. inv_matches H. auto. Qed.

(** The characters a [Star] of a class goes over are in the class. *)
Lemma matches_star_chr s p i j :
  matches s (Star (Chr p)) i j ->
  forall q, i <= q < j -> exists ch, s !! q = Some ch /\ p ch = true.
Proof.
  intros H. remember (Star (Chr p)) as r eqn:E.
  induction H as [| | | | | |x i j k H1 _ Hlt H2 IH2| |]; try discriminate; intros q Hq.
  - lia.
  - injection E as ->. apply matches_chr_inv in H1 as (ch & -> & Hch & Hp).
    destruct (decide (q = i)) as [->|Hne]; [eauto|].
    apply IH2; [reflexivity | lia].
Qed.

Lemma withQuotes_inv s name i j :
  matches s (withQuotes name) i j ->
  exists p ch, i <= p < j /\ s !! p = Some ch /\ isQuote12 ch = true /\ j = length s /\
    forall q, p < q < j -> exists c, s !! q = Some c /\ notQuote12 c = true.
Proof.
  unfold withQuotes, Seqs. intros H.
  apply matches_seq_inv in H as (j1 & H1 & H).
  apply matches_seq_inv in H as (j2 & H2 & H).
  apply matches_seq_inv in H as (j3 & H3 & H).
  apply matches_seq_inv in H as (j4 & H4 & H).
  apply matches_seq_inv in H as (j5 & H5 & H6).
  apply matches_bounds in H1, H2, H3.
  apply matches_chr_inv in H4 as (ch & -> & Hch & Hq).
  apply matches_eol_inv in H6 as [-> ->].
  pose proof (matches_bounds _ _ _ _ H5).
  exists j3, ch. repeat split; try lia; auto.
  intros q Hq'. eapply matches_star_chr; [exact H5 | lia].
Qed.

Lemma afterColon_inv s name i j :
  matches s (afterColon name) i j ->
  exists p, i <= p < j /\ s !! p = Some ":"%char /\ j = length s.
Proof.
  unfold afterColon, Seqs. intros H.
  apply matches_seq_inv in H as (j1 & H1 & H).
  apply matches_seq_inv in H as (j2 & H2 & H).
  apply matches_seq_inv in H as (j3 & H3 & H).
  apply matches_seq_inv in H as (j4 & H4 & H).
  apply matches_seq_inv in H as (j5 & H5 & H).
  apply matches_seq_inv in H as (j6 & H6 & H).
  apply matches_seq_inv in H as (j7 & H7 & H8).
  apply matches_bounds in H1, H2, H3, H4, H5, H7.
  apply matches_chr_inv in H6 as (ch & -> & Hch & Hq).
  apply ceq_eq in Hq. subst ch.
  apply matches_eol_inv in H8 as [-> ->].
  exists j5. repeat split; try lia; auto.
Qed.

(** A span returned by [matchBefore] is matched by the pattern from its
    first to its last character. *)
Lemma matchBefore_matches re text cursorOffset explicit limit w :
  matchBefore (makeContext text cursorOffset explicit limit) re = Some w ->
  matches (m_text w) re 0 (length (m_text w)).
Proof.
  intros H. apply matchBefore_span in H as (Hto & Hwf & Hle & Ht & Hm).
  set (to := clamp cursorOffset (length text)) in *.
  assert (to <= length text) by apply clamp_le.
  apply matches_drop with (a := m_from w - (to - limit)) in Hm; [|lia].
  rewrite Nat.sub_diag in Hm.
  assert (E : drop (m_from w - (to - limit)) (slice text (to - limit) to) = m_text w).
  { rewrite Ht, Hto. unfold slice.
    replace (to - (to - limit)) with ((m_from w - (to - limit)) + (to - m_from w)) by lia.
    rewrite <- take_drop_commute, drop_drop. f_equal. f_equal. lia. }
  rewrite E in Hm.
  replace (length (m_text w)) with (to - (to - limit) - (m_from w - (to - limit))); [exact Hm|].
  rewrite Ht, slice_length by lia. lia.
Qed.

Lemma search_matchAt r s fuel : forall i m,
  search r s fuel i = Some m -> exists i', matchAt r s i' = Some m.
Proof.
  induction fuel as [|fuel IH]; intros i m H; simpl in H;
    destruct (matchAt r s i) eqn:E; try discriminate;
    try (injection H as ->); eauto.
Qed.

(** The fragment is an end part of what is after the quote. *)
Lemma fragmentOf_suffix inside cls :
  exists k, fragmentOf inside (fragmentMatch cls) = drop k inside.
Proof.
  unfold fragmentOf, match_, exec.
  destruct (length inside <? 0); [exists 0; reflexivity|].
  destruct (search _ _ _ _) as [m|] eqn:E; [|exists 0; reflexivity].
  apply search_matchAt in E as (i & E).
  unfold matchAt, fragmentMatch, Seqs in E. simpl in E.
  destruct (inside !! i) as [ch|]; [|discriminate].
  destruct (isDelim ch); [|discriminate].
  apply (starLoop_sound inside (Chr cls)) in E.
  2:{ intros i0 c0 k0 x0 H0. apply (run_sound inside (Chr cls) i0 c0 k0 x0). exact H0. }
  destruct E as (j & c' & _ & E).
  destruct (j =? length inside) eqn:J; [|discriminate].
  apply Nat.eqb_eq in J. injection E as <-.
  exists (S i). unfold group. simpl. unfold slice. subst j.
  apply take_ge. rewrite length_drop. lia.
Qed.

Lemma pitchFragment_suffix text m :
  match_ text SCALE_PITCH_MATCH_REGEX = Some m -> exists k, m0 m = drop k text.
Proof.
  intros H. apply exec_ok_intro in H. destruct H as [_ He Ht _ Hm].
  unfold SCALE_PITCH_MATCH_REGEX in Hm.
  apply matches_seq_inv in Hm as (j & _ & Hm).
  apply matches_eol_inv in Hm as [Hj1 Hj2].
  exists (index m). rewrite Ht. unfold slice. apply take_ge.
  rewrite length_drop. lia.
Qed.

(** ** What follows the last quote *)

Lemma takeWhile_all {A} (p : A -> bool) (a : list A) y b :
  (forall x, x ∈ a -> p x = true) -> p y = false -> takeWhile p (a ++ y :: b) = a.
Proof.
  induction a as [|x a IH]; intros Ha Hy; simpl.
  - rewrite Hy. reflexivity.
  - rewrite (Ha x) by left. f_equal. apply IH; [|exact Hy].
    intros z Hz. apply Ha. right. exact Hz.
Qed.

(** What follows the last element of [s] that fails [p]. *)
Lemma drop_after_last {A} (p : A -> bool) (s : list A) i y :
  s !! i = Some y -> p y = false ->
  (forall q x, i < q -> s !! q = Some x -> p x = true) ->
  forall pre, rev (takeWhile p (rev (pre ++ s))) = drop (S i) s.
Proof.
  intros Hi Hy Hafter pre.
  rewrite <- (take_drop_middle s i y Hi) at 1.
  rewrite app_assoc, rev_app_distr. simpl. rewrite <- app_assoc. simpl.
  rewrite takeWhile_all; [apply rev_involutive | | exact Hy].
  intros x Hx. apply list_elem_of_In, in_rev, list_elem_of_In in Hx.
  apply list_elem_of_lookup_1 in Hx as [q Hq].
  rewrite lookup_drop in Hq. eapply Hafter; [|exact Hq]. lia.
Qed.

Lemma notQuote12_neq c : notQuote12 c = true -> c <> dquote /\ c <> squote.
Proof.
  unfold notQuote12, isQuote12. rewrite negb_true_iff, orb_false_iff.
  intros [H1 H2]. split; intros ->; discriminate.
Qed.

Lemma lastQuoteIdx_spec (s : jsstring) :
  (exists c, c ∈ s /\ isQuote12 c = true) ->
  exists i y, lastQuoteIdx s = Z.of_nat i /\ s !! i = Some y /\ notQuote12 y = false /\
    forall q x, i < q -> s !! q = Some x -> notQuote12 x = true.
Proof.
  intros (c & Hc & Hq). unfold lastQuoteIdx.
  assert (Hnot : forall x, x <> dquote -> x <> squote -> notQuote12 x = true).
  { intros x H1 H2. unfold notQuote12, isQuote12.
    rewrite (ceq_neq _ _ H1), (ceq_neq _ _ H2). reflexivity. }
  destruct (decide (dquote ∈ s)) as [Hd|Hd], (decide (squote ∈ s)) as [Hs|Hs].
  - apply lastIndexOf_some in Hd as (pd & -> & Hpd & Hld).
    apply lastIndexOf_some in Hs as (ps & -> & Hps & Hls).
    destruct (decide (pd <= ps)).
    + exists ps, squote. rewrite Z.max_r by lia. repeat split; auto.
      intros q x Hlt Hx. apply Hnot; intros ->; [apply (Hld q) | apply (Hls q)]; auto; lia.
    + exists pd, dquote. rewrite Z.max_l by lia. repeat split; auto.
      intros q x Hlt Hx. apply Hnot; intros ->; [apply (Hld q) | apply (Hls q)]; auto; lia.
  - apply lastIndexOf_some in Hd as (pd & -> & Hpd & Hld).
    rewrite (lastIndexOf_none _ _ Hs).
    exists pd, dquote. rewrite Z.max_l by lia. repeat split; auto.
    intros q x Hlt Hx. apply Hnot; intros ->; [apply (Hld q); auto|].
    apply Hs. eapply list_elem_of_lookup_2; eauto.
  - apply lastIndexOf_some in Hs as (ps & -> & Hps & Hls).
    rewrite (lastIndexOf_none _ _ Hd).
    exists ps, squote. rewrite Z.max_r by lia. repeat split; auto.
    intros q x Hlt Hx. apply Hnot; intros ->; [|apply (Hls q); auto].
    apply Hd. eapply list_elem_of_lookup_2; eauto.
  - exfalso. destruct (isQuote12_cases _ Hq) as [-> | ->]; contradiction.
Qed.

(** For a span of [withQuotes], what follows its last quote is what
    follows the last quote before the cursor. *)
Lemma withQuotes_inside name text cursorOffset explicit limit w :
  matchBefore (makeContext text cursorOffset explicit limit) (withQuotes name) = Some w ->
  drop (Z.to_nat (lastQuoteIdx (m_text w) + 1)) (m_text w) = afterLastQuote text cursorOffset.
Proof.
  intros H.
  pose proof (matchBefore_matches _ _ _ _ _ _ H) as Hm.
  apply matchBefore_span in H as (Hto & _ & Hle & Ht & _).
  set (to := clamp cursorOffset (length text)) in *.
  assert (Hlen : to <= length text) by apply clamp_le.
  apply withQuotes_inv in Hm as (p & ch & _ & Hp & Hq & _).
  destruct (lastQuoteIdx_spec (m_text w)) as (i & y & E & Hi & Hy & Hafter).
  { exists ch. split; [eapply list_elem_of_lookup_2; exact Hp | exact Hq]. }
  rewrite E. replace (Z.to_nat (Z.of_nat i + 1)) with (S i) by lia.
  unfold afterLastQuote. fold to.
  assert (Esplit : take to text = take (m_from w) text ++ m_text w).
  { rewrite Ht, Hto. unfold slice.
    rewrite <- (take_drop (m_from w) (take to text)) at 1.
    rewrite take_take. replace (m_from w `min` to) with (m_from w) by lia.
    f_equal. replace to with (m_from w + (to - m_from w)) at 1 by lia.
    rewrite <- take_drop_commute. reflexivity. }
  rewrite Esplit. symmetry. eapply drop_after_last; eauto.
Qed.

(** ** The sound and bank handlers *)

(** What the handlers for a quoted argument share: the span has a quote,
    and an end part of what follows the last quote is the end of the text
    before the cursor. *)
Lemma withQuotes_span name text cursorOffset explicit limit w :
  matchBefore (makeContext text cursorOffset explicit limit) (withQuotes name) = Some w ->
  let to := clamp cursorOffset (length text) in
  m_to w = to /\
  (lastQuoteIdx (m_text w) =? -1)%Z = false /\
  forall k, let f := drop k (drop (Z.to_nat (lastQuoteIdx (m_text w) + 1)) (m_text w)) in
            f = slice text (to - length f) to /\ length f <= to.
Proof.
  intros H to.
  pose proof (matchBefore_matches _ _ _ _ _ _ H) as Hm.
  apply matchBefore_span in H as (Hto & _ & Hle & Ht & _). fold to in Hto.
  split; [exact Hto|].
  apply withQuotes_inv in Hm as (p & ch & _ & Hp & Hq & _).
  pose proof (lastQuoteIdx_found _ _ _ Hp Hq) as Hge.
  split; [apply Z.eqb_neq; lia|].
  intros k. generalize (Z.to_nat (lastQuoteIdx (m_text w) + 1)). intros n.
  cbv zeta. rewrite drop_drop, Ht, Hto.
  assert (to <= length text) by apply clamp_le.
  destruct (drop_slice_suffix text (m_from w) to (n + k)) as [E L]; [lia | lia |].
  split; [exact E | lia].
Qed.

(** C10. With a quote open after [s(] or [sound(], the sound handler
    takes as fragment the word at the end of what follows the last quote
    before the cursor, starts the replacement where the fragment starts,
    and offers exactly the sound names that contain the fragment
    somewhere, in sorted order.  With a quote open after [bank(], the bank
    handler takes as fragment all that follows the last quote and offers
    exactly the bank names that start with the fragment, in sorted
    order. *)
Theorem sound_and_bank_filters (text : jsstring) (cursorOffset : Z) (explicit : bool)
    (lookbehindLimit : nat) (sources : DynamicSources) :
  let ctx := makeContext text cursorOffset explicit lookbehindLimit in
  let to := clamp cursorOffset (length text) in
  (matchBefore ctx SOUND_NO_QUOTES_REGEX = None ->
   is_Some (matchBefore ctx SOUND_WITH_QUOTES_REGEX) ->
   let fragment := extractSoundFragment (afterLastQuote text cursorOffset) in
   let names := default [] (soundNames sources) in
   let labels := List.filter (fun name => includes name fragment) (sort names) in
   fragment = slice text (to - length fragment) to /\ length fragment <= to /\
   soundHandler ctx sources =
     Some (mkResult (Z.of_nat to - Z.of_nat (length fragment))
                    (map (fun l => option2 l (str "sound")) labels)) /\
   StronglySorted str_le labels /\
   forall name, name ∈ labels <->
     name ∈ names /\ exists pre post, name = pre ++ fragment ++ post) /\
  (matchBefore ctx BANK_NO_QUOTES_REGEX = None ->
   is_Some (matchBefore ctx BANK_WITH_QUOTES_REGEX) ->
   let fragment := afterLastQuote text cursorOffset in
   let names := default [] (bankNames sources) in
   let labels := List.filter (fun b => startsWith b fragment) (sort names) in
   fragment = slice text (to - length fragment) to /\ length fragment <= to /\
   bankHandler ctx sources =
     Some (mkResult (Z.of_nat to - Z.of_nat (length fragment))
                    (map (fun l => option2 l (str "bank")) labels)) /\
   StronglySorted str_le labels /\
   forall name, name ∈ labels <->
     name ∈ names /\ exists post, name = fragment ++ post).
Proof.
  intros ctx to. split.
  - intros Hno [w Hw] fragment names labels. subst labels names fragment.
    unfold soundHandler. rewrite Hno, Hw.
    pose proof (withQuotes_inside _ _ _ _ _ _ Hw) as Hin.
    apply withQuotes_span in Hw as (Hto & Hq & Hf). fold to in Hto, Hf.
    rewrite Hq, Hto, Hin. rewrite Hin in Hf.
    destruct (fragmentOf_suffix (afterLastQuote text cursorOffset) isWord) as [k Hk].
    unfold extractSoundFragment, SOUND_FRAGMENT_MATCH_REGEX. rewrite Hk.
    destruct (Hf k) as [E L]. split; [exact E|]. split; [exact L|].
    split; [reflexivity|]. split; [apply filter_sorted, sort_sorted|].
    intros name. rewrite list_elem_of_In, filter_In, <- list_elem_of_In.
    rewrite sort_elem, includes_spec. reflexivity.
  - intros Hno [w Hw] fragment names labels. subst labels names fragment.
    unfold bankHandler. rewrite Hno, Hw.
    pose proof (withQuotes_inside _ _ _ _ _ _ Hw) as Hin.
    apply withQuotes_span in Hw as (Hto & Hq & Hf). fold to in Hto, Hf.
    rewrite Hq, Hto, Hin. rewrite Hin in Hf.
    destruct (Hf 0) as [E L]. rewrite drop_0 in E, L.
    split; [exact E|]. split; [exact L|].
    split; [reflexivity|]. split; [apply filter_sorted, sort_sorted|].
    intros name. rewrite list_elem_of_In, filter_In, <- list_elem_of_In.
    rewrite sort_elem, startsWith_spec. reflexivity.
Qed.

Lemma sound_and_bank_filters_witness :
  let ctx := makeContext (soundText "hh b") 11 false 8192 in
  matchBefore ctx SOUND_NO_QUOTES_REGEX = None /\
  is_Some (matchBefore ctx SOUND_WITH_QUOTES_REGEX) /\
  extractSoundFragment (afterLastQuote (soundText "hh b") 11) = str "b" /\
  soundHandler ctx drumSources =
    Some (mkResult 10 [option2 (str "bd") (str "sound"); option2 (str "bd_808") (str "sound")]).
Proof.
  intros ctx.
  assert (H1 : matchBefore ctx SOUND_NO_QUOTES_REGEX = None) by reflexivity.
  assert (H2 : is_Some (matchBefore ctx SOUND_WITH_QUOTES_REGEX))
    by (eexists; vm_compute; reflexivity).
  split; [exact H1|]. split; [exact H2|]. split; [reflexivity|].
  destruct (proj1 (sound_and_bank_filters (soundText "hh b") 11 false 8192 drumSources) H1 H2)
    as (_ & _ & H & _).
  exact H.
Defined.

(** The sound names are filtered by what they contain, the bank names by
    how they start: the fragment [d] keeps [bd] as a sound and not as a
    bank. *)
Example sound_contains_bank_starts :
  soundHandler (makeContext (soundText "b") 8 false 8192) drumSources =
    Some (mkResult 7 [option2 (str "bd") (str "sound"); option2 (str "bd_808") (str "sound")]) /\
  soundHandler (makeContext (soundText "d") 8 false 8192) drumSources =
    Some (mkResult 7 [option2 (str "bd") (str "sound"); option2 (str "bd_808") (str "sound")]) /\
  bankHandler (makeContext (bankText "d") 7 false 8192) drumSources =
    Some (mkResult 6 [option2 (str "drum") (str "bank")]).
Proof. repeat split; vm_compute; reflexivity. Qed.

(** ** The scale and mode handlers *)

Lemma slice_lookup (text : jsstring) a b i :
  i < b - a -> slice text a b !! i = text !! (a + i).
Proof. intros H. unfold slice. rewrite lookup_take_lt by lia. apply lookup_drop. Qed.

Lemma drop_slice (text : jsstring) a b k :
  drop k (slice text a b) = slice text (a + k) b.
Proof.
  unfold slice. destruct (decide (k <= b - a)) as [H|H].
  - replace (b - a) with (k + (b - a - k)) at 1 by lia.
    rewrite <- take_drop_commute, drop_drop. f_equal. lia.
  - replace (b - (a + k)) with 0 by lia. rewrite take_0.
    apply drop_ge. rewrite length_take. lia.
Qed.

(** What the after-colon branch of the scale and mode handlers computes. *)
Lemma afterColon_span name text cursorOffset explicit limit w :
  matchBefore (makeContext text cursorOffset explicit limit) (afterColon name) = Some w ->
  let to := clamp cursorOffset (length text) in
  exists p,
    p < to /\ text !! p = Some ":"%char /\
    (":"%char ∉ slice text (S p) to) /\
    lastIndexOf (m_text w) ":"%char = Z.of_nat (p - m_from w) /\
    m_from w <= p /\
    drop (Z.to_nat (lastIndexOf (m_text w) ":"%char + 1)) (m_text w) = slice text (S p) to.
Proof.
  intros H to.
  pose proof (matchBefore_matches _ _ _ _ _ _ H) as Hm.
  apply matchBefore_span in H as (Hto & _ & Hle & Ht & _). fold to in Hto.
  assert (Hlen : to <= length text) by apply clamp_le.
  assert (Hl : length (m_text w) = to - m_from w).
  { rewrite Ht, slice_length; lia. }
  apply afterColon_inv in Hm as (p0 & _ & Hp0 & _).
  apply list_elem_of_lookup_2 in Hp0.
  apply lastIndexOf_some in Hp0 as (p & E & Hp & Hlast).
  pose proof (lookup_lt_Some _ _ _ Hp) as Hlt.
  exists (m_from w + p). rewrite E.
  replace (m_from w + p - m_from w) with p by lia.
  replace (Z.to_nat (Z.of_nat p + 1)) with (S p) by lia.
  assert (D : drop (S p) (m_text w) = slice text (S (m_from w + p)) to).
  { rewrite Ht, Hto, drop_slice. f_equal. lia. }
  repeat split; try lia; auto.
  - rewrite <- Hp, Ht, Hto. symmetry. apply slice_lookup. lia.
  - rewrite <- D. intros Hin. apply list_elem_of_lookup_1 in Hin as [q Hq].
    rewrite lookup_drop in Hq. apply (Hlast (S p + q)); [lia | exact Hq].
Qed.

Lemma colonIdx_neq p : (Z.of_nat p =? -1)%Z = false.
Proof. apply Z.eqb_neq. lia. Qed.

(** C3, amended. For [scale(] with a quote open: after a colon the
    result starts one position after the last colon before the cursor and
    offers the scale completions whose label starts with the text after
    that colon; before a colon it offers the pitch names that start,
    letter case apart, with the pitch typed at the end of the span, when
    the request is explicit, and no option, at the cursor, when it is not.
    For [mode(] with a quote open the two lists are the other way round:
    after a colon the result starts one position after the last colon and
    offers the pitch names that start, letter case apart, with the text
    after it; before a colon it offers the mode names that start with the
    fragment at the end of what follows the last quote, whether or not the
    request is explicit. *)
Theorem scale_and_mode_phases (text : jsstring) (cursorOffset : Z) (explicit : bool)
    (lookbehindLimit : nat) :
  let ctx := makeContext text cursorOffset explicit lookbehindLimit in
  let to := clamp cursorOffset (length text) in
  (matchBefore ctx SCALE_NO_QUOTES_REGEX = None ->
   (is_Some (matchBefore ctx SCALE_AFTER_COLON_REGEX) ->
    exists p, p < to /\ text !! p = Some ":"%char /\
      let fragment := slice text (S p) to in
      (":"%char ∉ fragment) /\
      scaleHandler ctx = Some (mkResult (Z.of_nat (S p)) (scaleOptions fragment))) /\
   (matchBefore ctx SCALE_AFTER_COLON_REGEX = None ->
    forall w, matchBefore ctx SCALE_PRE_COLON_REGEX = Some w ->
      includesChar (m_text w) ":"%char = false ->
      let fragment := pitchFragment (m_text w) in
      fragment = slice text (to - length fragment) to /\ length fragment <= to /\
      scaleHandler ctx =
        if explicit
        then Some (mkResult (Z.of_nat to - Z.of_nat (length fragment)) (pitchOptions fragment))
        else Some (mkResult (Z.of_nat to) []))) /\
  (matchBefore ctx MODE_NO_QUOTES_REGEX = None ->
   (is_Some (matchBefore ctx MODE_AFTER_COLON_REGEX) ->
    exists p, p < to /\ text !! p = Some ":"%char /\
      let fragment := slice text (S p) to in
      (":"%char ∉ fragment) /\
      modeHandler ctx = Some (mkResult (Z.of_nat (S p)) (pitchOptions fragment))) /\
   (matchBefore ctx MODE_AFTER_COLON_REGEX = None ->
    is_Some (matchBefore ctx MODE_PRE_COLON_REGEX) ->
    let fragment := fragmentOf (afterLastQuote text cursorOffset) MODE_FRAGMENT_MATCH_REGEX in
    fragment = slice text (to - length fragment) to /\ length fragment <= to /\
    modeHandler ctx =
      Some (mkResult (Z.of_nat to - Z.of_nat (length fragment))
              (List.filter (fun m => startsWith (label m) fragment) modeCompletions)))).
Proof.
  intros ctx to. split; intros Hno; split.
  - intros [w Hw]. unfold scaleHandler. rewrite Hno, Hw.
    apply afterColon_span in Hw as (p & Hp & Hc & Hn & E & Hle & D). fold to in Hp, Hn, D.
    rewrite D, E, colonIdx_neq.
    exists p. repeat split; auto.
    do 2 f_equal. lia.
  - intros Hac w Hw Hcolon fragment. subst fragment.
    unfold scaleHandler. rewrite Hno, Hac, Hw, Hcolon.
    pose proof (matchBefore_span _ _ _ _ _ _ Hw) as (Hto & _ & Hle & Ht & _). fold to in Hto.
    assert (Hlen : to <= length text) by apply clamp_le.
    rewrite Hto. fold (pitchFragment (m_text w)).
    assert (F : exists k, pitchFragment (m_text w) = drop k (m_text w)).
    { unfold pitchFragment.
      destruct (match_ (m_text w) SCALE_PITCH_MATCH_REGEX) as [m|] eqn:M.
      - apply pitchFragment_suffix in M. exact M.
      - exists (length (m_text w)). rewrite drop_all. reflexivity. }
    destruct F as [k ->].
    destruct (drop_slice_suffix text (m_from w) to k) as [E L]; [lia | lia |].
    rewrite Ht, Hto. split; [exact E|]. split; [lia|].
    destruct explicit; reflexivity.
  - intros [w Hw]. unfold modeHandler. rewrite Hno, Hw.
    apply afterColon_span in Hw as (p & Hp & Hc & Hn & E & Hle & D). fold to in Hp, Hn, D.
    rewrite D, E, colonIdx_neq.
    exists p. repeat split; auto.
    do 2 f_equal. lia.
  - intros Hac [w Hw] fragment. subst fragment. unfold modeHandler. rewrite Hno, Hac, Hw.
    pose proof (withQuotes_inside _ _ _ _ _ _ Hw) as Hin.
    apply withQuotes_span in Hw as (Hto & Hq & Hf). fold to in Hto, Hf.
    rewrite Hq, Hto, Hin. rewrite Hin in Hf.
    destruct (fragmentOf_suffix (afterLastQuote text cursorOffset)
                (fun c => isWord c || ceq c ":"%char)) as [k Hk].
    unfold MODE_FRAGMENT_MATCH_REGEX. rewrite Hk.
    destruct (Hf k) as [E L]. split; [exact E|]. split; [exact L|]. reflexivity.
Qed.

(** C3 as stated fails for [mode(]: after the colon of [duck:] the
    options are the pitch names, none of them a mode name, and before a
    colon the mode names are offered to a request that is not explicit. *)
Lemma mode_phases_counterexample :
  modeHandler (makeContext (modeText "duck:") 11 false 8192) =
    Some (mkResult 11 (map (fun p => option2 p (str "pitch")) pitchNames)) /\
  map (fun p => option2 p (str "pitch")) pitchNames <>
    List.filter (fun m => startsWith (label m) []) modeCompletions /\
  modeHandler (makeContext (modeText "d") 7 false 8192) =
    Some (mkResult 6 [option2 (str "duck") (str "mode")]).
Proof.
  split; [vm_compute; reflexivity|]. split; [discriminate|]. vm_compute; reflexivity.
Qed.

Lemma scale_and_mode_phases_witness :
  let ctx := makeContext (modeText "duck:c") 12 false 8192 in
  matchBefore ctx MODE_NO_QUOTES_REGEX = None /\
  is_Some (matchBefore ctx MODE_AFTER_COLON_REGEX) /\
  exists p, modeText "duck:c" !! p = Some ":"%char /\
    modeHandler ctx =
      Some (mkResult (Z.of_nat (S p)) (pitchOptions (slice (modeText "duck:c") (S p) 12))).
Proof.
  intros ctx.
  assert (H1 : matchBefore ctx MODE_NO_QUOTES_REGEX = None) by reflexivity.
  assert (H2 : is_Some (matchBefore ctx MODE_AFTER_COLON_REGEX))
    by (eexists; vm_compute; reflexivity).
  split; [exact H1|]. split; [exact H2|].
  destruct (proj1 (proj2 (scale_and_mode_phases (modeText "duck:c") 12 false 8192) H1) H2)
    as (p & _ & Hc & _ & H).
  exists p. split; [exact Hc | exact H].
Defined.

Example scale_phases :
  scaleHandler (makeContext (scaleText "C") 8 true 8192) =
    Some (mkResult 7 (map (fun p => option2 p (str "pitch")) [str "C"; str "C#"; str "Cb"])) /\
  scaleHandler (makeContext (scaleText "C") 8 false 8192) = Some (mkResult 8 []) /\
  scaleHandler (makeContext (scaleText "C:ma") 11 false 8192) = Some (mkResult 9 []).
Proof. repeat split; vm_compute; reflexivity. Qed.

(** ** The fallback handler *)

Section NeverFails.
Variable re : regex.
Variable s : jsstring.
Hypothesis Hexec : forall li, li <= length s -> is_Some (exec re s li).

Lemma matchLoop_never_fails fuel : forall li best b,
  li <= length s ->
  matchLoop re s fuel li best = Some b ->
  exists m, b = Some m /\ index m = length s /\ m0 m = [].
Proof.
  induction fuel as [|fuel IH]; intros li best b Hli H; simpl in H; [discriminate|].
  destruct (Hexec li Hli) as [m Hm]. rewrite Hm in H.
  pose proof (exec_ok_intro _ _ _ _ Hm) as [Hfrom Hend _ _ _].
  destruct (length (m0 m) =? 0) eqn:L.
  - apply Nat.eqb_eq in L.
    destruct (decide (index m + 1 <= length s)) as [Hn|Hn]; [eapply IH; eauto|].
    assert (Hidx : index m = length s) by lia.
    replace (index m + length (m0 m) =? length s) with true in H
      by (symmetry; apply Nat.eqb_eq; lia).
    destruct fuel as [|fuel]; simpl in H; [discriminate|].
    unfold exec in H. replace (length s <? index m + 1) with true in H
      by (symmetry; apply Nat.ltb_lt; lia).
    injection H as <-. exists m. repeat split; auto.
    destruct (m0 m); [reflexivity | discriminate].
  - eapply IH; [|exact H]. lia.
Qed.
End NeverFails.

Lemma starLoop_total {R} step (k : nat -> caps -> option R) fuel : forall i c,
  (forall j c', is_Some (k j c')) -> is_Some (starLoop step k fuel i c).
Proof.
  induction fuel as [|fuel IH]; intros i c Hk; simpl; [apply Hk|].
  destruct (step i c _); [eauto | apply Hk].
Qed.

Lemma exec_fallback s li : li <= length s -> is_Some (exec FALLBACK_WORD_REGEX s li).
Proof.
  intros H. unfold exec. replace (length s <? li) with false
    by (symmetry; apply Nat.ltb_ge; lia).
  assert (M : is_Some (matchAt FALLBACK_WORD_REGEX s li)).
  { unfold matchAt, FALLBACK_WORD_REGEX. simpl. apply starLoop_total. eauto. }
  destruct M as [m M]. destruct (length s - li); simpl; rewrite M; eauto.
Qed.

(** The span that the fallback handler gets is always the empty one at
    the cursor, the last in the order of the loop. *)
Lemma fallback_span text cursorOffset explicit limit :
  let to := clamp cursorOffset (length text) in
  matchBefore (makeContext text cursorOffset explicit limit) FALLBACK_WORD_REGEX =
    Some (mkSpan to to []).
Proof.
  intros to. simpl. fold to.
  set (windowText := slice text (to - limit) to).
  destruct (matchLoop_total FALLBACK_WORD_REGEX windowText (matchFuel windowText) 0 None)
    as [b Hb]; [unfold matchFuel; lia | unfold matchFuel; lia |].
  rewrite Hb.
  apply matchLoop_never_fails in Hb as (m & -> & Hi & Hm); [|apply exec_fallback|lia].
  rewrite Hi, Hm. simpl.
  assert (L : length windowText = to - (to - limit)) by apply window_length.
  rewrite L. f_equal. f_equal; lia.
Qed.

Lemma fallbackHandler_eq text cursorOffset explicit limit options :
  fallbackHandler (makeContext text cursorOffset explicit limit) options =
    if explicit then Some (mkResult (Z.of_nat (clamp cursorOffset (length text))) options)
    else None.
Proof.
  unfold fallbackHandler. rewrite fallback_span.
  cbn [m_from m_to CmEngine.explicit makeContext]. rewrite Nat.eqb_refl.
  destruct explicit; reflexivity.
Qed.

(** C2 as stated fails: after [s], asked for explicitly, the handler
    starts at the cursor and returns the whole list, [note] included; as
    stated it would start at offset 0 and keep [sound] alone.  Not asked
    for explicitly, it declines although the token [s] is not empty. *)
Lemma fallback_counterexample :
  isInsideString (str "s") 1 = false /\
  complete [] (str "s") 1 true (mkDocIndex noteAndSound) None =
    Some (mkResult 1 noteAndSound) /\
  fallbackClaimed (str "s") 1 true noteAndSound =
    Some (mkResult 0 [option2 (str "sound") (str "function")]) /\
  fallbackHandler (makeContext (str "s") 1 true 8192) noteAndSound <>
    fallbackClaimed (str "s") 1 true noteAndSound /\
  complete [] (str "s") 1 false (mkDocIndex noteAndSound) None = None /\
  fallbackClaimed (str "s") 1 false noteAndSound <> None.
Proof.
  split; [reflexivity|].
  split; [vm_compute; reflexivity|]. split; [vm_compute; reflexivity|].
  split; [vm_compute; discriminate|].
  split; [vm_compute; reflexivity | vm_compute; discriminate].
Qed.

(** C2, amended. The fallback handler is tried only outside a string,
    after the five other handlers have declined.  Asked for explicitly, it
    returns the whole documentation completion list, unfiltered, starting
    where the span that [matchBefore] found for the word pattern starts.
    Not asked for explicitly, it declines when the word-prefix token
    ending at the cursor is empty. *)
Theorem fallback_unfiltered (chordSymbolCompletions : list CmCompletionOption)
    (text : jsstring) (cursorOffset : Z) (explicit : bool) (docIndex : DocIndex)
    (sources : option DynamicSources) :
  let ctx := makeContext text cursorOffset explicit 8192 in
  let first5 :=
    firstResult (stringHandlers chordSymbolCompletions ctx
                                (default (mkSources None None) sources)) in
  let result := complete chordSymbolCompletions text cursorOffset explicit docIndex sources in
  let docs := jsdocCompletions docIndex in
  (isInsideString text cursorOffset = true -> result = first5) /\
  (isInsideString text cursorOffset = false ->
   result = match first5 with
            | Some r => Some r
            | None => fallbackHandler ctx docs
            end) /\
  (explicit = true ->
   exists word, matchBefore ctx FALLBACK_WORD_REGEX = Some word /\
     fallbackHandler ctx docs = Some (mkResult (Z.of_nat (m_from word)) docs)) /\
  (explicit = false -> wordPrefixToken text cursorOffset = [] ->
   fallbackHandler ctx docs = None).
Proof.
  intros ctx first5 result docs. subst result first5. unfold complete. fold ctx.
  split; [|split; [|split]].
  - intros ->. reflexivity.
  - intros ->. unfold stringHandlers. cbn [firstResult].
    destruct (soundHandler _ _); [reflexivity|].
    destruct (bankHandler _ _); [reflexivity|].
    destruct (chordHandler _ _); [reflexivity|].
    destruct (scaleHandler _); [reflexivity|].
    destruct (modeHandler _); [reflexivity|].
    subst docs. destruct (fallbackHandler _ _); reflexivity.
  - intros ->. eexists. split; [apply fallback_span|].
    unfold ctx. rewrite fallbackHandler_eq. reflexivity.
  - intros -> _. unfold ctx. rewrite fallbackHandler_eq. reflexivity.
Qed.

Lemma fallback_unfiltered_witness :
  isInsideString [] 0 = false /\
  complete [] [] 0 true (mkDocIndex noteAndSound) None = Some (mkResult 0 noteAndSound).
Proof.
  split; [reflexivity|].
  exact (proj1 (proj2 (fallback_unfiltered [] [] 0 true (mkDocIndex noteAndSound) None))
               eq_refl).
Defined.

(* ================================================================== *)
(** * Part III: more properties of the code *)
(* ================================================================== *)

(** ** The matcher finds a match where there is one *)

Lemma matches_end_bound s r i j : matches s r i j -> i < j -> j <= length s.
Proof.
  induction 1 as [p i ch Hch Hp|i|x y i j k H1 IH1 H2 IH2|x y i j _ IH|x y i j _ IH
                 |x i|x i j k H1 IH1 Hlt H2 IH2|i Hi|n x i j _ IH]; intros Hij.
  - apply lookup_lt_Some in Hch. lia.
  - lia.
  - apply matches_bounds in H1 as [? _]. apply matches_bounds in H2 as [? _].
    destruct (decide (j < k)); [auto|]. assert (k = j) by lia. subst. apply IH1. lia.
  - auto.
  - auto.
  - lia.
  - apply matches_bounds in H2 as [? _].
    destruct (decide (j < k)); [auto|]. assert (k = j) by lia. subst. auto.
  - lia.
  - auto.
Qed.

Section Complete.
Variable s : jsstring.
Context {R : Type}.

Lemma starLoop_stop step (k : nat -> caps -> option R) fuel i c :
  is_Some (k i c) -> is_Some (starLoop step k fuel i c).
Proof.
  intros Hk. destruct fuel; simpl; [exact Hk|].
  destruct (step i c _); [eauto | exact Hk].
Qed.

(** The matcher finds a match where there is one: when [r] matches from
    [i] to [j] and the continuation accepts [j] with any captures, [run]
    succeeds. *)
Lemma run_complete r i j :
  matches s r i j -> i <= length s ->
  forall c (k : nat -> caps -> option R),
    (forall c', is_Some (k j c')) -> is_Some (Re.run s r i c k).
Proof.
  induction 1 as [p i ch Hch Hp|i|x y i j k0 H1 IH1 H2 IH2|x y i j _ IH|x y i j _ IH
                 |x i|x i j k0 H1 IH1 Hlt H2 IH2|i Hi|n x i j _ IH]; intros Hi' c k Hk; simpl.
  - rewrite Hch, Hp. apply Hk.
  - apply Hk.
  - apply IH1; [exact Hi'|]. intros c'. apply IH2; [|exact Hk].
    destruct (matches_bounds _ _ _ _ H1) as [_ B]. auto.
  - destruct (IH Hi' c k Hk) as [x0 ->]. eauto.
  - destruct (Re.run s x i c k); [eauto|]. apply IH; auto.
  - apply starLoop_stop, Hk.
  - pose proof (matches_end_bound _ _ _ _ H1 Hlt) as Hj.
    destruct (length s - i) as [|f] eqn:F; [lia|]. simpl.
    assert (S : is_Some (Re.run s x i c
               (fun j0 c' => if j0 <=? i then None else starLoop (Re.run s x) k f j0 c'))).
    { apply IH1; [exact Hi'|]. intros c'.
      replace (j <=? i) with false by (symmetry; apply Nat.leb_gt; lia).
      rewrite (starLoop_enough s x k (length s - j) j c' f) by lia.
      specialize (IH2 Hj c' k Hk). simpl in IH2. exact IH2. }
    destruct S as [x0 ->]. eauto.
  - subst i. rewrite Nat.eqb_refl. apply Hk.
  - apply IH; [exact Hi'|]. intros c'. apply Hk.
Qed.
End Complete.

Lemma matchAt_complete r s i j :
  matches s r i j -> i <= length s -> is_Some (matchAt r s i).
Proof. intros H Hi. unfold matchAt. eapply run_complete; eauto. Qed.

Lemma search_complete r s fuel : forall i0 i,
  is_Some (matchAt r s i) -> i0 <= i <= i0 + fuel -> is_Some (search r s fuel i0).
Proof.
  induction fuel as [|fuel IH]; intros i0 i H Hi; simpl.
  - assert (i = i0) by lia. subst. destruct H as [m ->]. eauto.
  - destruct (matchAt r s i0) eqn:E; [eauto|].
    apply (IH (S i0) i H). destruct (decide (i = i0)); [subst; rewrite E in H; destruct H; discriminate | lia].
Qed.

Lemma exec_complete r s i j li :
  matches s r i j -> li <= i -> i <= length s -> is_Some (exec r s li).
Proof.
  intros H Hli Hi. unfold exec.
  replace (length s <? li) with false by (symmetry; apply Nat.ltb_ge; lia).
  eapply search_complete; [eapply matchAt_complete; eauto | lia].
Qed.

Lemma matchBefore_complete r text cursorOffset explicit limit i :
  endAnchored r ->
  let to := clamp cursorOffset (length text) in
  let windowText := slice text (to - limit) to in
  matches windowText r i (length windowText) ->
  is_Some (matchBefore (makeContext text cursorOffset explicit limit) r).
Proof.
  intros Hend to windowText Hm.
  rewrite matchBefore_unfold. fold to. fold windowText.
  assert (Hi : i <= length windowText) by (apply matches_bounds in Hm; lia).
  destruct (exec_complete r windowText i _ 0 Hm) as [m E]; [lia | lia |].
  unfold matchFuel. replace (length windowText + 2) with (S (length windowText + 1)) by lia.
  cbn [execAll]. rewrite E. cbn [List.filter].
  pose proof (exec_ok_intro _ _ _ _ E) as [_ _ _ _ Hmm].
  apply Hend in Hmm. unfold endsAtCursor at 1. rewrite Hmm, Nat.eqb_refl.
  set (rest := List.filter _ _).
  destruct (last (m :: rest)) eqn:L; [eexists; reflexivity|].
  apply last_None in L. discriminate.
Qed.

(** ** Literals and runs of a class *)

Lemma litAt_app pre lit post : litAt (pre ++ lit ++ post) (length pre) lit.
Proof.
  intros k c H. rewrite lookup_app_r by lia.
  replace (length pre + k - length pre) with k by lia.
  apply lookup_app_l_Some. exact H.
Qed.

Lemma matches_lit s lit : forall i,
  litAt s i lit -> matches s (Lit lit) i (i + length lit).
Proof.
  induction lit as [|c lit IH]; intros i H.
  - simpl. rewrite Nat.add_0_r. constructor.
  - assert (Hc : matches s (Lit1 c) i (S i)).
    { econstructor; [|apply ceq_refl]. rewrite <- (Nat.add_0_r i). apply H. reflexivity. }
    assert (Hr : matches s (Lit lit) (S i) (S i + length lit)).
    { apply IH. intros k c' Hk. replace (S i + k) with (i + S k) by lia. apply H. exact Hk. }
    replace (i + length (c :: lit)) with (S i + length lit) by (simpl; lia).
    destruct lit as [|c' lit'].
    + simpl. rewrite Nat.add_0_r. exact Hc.
    + change (Lit (c :: c' :: lit')) with (Seq (Lit1 c) (Lit (c' :: lit'))).
      econstructor; eauto.
Qed.

Lemma matches_star_class s p : forall n i,
  (forall q, i <= q < i + n -> exists ch, s !! q = Some ch /\ p ch = true) ->
  matches s (Star (Chr p)) i (i + n).
Proof.
  induction n as [|n IH]; intros i H.
  - rewrite Nat.add_0_r. constructor.
  - destruct (H i) as (ch & Hch & Hp); [lia|].
    eapply M_StarCons; [econstructor; eauto | lia |].
    replace (i + S n) with (S i + n) by lia. apply IH. intros q Hq. apply H. lia.
Qed.

Lemma lookup_run (pre a b : jsstring) q :
  length pre <= q < length pre + length a ->
  exists ch, (pre ++ a ++ b) !! q = Some ch /\ ch ∈ a.
Proof.
  intros Hq. destruct (lookup_lt_is_Some_2 a (q - length pre)) as [ch Hch]; [lia|].
  exists ch. split; [|eapply list_elem_of_lookup_2; exact Hch].
  rewrite lookup_app_r by lia. apply lookup_app_l_Some. exact Hch.
Qed.

Lemma forallb_elem {A} (p : A -> bool) l x : forallb p l = true -> x ∈ l -> p x = true.
Proof. intros H Hx. rewrite forallb_forall in H. apply H, list_elem_of_In, Hx. Qed.

(** [name(] and white space up to the end. *)
Lemma matches_noQuotes name pre fn ws :
  (forall s i, litAt s i fn -> matches s name i (i + length fn)) ->
  forallb isSpace ws = true ->
  let s := pre ++ fn ++ str "(" ++ ws in
  matches s (noQuotes name) (length pre) (length s).
Proof.
  intros Hname Hws s. unfold noQuotes, Seqs.
  assert (L : length s = length pre + length fn + 1 + length ws).
  { unfold s. rewrite !length_app. simpl. lia. }
  econstructor; [apply Hname; apply litAt_app|].
  econstructor.
  { econstructor; [|apply ceq_refl]. unfold s.
    rewrite app_assoc, lookup_app_r by (rewrite length_app; lia).
    rewrite length_app, Nat.sub_diag. reflexivity. }
  econstructor; [|constructor; reflexivity].
  replace (length s) with (S (length pre + length fn) + length ws) by lia.
  apply matches_star_class. intros q Hq.
  destruct (lookup_run (pre ++ fn ++ str "(") ws [] q) as (ch & Hch & Hin).
  { rewrite !length_app. simpl. lia. }
  exists ch. split; [|eapply forallb_elem; eauto].
  unfold s. rewrite app_nil_r in Hch. rewrite <- Hch. f_equal.
  rewrite <- !app_assoc. reflexivity.
Qed.

Lemma matches_soundName s i fn :
  fn = str "s" \/ fn = str "sound" -> litAt s i fn ->
  matches s soundName i (i + length fn).
Proof.
  intros [-> | ->] H; constructor; [apply M_AltL | apply M_AltR]; apply (matches_lit _ _ _ H).
Qed.

Lemma noQuotes_anchored name : endAnchored (noQuotes name).
Proof.
  intros s i j H. unfold noQuotes, Seqs in H.
  apply matches_seq_inv in H as (j1 & _ & H).
  apply matches_seq_inv in H as (j2 & _ & H).
  apply matches_seq_inv in H as (j3 & _ & H).
  apply matches_eol_inv in H as [-> ->]. reflexivity.
Qed.

Lemma withQuotes_anchored name : endAnchored (withQuotes name).
Proof. intros s i j H. apply withQuotes_inv in H as (p & ch & _ & _ & _ & E & _). exact E. Qed.

(** The window of [makeContext] ends with the end of the text before the
    cursor, as far as the limit goes. *)
Lemma window_tail text cursorOffset limit pre tail :
  take (clamp cursorOffset (length text)) text = pre ++ tail ->
  length tail <= limit ->
  let to := clamp cursorOffset (length text) in
  exists pre', slice text (to - limit) to = pre' ++ tail.
Proof.
  intros E Hl to. fold to in E.
  assert (Hto : to <= length text) by apply clamp_le.
  assert (L : to = length pre + length tail).
  { rewrite <- length_app, <- E, length_take. lia. }
  exists (drop (to - limit) pre).
  assert (S : slice text (to - limit) to = drop (to - limit) (take to text)).
  { unfold slice. rewrite take_drop_commute. f_equal. f_equal. lia. }
  rewrite S, E, drop_app_le by lia. reflexivity.
Qed.

(** ** Right after the opening parenthesis *)

(** The span of [name(] and white space at the end of the text before the
    cursor. *)
Lemma noQuotes_found name text cursorOffset explicit limit pre fn ws :
  (forall s i, litAt s i fn -> matches s name i (i + length fn)) ->
  forallb isSpace ws = true ->
  take (clamp cursorOffset (length text)) text = pre ++ fn ++ str "(" ++ ws ->
  length fn + 1 + length ws <= limit ->
  exists w, matchBefore (makeContext text cursorOffset explicit limit) (noQuotes name) = Some w /\
            m_to w = clamp cursorOffset (length text).
Proof.
  intros Hname Hws E Hl.
  destruct (window_tail text cursorOffset limit pre (fn ++ str "(" ++ ws) E) as [pre' W].
  { rewrite !length_app. simpl. lia. }
  destruct (matchBefore_complete (noQuotes name) text cursorOffset explicit limit (length pre'))
    as [w Hw].
  - apply noQuotes_anchored.
  - rewrite W. apply matches_noQuotes; assumption.
  - exists w. split; [exact Hw|]. apply matchBefore_span in Hw. tauto.
Qed.

(** X1. Right after the opening parenthesis of a call, with at most white
    space after it and the call within the look-behind window, the handler
    of the function called answers with no options at the cursor:
    [soundHandler] for [s] and [sound], [bankHandler] for [bank],
    [chordHandler] for [chord], [scaleHandler] for [scale] and [modeHandler]
    for [mode]. *)
Theorem open_paren_is_terminal (chordSymbolCompletions : list CmCompletionOption)
    (text : jsstring) (cursorOffset : Z) (explicit : bool)
    (lookbehindLimit : nat) (sources : DynamicSources) (pre fn ws : jsstring) :
  let ctx := makeContext text cursorOffset explicit lookbehindLimit in
  let to := clamp cursorOffset (length text) in
  forallb isSpace ws = true ->
  take to text = pre ++ fn ++ str "(" ++ ws ->
  length fn + 1 + length ws <= lookbehindLimit ->
  (fn = str "s" \/ fn = str "sound" ->
   soundHandler ctx sources = Some (mkResult (Z.of_nat to) [])) /\
  (fn = str "bank" -> bankHandler ctx sources = Some (mkResult (Z.of_nat to) [])) /\
  (fn = str "chord" ->
   chordHandler chordSymbolCompletions ctx = Some (mkResult (Z.of_nat to) [])) /\
  (fn = str "scale" -> scaleHandler ctx = Some (mkResult (Z.of_nat to) [])) /\
  (fn = str "mode" -> modeHandler ctx = Some (mkResult (Z.of_nat to) [])).
Proof.
  intros ctx to Hws E Hl.
  assert (F : forall name,
             (forall s i, litAt s i fn -> matches s name i (i + length fn)) ->
             exists w, matchBefore ctx (noQuotes name) = Some w /\ m_to w = to).
  { intros name Hname. eapply noQuotes_found; eauto. }
  repeat split.
  - intros Hfn. destruct (F soundName) as (w & Hw & Hto).
    { intros s i. apply matches_soundName. exact Hfn. }
    unfold soundHandler, SOUND_NO_QUOTES_REGEX. rewrite Hw, Hto. reflexivity.
  - intros ->. destruct (F (Lit (str "bank"))) as (w & Hw & Hto); [intros; by apply matches_lit|].
    unfold bankHandler, BANK_NO_QUOTES_REGEX. rewrite Hw, Hto. reflexivity.
  - intros ->. destruct (F (Lit (str "chord"))) as (w & Hw & Hto); [intros; by apply matches_lit|].
    unfold chordHandler, CHORD_NO_QUOTES_REGEX. rewrite Hw, Hto. reflexivity.
  - intros ->. destruct (F (Lit (str "scale"))) as (w & Hw & Hto); [intros; by apply matches_lit|].
    unfold scaleHandler, SCALE_NO_QUOTES_REGEX. rewrite Hw, Hto. reflexivity.
  - intros ->. destruct (F (Lit (str "mode"))) as (w & Hw & Hto); [intros; by apply matches_lit|].
    unfold modeHandler, MODE_NO_QUOTES_REGEX. rewrite Hw, Hto. reflexivity.
Qed.

(** X2. [complete] right after [s(] or [sound(], with at most white space
    after the parenthesis and the call, from its name to the cursor, within
    the 8192 characters that [complete] looks behind: the result is the
    empty list of options at the cursor, inside a string or not, whatever
    comes before the call. *)
Theorem complete_sound_open_paren (chordSymbolCompletions : list CmCompletionOption)
    (text : jsstring) (cursorOffset : Z) (explicit : bool) (docIndex : DocIndex)
    (sources : option DynamicSources) (pre fn ws : jsstring) :
  let to := clamp cursorOffset (length text) in
  fn = str "s" \/ fn = str "sound" ->
  forallb isSpace ws = true ->
  take to text = pre ++ fn ++ str "(" ++ ws ->
  length fn + 1 + length ws <= 8192 ->
  complete chordSymbolCompletions text cursorOffset explicit docIndex sources =
    Some (mkResult (Z.of_nat to) []).
Proof.
  intros to Hfn Hws E Hl.
  destruct (noQuotes_found soundName text cursorOffset explicit 8192 pre fn ws) as (w & Hw & Hto);
    auto.
  { intros s i. apply matches_soundName. exact Hfn. }
  unfold complete.
  assert (S : soundHandler (makeContext text cursorOffset explicit 8192)
                (default (mkSources None None) sources) = Some (mkResult (Z.of_nat to) [])).
  { unfold soundHandler, SOUND_NO_QUOTES_REGEX. rewrite Hw, Hto. reflexivity. }
  destruct (isInsideString text cursorOffset); cbn [firstResult]; rewrite S; reflexivity.
Qed.

(** ** What the call patterns require of the text *)

Lemma noQuotes_inv s name i j :
  matches s (noQuotes name) i j ->
  exists p, i <= p < j /\ s !! p = Some lparen /\ j = length s /\
    forall q, p < q < j -> exists c, s !! q = Some c /\ isSpace c = true.
Proof.
  unfold noQuotes, Seqs. intros H.
  apply matches_seq_inv in H as (j1 & H1 & H).
  apply matches_seq_inv in H as (j2 & H2 & H).
  apply matches_seq_inv in H as (j3 & H3 & H4).
  apply matches_bounds in H1.
  apply matches_chr_inv in H2 as (ch & -> & Hch & Hq).
  apply ceq_eq in Hq. subst ch.
  apply matches_eol_inv in H4 as [-> ->].
  pose proof (matches_bounds _ _ _ _ H3).
  exists j1. repeat split; try lia; auto.
  intros q Hq. eapply matches_star_chr; [exact H3 | lia].
Qed.

Lemma span_lookup text cursorOffset explicit limit re w p :
  matchBefore (makeContext text cursorOffset explicit limit) re = Some w ->
  p < length (m_text w) ->
  m_text w !! p = take (clamp cursorOffset (length text)) text !! (m_from w + p) /\
  m_from w + length (m_text w) = clamp cursorOffset (length text).
Proof.
  intros H Hp. apply matchBefore_span in H as (Hto & _ & Hle & Ht & _).
  set (to := clamp cursorOffset (length text)) in *.
  assert (to <= length text) by apply clamp_le.
  assert (L : length (m_text w) = to - m_from w) by (rewrite Ht, slice_length; lia).
  split; [|lia].
  rewrite Ht at 1. rewrite Hto, slice_lookup by lia.
  rewrite lookup_take_lt by lia. reflexivity.
Qed.

Lemma isQuote12_not_space q : isQuote12 q = true -> isSpace q = false /\ q <> lparen.
Proof. intros H. destruct (isQuote12_cases _ H) as [-> | ->]; split; (reflexivity || discriminate). Qed.

(** No [name(] with white space alone up to the cursor, when a quote
    follows the last parenthesis. *)
Lemma noQuotes_absent name text cursorOffset explicit limit front q body :
  take (clamp cursorOffset (length text)) text = front ++ [q] ++ body ->
  isQuote12 q = true -> lparen ∉ body ->
  matchBefore (makeContext text cursorOffset explicit limit) (noQuotes name) = None.
Proof.
  intros E Hq Hb.
  destruct (matchBefore _ _) as [w|] eqn:Hw; [exfalso|reflexivity].
  pose proof (matchBefore_matches _ _ _ _ _ _ Hw) as Hm.
  apply noQuotes_inv in Hm as (p & Hp & Hpar & _ & Hsp).
  destruct (isQuote12_not_space _ Hq) as [Hq1 Hq2].
  set (to := clamp cursorOffset (length text)) in *.
  assert (Lto : to = length front + 1 + length body).
  { pose proof (clamp_le cursorOffset (length text)).
    rewrite <- (length_take_le text to) by (unfold to; lia).
    rewrite E, !length_app. simpl. lia. }
  destruct (span_lookup _ _ _ _ _ _ p Hw) as [Lp Lfrom]; [lia|].
  fold to in Lp, Lfrom. rewrite E in Lp.
  destruct (Nat.lt_trichotomy (m_from w + p) (length front)) as [Hlt|[Heq|Hgt]].
  - (* the quote lies after the parenthesis: it would be a space *)
    destruct (Hsp (length front - m_from w)) as (c & Hc & Hs); [lia|].
    destruct (span_lookup _ _ _ _ _ _ (length front - m_from w) Hw) as [Lq _]; [lia|].
    fold to in Lq. rewrite E in Lq.
    replace (m_from w + (length front - m_from w)) with (length front) in Lq by lia.
    rewrite lookup_app_r, Nat.sub_diag in Lq by lia. simpl in Lq.
    rewrite Lq in Hc. injection Hc as <-. congruence.
  - rewrite Heq, lookup_app_r, Nat.sub_diag in Lp by lia. simpl in Lp.
    rewrite Lp in Hpar. injection Hpar as ->. contradiction.
  - rewrite Hpar in Lp. symmetry in Lp.
    rewrite lookup_app_r in Lp by lia.
    rewrite lookup_app_r in Lp by (simpl; lia).
    apply Hb. eapply list_elem_of_lookup_2. exact Lp.
Qed.

Lemma matches_withQuotes name pre fn ws q body :
  (forall s i, litAt s i fn -> matches s name i (i + length fn)) ->
  forallb isSpace ws = true -> isQuote12 q = true -> forallb notQuote12 body = true ->
  let s := pre ++ fn ++ str "(" ++ ws ++ [q] ++ body in
  matches s (withQuotes name) (length pre) (length s).
Proof.
  intros Hname Hws Hq Hbody s. unfold withQuotes, Seqs.
  assert (L : length s = length pre + length fn + 1 + length ws + 1 + length body).
  { unfold s. rewrite !length_app. simpl. lia. }
  econstructor; [apply Hname; apply litAt_app|].
  econstructor.
  { econstructor; [|apply ceq_refl]. unfold s.
    rewrite app_assoc, lookup_app_r by (rewrite length_app; lia).
    rewrite length_app, Nat.sub_diag. reflexivity. }
  econstructor.
  { apply (matches_star_class s isSpace (length ws)). intros x Hx.
    destruct (lookup_run (pre ++ fn ++ str "(") ws ([q] ++ body) x) as (ch & Hch & Hin).
    { rewrite !length_app. simpl. lia. }
    exists ch. split; [|eapply forallb_elem; eauto].
    unfold s. rewrite <- Hch. f_equal. rewrite <- !app_assoc. reflexivity. }
  econstructor.
  { econstructor; [|exact Hq]. unfold s.
    replace (pre ++ fn ++ str "(" ++ ws ++ [q] ++ body)
      with ((pre ++ fn ++ str "(" ++ ws) ++ [q] ++ body) by (rewrite <- !app_assoc; reflexivity).
    rewrite lookup_app_r by (rewrite !length_app; simpl; lia).
    replace (S (length pre + length fn) + length ws - length (pre ++ fn ++ str "(" ++ ws))
      with 0 by (rewrite !length_app; simpl; lia).
    reflexivity. }
  econstructor; [|constructor; reflexivity].
  replace (length s) with (S (S (length pre + length fn) + length ws) + length body) by lia.
  apply matches_star_class. intros x Hx.
  destruct (lookup_run (pre ++ fn ++ str "(" ++ ws ++ [q]) body [] x) as (ch & Hch & Hin).
  { rewrite !length_app. simpl. lia. }
  exists ch. split; [|eapply forallb_elem; eauto].
  unfold s. rewrite app_nil_r in Hch. rewrite <- Hch. f_equal.
  rewrite <- !app_assoc. reflexivity.
Qed.

Lemma withQuotes_found name text cursorOffset explicit limit pre fn ws q body :
  (forall s i, litAt s i fn -> matches s name i (i + length fn)) ->
  forallb isSpace ws = true -> isQuote12 q = true -> forallb notQuote12 body = true ->
  take (clamp cursorOffset (length text)) text = pre ++ fn ++ str "(" ++ ws ++ [q] ++ body ->
  length fn + 1 + length ws + 1 + length body <= limit ->
  is_Some (matchBefore (makeContext text cursorOffset explicit limit) (withQuotes name)).
Proof.
  intros Hname Hws Hq Hbody E Hl.
  destruct (window_tail text cursorOffset limit pre (fn ++ str "(" ++ ws ++ [q] ++ body) E)
    as [pre' W].
  { rewrite !length_app. simpl. lia. }
  apply (matchBefore_complete (withQuotes name) text cursorOffset explicit limit (length pre')).
  - apply withQuotes_anchored.
  - rewrite W. apply matches_withQuotes; assumption.
Qed.

Lemma afterLastQuote_body text cursorOffset front q body :
  take (clamp cursorOffset (length text)) text = front ++ [q] ++ body ->
  isQuote12 q = true -> forallb notQuote12 body = true ->
  afterLastQuote text cursorOffset = body.
Proof.
  intros E Hq Hb. unfold afterLastQuote. rewrite E.
  rewrite rev_app_distr. simpl. rewrite <- app_assoc. simpl.
  rewrite takeWhile_all; [apply rev_involutive | |].
  - intros x Hx. apply list_elem_of_In, in_rev, list_elem_of_In in Hx.
    eapply forallb_elem; eauto.
  - unfold notQuote12. rewrite Hq. reflexivity.
Qed.

(** ** The quoted argument of a call *)

Lemma isWord_not_delim c : isWord c = true -> isDelim c = false.
Proof.
  destruct c as [[] [] [] [] [] [] [] []]; vm_compute; congruence.
Qed.

Lemma fragmentOf_word body cls :
  forallb (fun c => negb (isDelim c)) body = true ->
  fragmentOf body (fragmentMatch cls) = body.
Proof.
  intros Hb. unfold fragmentOf.
  destruct (match_ body (fragmentMatch cls)) as [m|] eqn:M; [exfalso|reflexivity].
  unfold match_ in M. apply exec_ok_intro in M as [_ _ _ _ Hm].
  unfold fragmentMatch, Seqs in Hm.
  apply matches_seq_inv in Hm as (j & H1 & _).
  apply matches_chr_inv in H1 as (ch & _ & Hch & Hd).
  apply list_elem_of_lookup_2 in Hch.
  pose proof (forallb_elem _ _ _ Hb Hch) as Hn. simpl in Hn.
  rewrite Hd in Hn. discriminate.
Qed.

Lemma forallb_impl {A} (p q : A -> bool) l :
  (forall x, p x = true -> q x = true) -> forallb p l = true -> forallb q l = true.
Proof.
  intros H. induction l as [|x l IH]; simpl; [reflexivity|].
  rewrite !andb_true_iff. intros [Hx Hl]. split; auto.
Qed.

Lemma plain_notQuote body : forallb plainChar body = true -> forallb notQuote12 body = true.
Proof. apply forallb_impl. intros x H. apply andb_prop in H. tauto. Qed.

Lemma plain_no_paren body : forallb plainChar body = true -> lparen ∉ body.
Proof.
  intros H Hin. pose proof (forallb_elem _ _ _ H Hin) as Hp.
  unfold plainChar in Hp. rewrite ceq_refl, andb_false_r in Hp. discriminate.
Qed.

(** A quoted argument of [name(]: what the handlers that read it find. *)
Lemma quoted_argument name text cursorOffset explicit limit pre fn ws q body :
  (forall s i, litAt s i fn -> matches s name i (i + length fn)) ->
  forallb isSpace ws = true -> isQuote12 q = true -> forallb plainChar body = true ->
  take (clamp cursorOffset (length text)) text = pre ++ fn ++ str "(" ++ ws ++ [q] ++ body ->
  length fn + 1 + length ws + 1 + length body <= limit ->
  let ctx := makeContext text cursorOffset explicit limit in
  let to := clamp cursorOffset (length text) in
  matchBefore ctx (noQuotes name) = None /\
  exists w, matchBefore ctx (withQuotes name) = Some w /\ m_to w = to /\
    (lastQuoteIdx (m_text w) =? -1)%Z = false /\
    drop (Z.to_nat (lastQuoteIdx (m_text w) + 1)) (m_text w) = body /\
    length body <= to.
Proof.
  intros Hname Hws Hq Hbody E Hl ctx to.
  pose proof (plain_notQuote _ Hbody) as Hnq.
  split.
  - apply (noQuotes_absent name text cursorOffset explicit limit
             (pre ++ fn ++ str "(" ++ ws) q body); auto.
    + rewrite E, <- !app_assoc. reflexivity.
    + apply plain_no_paren, Hbody.
  - destruct (withQuotes_found name text cursorOffset explicit limit pre fn ws q body)
      as [w Hw]; auto.
    exists w. split; [exact Hw|].
    pose proof (withQuotes_inside _ _ _ _ _ _ Hw) as Hin.
    rewrite (afterLastQuote_body text cursorOffset (pre ++ fn ++ str "(" ++ ws) q body) in Hin;
      auto; [|rewrite E, <- !app_assoc; reflexivity].
    apply withQuotes_span in Hw as (Hto & Hqi & _).
    repeat split; auto.
    pose proof (clamp_le cursorOffset (length text)).
    fold to in E. assert (L : length (take to text) = to) by (rewrite length_take; unfold to; lia).
    rewrite E, !length_app in L. simpl in L. lia.
Qed.

(** ** The names that the call patterns accept *)

Lemma matches_lit_inv s lit : forall i j,
  matches s (Lit lit) i j -> j = i + length lit /\ litAt s i lit.
Proof.
  induction lit as [|c lit IH]; intros i j H.
  - simpl in H. inversion H; subst. split; [simpl; lia|]. intros k c Hk. discriminate.
  - assert (Hc : forall j', matches s (Lit1 c) i j' -> j' = S i /\ s !! i = Some c).
    { intros j' H'. apply matches_chr_inv in H' as (ch & -> & Hch & Hq).
      apply ceq_eq in Hq. subst. auto. }
    destruct lit as [|c' lit'].
    + simpl in H. apply Hc in H as [-> Hi]. split; [simpl; lia|].
      intros [|k] x Hk; [|discriminate]. injection Hk as <-. rewrite Nat.add_0_r. exact Hi.
    + change (Lit (c :: c' :: lit')) with (Seq (Lit1 c) (Lit (c' :: lit'))) in H.
      apply matches_seq_inv in H as (j1 & H1 & H2).
      apply Hc in H1 as [-> Hi]. apply IH in H2 as [-> Hl].
      split; [simpl; lia|].
      intros [|k] x Hk.
      * injection Hk as <-. rewrite Nat.add_0_r. exact Hi.
      * replace (i + S k) with (S i + k) by lia. apply Hl. exact Hk.
Qed.

Lemma accepts_lit lit : accepts (Lit lit) [lit].
Proof.
  intros s i j H. apply matches_lit_inv in H as [-> H]. exists lit. split; [left|auto].
Qed.

Lemma matches_alt_inv s a b i j :
  matches s (Alt a b) i j -> matches s a i j \/ matches s b i j.
Proof. intros H. inversion H; subst; auto. Qed.

Lemma matches_cap_inv s n a i j : matches s (Cap n a) i j -> matches s a i j.
Proof. intros H. inversion H; subst; auto. Qed.

Lemma accepts_soundName : accepts soundName [str "s"; str "sound"].
Proof.
  intros s i j H. unfold soundName in H.
  apply matches_cap_inv, matches_alt_inv in H as [H|H];
    apply matches_lit_inv in H as [-> Hl].
  - exists (str "s"). split; [left | auto].
  - exists (str "sound"). split; [right; left | auto].
Qed.

Lemma seq_eqb_eq a : forall b, seq_eqb a b = true <-> a = b.
Proof.
  induction a as [|x a IH]; intros [|y b]; simpl; split; try congruence; try discriminate.
  - rewrite andb_true_iff, ceq_eq, IH. intros [-> ->]. reflexivity.
  - intros H. injection H as -> ->. rewrite ceq_refl. simpl. apply IH. reflexivity.
Qed.

(** Two literals that end at the same place: one is an end part of the
    other. *)
Lemma litAt_same_end s i1 i2 l1 l2 :
  litAt s i1 l1 -> litAt s i2 l2 -> i1 + length l1 = i2 + length l2 ->
  length l1 <= length l2 -> suffixb l1 l2 = true.
Proof.
  intros H1 H2 He Hl. unfold suffixb. apply seq_eqb_eq.
  apply list_eq. intros k. rewrite lookup_drop.
  destruct (l1 !! k) as [c|] eqn:E1.
  - pose proof (lookup_lt_Some _ _ _ E1).
    destruct (lookup_lt_is_Some_2 l2 (length l2 - length l1 + k)) as [c' E2]; [lia|].
    rewrite E2. apply H1 in E1. apply H2 in E2.
    replace (i2 + (length l2 - length l1 + k)) with (i1 + k) in E2 by lia. congruence.
  - apply lookup_ge_None in E1. symmetry. apply lookup_ge_None. lia.
Qed.

(** ** Calls of other functions *)

Lemma withQuotes_inv_full s name i j :
  matches s (withQuotes name) i j ->
  exists j1 j3 ch, matches s name i j1 /\ j1 < j3 < j /\
    s !! j1 = Some lparen /\
    (forall x, j1 < x < j3 -> exists c, s !! x = Some c /\ isSpace c = true) /\
    s !! j3 = Some ch /\ isQuote12 ch = true /\
    (forall x, j3 < x < j -> exists c, s !! x = Some c /\ notQuote12 c = true).
Proof.
  unfold withQuotes, Seqs. intros H.
  apply matches_seq_inv in H as (j1 & H1 & H).
  apply matches_seq_inv in H as (j2 & H2 & H).
  apply matches_seq_inv in H as (j3 & H3 & H).
  apply matches_seq_inv in H as (j4 & H4 & H).
  apply matches_seq_inv in H as (j5 & H5 & H6).
  apply matches_chr_inv in H2 as (c2 & -> & Hc2 & E2). apply ceq_eq in E2. subst c2.
  apply matches_chr_inv in H4 as (ch & -> & Hch & Hq).
  apply matches_eol_inv in H6 as [-> ->].
  pose proof (matches_bounds _ _ _ _ H3) as [B3 _].
  pose proof (matches_bounds _ _ _ _ H5) as [B5 _].
  exists j1, j3, ch. repeat split; auto; try lia.
  - intros x Hx. eapply matches_star_chr; [exact H3 | lia].
  - intros x Hx. eapply matches_star_chr; [exact H5 | lia].
Qed.

(** The characters of a text that ends with [fn(], white space, a quote
    and [body]. *)
Lemma shape_lookup (pre fn ws body : jsstring) (q : ascii) :
  let T := pre ++ fn ++ str "(" ++ ws ++ [q] ++ body in
  let Pp := length pre + length fn in
  let P := Pp + 1 + length ws in
  T !! Pp = Some lparen /\
  (forall x, Pp < x < P -> exists c, T !! x = Some c /\ c ∈ ws) /\
  T !! P = Some q /\
  (forall x c, P < x -> T !! x = Some c -> c ∈ body) /\
  length T = P + 1 + length body.
Proof.
  intros T Pp P. subst T Pp P.
  assert (E1 : pre ++ fn ++ str "(" ++ ws ++ [q] ++ body =
               (pre ++ fn) ++ str "(" ++ ws ++ [q] ++ body)
    by (rewrite <- !app_assoc; reflexivity).
  assert (E2 : pre ++ fn ++ str "(" ++ ws ++ [q] ++ body =
               (pre ++ fn ++ str "(") ++ ws ++ [q] ++ body)
    by (rewrite <- !app_assoc; reflexivity).
  assert (E3 : pre ++ fn ++ str "(" ++ ws ++ [q] ++ body =
               (pre ++ fn ++ str "(" ++ ws) ++ [q] ++ body)
    by (rewrite <- !app_assoc; reflexivity).
  repeat split.
  - rewrite E1, lookup_app_r by (rewrite length_app; lia).
    rewrite length_app, Nat.sub_diag. reflexivity.
  - intros x Hx. rewrite E2.
    destruct (lookup_run (pre ++ fn ++ str "(") ws ([q] ++ body) x) as (c & Hc & Hin);
      [rewrite !length_app; simpl; lia | eauto].
  - rewrite E3, lookup_app_r by (rewrite !length_app; simpl; lia).
    replace (_ - _) with 0 by (rewrite !length_app; simpl; lia). reflexivity.
  - intros x c Hx Hc. rewrite E3 in Hc.
    rewrite lookup_app_r in Hc by (rewrite !length_app; simpl; lia).
    rewrite lookup_app_r in Hc by (rewrite !length_app; simpl; lia).
    eapply list_elem_of_lookup_2. exact Hc.
  - rewrite !length_app. simpl. lia.
Qed.

Lemma isSpace_not_paren c : isSpace c = true -> c <> lparen.
Proof. intros H ->. discriminate. Qed.

Lemma isSpace_not_quote c : isSpace c = true -> isQuote12 c = false.
Proof.
  intros H. destruct (isQuote12 c) eqn:Q; [|reflexivity].
  destruct (isQuote12_cases _ Q) as [-> | ->]; discriminate.
Qed.

(** A pattern [withQuotes name] finds nothing before the cursor when the
    function called there has another name. *)
Lemma withQuotes_absent name lits text cursorOffset explicit limit pre fn ws q body :
  accepts name lits ->
  (forall lit, lit ∈ lits -> suffixb lit fn = false /\ suffixb fn lit = false) ->
  forallb isSpace ws = true -> isQuote12 q = true -> forallb plainChar body = true ->
  take (clamp cursorOffset (length text)) text = pre ++ fn ++ str "(" ++ ws ++ [q] ++ body ->
  matchBefore (makeContext text cursorOffset explicit limit) (withQuotes name) = None.
Proof.
  intros Hacc Hlits Hws Hq Hbody E.
  destruct (matchBefore _ _) as [w|] eqn:Hw; [exfalso|reflexivity].
  pose proof (matchBefore_matches _ _ _ _ _ _ Hw) as Hm.
  apply withQuotes_inv_full in Hm as (j1 & j3 & ch & Hn & Hj & Hpar & Hsp & Hch & Hqc & Hnq).
  destruct (shape_lookup pre fn ws body q) as (Tp & Tws & Tq & Tb & TL).
  set (T := pre ++ fn ++ str "(" ++ ws ++ [q] ++ body) in *.
  set (Pp := length pre + length fn) in *.
  set (P := Pp + 1 + length ws) in *.
  set (f := m_from w).
  assert (L : forall x, x < length (m_text w) -> m_text w !! x = T !! (f + x)).
  { intros x Hx. destruct (span_lookup _ _ _ _ _ _ x Hw Hx) as [H _]. rewrite H, E. reflexivity. }
  assert (Lend : f + length (m_text w) = length T).
  { destruct (span_lookup _ _ _ _ _ _ j1 Hw) as [_ H]; [lia|].
    unfold f. rewrite H. subst T. rewrite <- E, length_take. pose proof (clamp_le cursorOffset (length text)). lia. }
  pose proof (plain_notQuote _ Hbody) as Hbnq.
  (* the quote of the match is the quote of the call *)
  assert (E3 : f + j3 = P).
  { destruct (Nat.lt_trichotomy (f + j3) P) as [Hlt|[Heq|Hgt]]; [exfalso|exact Heq|exfalso].
    - destruct (Hnq (P - f)) as (c & Hc & Hcn); [lia|].
      rewrite L in Hc by lia. replace (f + (P - f)) with P in Hc by lia.
      rewrite Tq in Hc. injection Hc as <-. unfold notQuote12 in Hcn. rewrite Hq in Hcn. discriminate.
    - rewrite L in Hch by lia. apply Tb in Hch; [|lia].
      pose proof (forallb_elem _ _ _ Hbnq Hch) as Hx. unfold notQuote12 in Hx.
      rewrite Hqc in Hx. discriminate. }
  (* and its parenthesis the parenthesis of the call *)
  assert (E1 : f + j1 = Pp).
  { destruct (Nat.lt_trichotomy (f + j1) Pp) as [Hlt|[Heq|Hgt]]; [exfalso|exact Heq|exfalso].
    - destruct (Hsp (Pp - f)) as (c & Hc & Hcs); [lia|].
      rewrite L in Hc by lia. replace (f + (Pp - f)) with Pp in Hc by lia.
      rewrite Tp in Hc. injection Hc as <-. discriminate.
    - rewrite L in Hpar by lia.
      destruct (Tws (f + j1)) as (c & Hc & Hin); [lia|].
      rewrite Hc in Hpar. injection Hpar as ->.
      pose proof (forallb_elem _ _ _ Hws Hin). discriminate. }
  apply Hacc in Hn as (lit & Hlit & Ej & Hl). simpl in Ej.
  assert (HlT : litAt T f lit).
  { intros k c Hk. pose proof (lookup_lt_Some _ _ _ Hk). rewrite <- L by lia.
    apply (Hl k c Hk). }
  assert (HfT : litAt T (length pre) fn) by apply litAt_app.
  destruct (Hlits lit Hlit) as [S1 S2].
  destruct (decide (length lit <= length fn)).
  - rewrite (litAt_same_end T f (length pre) lit fn) in S1; auto; [discriminate | lia].
  - rewrite (litAt_same_end T (length pre) f fn lit) in S2; auto; [discriminate | lia | lia].
Qed.

Lemma star_app s a i j k :
  matches s (Star a) i j -> matches s (Star a) j k -> matches s (Star a) i k.
Proof.
  intros H. remember (Star a) as r eqn:R. revert k.
  induction H; try discriminate; intros k' H'; [exact H'|].
  injection R as ->. eapply M_StarCons; eauto.
Qed.

Lemma afterColon_withQuotes s name i j :
  matches s (afterColon name) i j -> matches s (withQuotes name) i j.
Proof.
  unfold afterColon, withQuotes, Seqs. intros H.
  apply matches_seq_inv in H as (j1 & H1 & H).
  apply matches_seq_inv in H as (j2 & H2 & H).
  apply matches_seq_inv in H as (j3 & H3 & H).
  apply matches_seq_inv in H as (j4 & H4 & H).
  apply matches_seq_inv in H as (j5 & H5 & H).
  apply matches_seq_inv in H as (j6 & H6 & H).
  apply matches_seq_inv in H as (j7 & H7 & H8).
  apply M_Seq with j1; [exact H1|]. apply M_Seq with j2; [exact H2|].
  apply M_Seq with j3; [exact H3|]. apply M_Seq with j4; [exact H4|].
  apply M_Seq with j7; [|exact H8].
  eapply star_app; [exact H5|].
  apply matches_chr_inv in H6 as (c & -> & Hc & Ec). apply ceq_eq in Ec. subst c.
  eapply M_StarCons; [econstructor; [exact Hc | reflexivity] | lia | exact H7].
Qed.

Lemma afterColon_absent name text cursorOffset explicit limit :
  matchBefore (makeContext text cursorOffset explicit limit) (withQuotes name) = None ->
  matchBefore (makeContext text cursorOffset explicit limit) (afterColon name) = None.
Proof.
  intros Hw.
  destruct (matchBefore _ (afterColon name)) as [w|] eqn:Ha; [exfalso|reflexivity].
  pose proof (matchBefore_span _ _ _ _ _ _ Ha) as (_ & Hwf & Hle & _ & Hm).
  apply afterColon_withQuotes in Hm.
  destruct (matchBefore_complete (withQuotes name) text cursorOffset explicit limit
              (m_from w - (clamp cursorOffset (length text) - limit))
              (withQuotes_anchored name)) as [w' Hw'].
  - pose proof (window_length text cursorOffset limit) as WL. cbv zeta in WL.
    rewrite WL. exact Hm.
  - rewrite Hw in Hw'. discriminate.
Qed.

(** ** A call before the cursor *)

Lemma afterColon_inv_full s name i j :
  matches s (afterColon name) i j ->
  exists j3 p ch, i < j3 < p /\ p < j /\ j = length s /\
    s !! j3 = Some ch /\ isQuote12 ch = true /\
    (forall x, j3 < x < j -> exists c, s !! x = Some c /\ notQuote12 c = true) /\
    s !! p = Some colon.
Proof.
  unfold afterColon, Seqs. intros H.
  apply matches_seq_inv in H as (j1 & H1 & H).
  apply matches_seq_inv in H as (j2 & H2 & H).
  apply matches_seq_inv in H as (j3 & H3 & H).
  apply matches_seq_inv in H as (j4 & H4 & H).
  apply matches_seq_inv in H as (j5 & H5 & H).
  apply matches_seq_inv in H as (j6 & H6 & H).
  apply matches_seq_inv in H as (j7 & H7 & H8).
  apply matches_chr_inv in H2 as (c2 & -> & Hc2 & E2).
  apply matches_chr_inv in H4 as (ch & -> & Hch & Hq).
  apply matches_chr_inv in H6 as (c6 & -> & Hc6 & E6). apply ceq_eq in E6. subst c6.
  apply matches_eol_inv in H8 as [-> ->].
  pose proof (matches_bounds _ _ _ _ H1) as [B1 _].
  pose proof (matches_bounds _ _ _ _ H3) as [B3 _].
  pose proof (matches_bounds _ _ _ _ H5) as [B5 _].
  pose proof (matches_bounds _ _ _ _ H7) as [B7 _].
  exists j3, j5, ch. repeat split; auto; try lia.
  intros x Hx.
  destruct (decide (x < j5)); [eapply matches_star_chr; [exact H5 | lia]|].
  destruct (decide (x = j5)) as [->|]; [exists colon; split; [exact Hc6 | reflexivity]|].
  eapply matches_star_chr; [exact H7 | lia].
Qed.

Section Shape.
Variables (text : jsstring) (cursorOffset : Z) (explicit : bool) (limit : nat).
Variables (pre fn ws : jsstring) (q : ascii) (body : jsstring).
Hypothesis Hshape : callShape text cursorOffset pre fn ws q body.

Let ctx := makeContext text cursorOffset explicit limit.
Let to := clamp cursorOffset (length text).
Let P := length pre + length fn + 1 + length ws.

Lemma shape_to : to = P + 1 + length body.
Proof.
  destruct Hshape as [E _ _ _].
  pose proof (shape_lookup pre fn ws body q) as TL. cbv zeta in TL.
  destruct TL as (_ & _ & _ & _ & TL).
  pose proof (clamp_le cursorOffset (length text)).
  assert (L : length (take to text) = to) by (rewrite length_take; unfold to; lia).
  unfold to in L at 1. rewrite E in L. unfold P. lia.
Qed.

(** The last quote of a span that ends at the cursor is the quote of the
    call. *)
Lemma shape_quote_at re w j3 ch :
  matchBefore ctx re = Some w ->
  j3 < length (m_text w) ->
  m_text w !! j3 = Some ch -> isQuote12 ch = true ->
  (forall x, j3 < x < length (m_text w) ->
     exists c, m_text w !! x = Some c /\ notQuote12 c = true) ->
  m_from w + j3 = P.
Proof.
  intros Hw Hj Hch Hqc Hnq.
  destruct Hshape as [E Hws Hq Hbody].
  pose proof (shape_lookup pre fn ws body q) as TT. cbv zeta in TT.
  destruct TT as (Tp & Tws & Tq & Tb & TL).
  fold P in Tq, Tb, TL, Tws.
  assert (L : forall x, x < length (m_text w) ->
              m_text w !! x = (pre ++ fn ++ str "(" ++ ws ++ [q] ++ body) !! (m_from w + x)).
  { intros x Hx. destruct (span_lookup _ _ _ _ _ _ x Hw Hx) as [H _]. rewrite H, E. reflexivity. }
  assert (Lend : m_from w + length (m_text w) = P + 1 + length body).
  { destruct (span_lookup _ _ _ _ _ _ j3 Hw Hj) as [_ H]. rewrite H. apply shape_to. }
  pose proof (plain_notQuote _ Hbody) as Hbnq.
  destruct (Nat.lt_trichotomy (m_from w + j3) P) as [Hlt|[Heq|Hgt]]; [exfalso|exact Heq|exfalso].
  - destruct (Hnq (P - m_from w)) as (c & Hc & Hcn); [lia|].
    rewrite L in Hc by lia. replace (m_from w + (P - m_from w)) with P in Hc by lia.
    rewrite Tq in Hc. injection Hc as <-. unfold notQuote12 in Hcn. rewrite Hq in Hcn. discriminate.
  - rewrite L in Hch by lia. apply Tb in Hch; [|lia].
    pose proof (forallb_elem _ _ _ Hbnq Hch) as Hx. unfold notQuote12 in Hx.
    rewrite Hqc in Hx. discriminate.
Qed.

(** Without a colon in the argument, no pattern [afterColon] finds a span. *)
Lemma afterColon_absent_no_colon name :
  colon ∉ body -> matchBefore ctx (afterColon name) = None.
Proof.
  intros Hc.
  destruct (matchBefore ctx (afterColon name)) as [w|] eqn:Hw; [exfalso|reflexivity].
  pose proof (matchBefore_matches _ _ _ _ _ _ Hw) as Hm.
  apply afterColon_inv_full in Hm as (j3 & p & ch & Hj & Hp & _ & Hch & Hqc & Hnq & Hcol).
  pose proof (shape_quote_at _ w j3 ch Hw ltac:(lia) Hch Hqc Hnq) as E3.
  destruct Hshape as [E _ _ _].
  pose proof (shape_lookup pre fn ws body q) as TT. cbv zeta in TT.
  destruct TT as (_ & _ & _ & Tb & _). fold P in Tb.
  destruct (span_lookup _ _ _ _ _ _ p Hw Hp) as [Lp _]. rewrite E in Lp.
  rewrite Hcol in Lp. symmetry in Lp. apply Tb in Lp; [contradiction | lia].
Qed.
End Shape.

(** ** The handlers of other functions decline *)

Section Declines.
Variables (text : jsstring) (cursorOffset : Z) (explicit : bool) (limit : nat).
Variables (pre fn ws : jsstring) (q : ascii) (body : jsstring).
Hypothesis Hshape : callShape text cursorOffset pre fn ws q body.

Let ctx := makeContext text cursorOffset explicit limit.

Lemma other_name_absent name lits :
  accepts name lits -> unrelated lits fn = true ->
  matchBefore ctx (noQuotes name) = None /\
  matchBefore ctx (withQuotes name) = None /\
  matchBefore ctx (afterColon name) = None.
Proof.
  intros Hacc Hun. destruct Hshape as [E Hws Hq Hbody].
  assert (W : matchBefore ctx (withQuotes name) = None).
  { eapply withQuotes_absent; eauto.
    intros lit Hlit. pose proof (forallb_elem _ _ _ Hun Hlit) as H. simpl in H.
    apply andb_prop in H as [H1 H2]. rewrite negb_true_iff in H1, H2. auto. }
  split; [|split; [exact W | apply afterColon_absent; exact W]].
  apply (noQuotes_absent name text cursorOffset explicit limit (pre ++ fn ++ str "(" ++ ws) q body);
    auto.
  - rewrite E, <- !app_assoc. reflexivity.
  - apply plain_no_paren, Hbody.
Qed.

Lemma soundHandler_declines sources :
  unrelated [str "s"; str "sound"] fn = true -> soundHandler ctx sources = None.
Proof.
  intros H. destruct (other_name_absent soundName _ accepts_soundName H) as (N & W & _).
  unfold soundHandler, SOUND_NO_QUOTES_REGEX, SOUND_WITH_QUOTES_REGEX. fold ctx.
  rewrite N, W. reflexivity.
Qed.

Lemma bankHandler_declines sources :
  unrelated [str "bank"] fn = true -> bankHandler ctx sources = None.
Proof.
  intros H. destruct (other_name_absent _ _ (accepts_lit (str "bank")) H) as (N & W & _).
  unfold bankHandler, BANK_NO_QUOTES_REGEX, BANK_WITH_QUOTES_REGEX. fold ctx.
  rewrite N, W. reflexivity.
Qed.

Lemma chordHandler_declines syms :
  unrelated [str "chord"] fn = true -> chordHandler syms ctx = None.
Proof.
  intros H. destruct (other_name_absent _ _ (accepts_lit (str "chord")) H) as (N & W & _).
  unfold chordHandler, CHORD_NO_QUOTES_REGEX, CHORD_WITH_QUOTES_REGEX. fold ctx.
  rewrite N, W. reflexivity.
Qed.

Lemma scaleHandler_declines :
  unrelated [str "scale"] fn = true -> scaleHandler ctx = None.
Proof.
  intros H. destruct (other_name_absent _ _ (accepts_lit (str "scale")) H) as (N & W & A).
  unfold scaleHandler, SCALE_NO_QUOTES_REGEX, SCALE_AFTER_COLON_REGEX, SCALE_PRE_COLON_REGEX.
  fold ctx. rewrite N, W, A. reflexivity.
Qed.
End Declines.

Lemma callShape_argument text cursorOffset explicit limit pre fn ws q body name :
  callShape text cursorOffset pre fn ws q body ->
  (forall s i, litAt s i fn -> matches s name i (i + length fn)) ->
  length fn + 1 + length ws + 1 + length body <= limit ->
  let ctx := makeContext text cursorOffset explicit limit in
  let to := clamp cursorOffset (length text) in
  matchBefore ctx (noQuotes name) = None /\
  exists w, matchBefore ctx (withQuotes name) = Some w /\ m_to w = to /\
    (lastQuoteIdx (m_text w) =? -1)%Z = false /\
    drop (Z.to_nat (lastQuoteIdx (m_text w) + 1)) (m_text w) = body /\
    length body <= to.
Proof. intros [E Hws Hq Hb] Hname Hl. eapply quoted_argument; eauto. Qed.

(** X3. [complete] inside the string argument of [bank], the call from its
    name to the cursor within the 8192 characters that [complete] looks
    behind: the sound handler declines, and the options are the bank names,
    sorted, that start with what is typed after the quote, which they
    replace. *)
Theorem complete_bank_fragment (chordSymbolCompletions : list CmCompletionOption)
    (text : jsstring) (cursorOffset : Z) (explicit : bool) (docIndex : DocIndex)
    (sources : option DynamicSources) (pre ws body : jsstring) (q : ascii) :
  let to := clamp cursorOffset (length text) in
  let names := default [] (bankNames (default (mkSources None None) sources)) in
  callShape text cursorOffset pre (str "bank") ws q body ->
  4 + 1 + length ws + 1 + length body <= 8192 ->
  complete chordSymbolCompletions text cursorOffset explicit docIndex sources =
    Some (mkResult (Z.of_nat to - Z.of_nat (length body))
            (map (fun l => option2 l (str "bank"))
                 (List.filter (fun b => startsWith b body) (sort names)))).
Proof.
  intros to names Hshape Hl.
  destruct (callShape_argument text cursorOffset explicit 8192 pre (str "bank") ws q body
              (Lit (str "bank")) Hshape)
    as (Hno & w & Hw & Hto & Hqi & Hin & _); auto.
  { intros s i H. by apply matches_lit. }
  unfold complete.
  rewrite (soundHandler_declines text cursorOffset explicit 8192 _ _ _ _ _ Hshape) by reflexivity.
  assert (B : bankHandler (makeContext text cursorOffset explicit 8192)
                (default (mkSources None None) sources) =
              Some (mkResult (Z.of_nat to - Z.of_nat (length body))
                      (map (fun l => option2 l (str "bank"))
                           (List.filter (fun b => startsWith b body) (sort names))))).
  { unfold bankHandler, BANK_NO_QUOTES_REGEX, BANK_WITH_QUOTES_REGEX.
    rewrite Hno, Hw, Hqi, Hin, Hto. reflexivity. }
  destruct (isInsideString text cursorOffset); cbn [firstResult]; rewrite B; reflexivity.
Qed.

(** ** An argument with a colon *)

Lemma forallb_app_inv {A} (p : A -> bool) l1 l2 :
  forallb p (l1 ++ l2) = true -> forallb p l1 = true /\ forallb p l2 = true.
Proof. rewrite forallb_app, andb_true_iff. tauto. Qed.

Lemma matches_afterColon name pre fn ws q a b :
  (forall s i, litAt s i fn -> matches s name i (i + length fn)) ->
  forallb isSpace ws = true -> isQuote12 q = true ->
  forallb notQuote12 a = true -> forallb notQuote12 b = true ->
  let s := pre ++ fn ++ str "(" ++ ws ++ [q] ++ a ++ [colon] ++ b in
  matches s (afterColon name) (length pre) (length s).
Proof.
  intros Hname Hws Hq Ha Hb s. unfold afterColon, Seqs.
  assert (L : length s = length pre + length fn + 1 + length ws + 1 + length a + 1 + length b).
  { unfold s. rewrite !length_app. simpl. lia. }
  econstructor; [apply Hname; apply litAt_app|].
  econstructor.
  { econstructor; [|apply ceq_refl]. unfold s.
    rewrite app_assoc, lookup_app_r by (rewrite length_app; lia).
    rewrite length_app, Nat.sub_diag. reflexivity. }
  econstructor.
  { apply (matches_star_class s isSpace (length ws)). intros x Hx.
    destruct (lookup_run (pre ++ fn ++ str "(") ws ([q] ++ a ++ [colon] ++ b) x)
      as (ch & Hch & Hin).
    { rewrite !length_app. simpl. lia. }
    exists ch. split; [|eapply forallb_elem; eauto].
    unfold s. rewrite <- Hch. f_equal. rewrite <- !app_assoc. reflexivity. }
  econstructor.
  { econstructor; [|exact Hq]. unfold s.
    replace (pre ++ fn ++ str "(" ++ ws ++ [q] ++ a ++ [colon] ++ b)
      with ((pre ++ fn ++ str "(" ++ ws) ++ [q] ++ a ++ [colon] ++ b)
      by (rewrite <- !app_assoc; reflexivity).
    rewrite lookup_app_r by (rewrite !length_app; simpl; lia).
    replace (S (length pre + length fn) + length ws - length (pre ++ fn ++ str "(" ++ ws))
      with 0 by (rewrite !length_app; simpl; lia).
    reflexivity. }
  econstructor.
  { apply (matches_star_class s notQuote12 (length a)). intros x Hx.
    destruct (lookup_run (pre ++ fn ++ str "(" ++ ws ++ [q]) a ([colon] ++ b) x)
      as (ch & Hch & Hin).
    { rewrite !length_app. simpl. lia. }
    exists ch. split; [|eapply forallb_elem; [exact Ha|exact Hin]].
    unfold s. rewrite <- Hch. f_equal. rewrite <- !app_assoc. reflexivity. }
  econstructor.
  { econstructor; [|apply ceq_refl]. unfold s.
    replace (pre ++ fn ++ str "(" ++ ws ++ [q] ++ a ++ [colon] ++ b)
      with ((pre ++ fn ++ str "(" ++ ws ++ [q] ++ a) ++ [colon] ++ b)
      by (rewrite <- !app_assoc; reflexivity).
    rewrite lookup_app_r by (rewrite !length_app; simpl; lia).
    replace (_ - _) with 0 by (rewrite !length_app; simpl; lia).
    reflexivity. }
  econstructor; [|constructor; reflexivity].
  replace (length s)
    with (S (S (S (length pre + length fn) + length ws) + length a) + length b) by lia.
  apply matches_star_class. intros x Hx.
  destruct (lookup_run (pre ++ fn ++ str "(" ++ ws ++ [q] ++ a ++ [colon]) b [] x)
    as (ch & Hch & Hin).
  { rewrite !length_app. simpl. lia. }
  exists ch. split; [|eapply forallb_elem; eauto].
  unfold s. rewrite app_nil_r in Hch. rewrite <- Hch. f_equal.
  rewrite <- !app_assoc. reflexivity.
Qed.

Lemma afterColon_anchored name : endAnchored (afterColon name).
Proof. intros s i j H. apply afterColon_inv in H as (p & _ & _ & E). exact E. Qed.

(** The span of [afterColon] for a call whose argument has a colon, and
    what follows the last colon. *)
Lemma afterColon_argument name text cursorOffset explicit limit pre fn ws q a b :
  callShape text cursorOffset pre fn ws q (a ++ [colon] ++ b) ->
  (forall s i, litAt s i fn -> matches s name i (i + length fn)) ->
  colon ∉ b ->
  length fn + 1 + length ws + 1 + length (a ++ [colon] ++ b) <= limit ->
  let ctx := makeContext text cursorOffset explicit limit in
  let to := clamp cursorOffset (length text) in
  exists w, matchBefore ctx (afterColon name) = Some w /\
    (lastIndexOf (m_text w) colon =? -1)%Z = false /\
    drop (Z.to_nat (lastIndexOf (m_text w) colon + 1)) (m_text w) = b /\
    (Z.of_nat (m_from w) + lastIndexOf (m_text w) colon + 1 =
       Z.of_nat to - Z.of_nat (length b))%Z /\
    length b <= to.
Proof.
  intros [E Hws Hq Hbody] Hname Hcb Hl ctx to.
  pose proof (plain_notQuote _ Hbody) as Hnq.
  apply forallb_app_inv in Hnq as [Ha Hb']. apply forallb_app_inv in Hb' as [_ Hb].
  assert (Hto : to <= length text) by apply clamp_le.
  set (T := pre ++ fn ++ str "(" ++ ws ++ [q] ++ a ++ [colon] ++ b).
  assert (ET : take to text = T).
  { unfold to. rewrite E. unfold T. reflexivity. }
  assert (LT : to = length T) by (rewrite <- ET, length_take; lia).
  destruct (window_tail text cursorOffset limit pre (fn ++ str "(" ++ ws ++ [q] ++ a ++ [colon] ++ b))
    as [pre' W].
  { exact ET. }
  { rewrite !length_app in Hl. simpl in Hl. repeat (rewrite ?length_app, ?length_cons; simpl). lia. }
  destruct (matchBefore_complete (afterColon name) text cursorOffset explicit limit (length pre'))
    as [w Hw].
  { apply afterColon_anchored. }
  { rewrite W. apply matches_afterColon; assumption. }
  exists w. split; [exact Hw|].
  destruct (afterColon_span name text cursorOffset explicit limit w Hw)
    as (p & Hp & Hc & Hn & Ei & Hle & D).
  fold to in Hp, Hn, D.
  (* the last colon of the text is the colon before [b] *)
  set (C := length T - length b - 1).
  assert (TC : T !! C = Some colon /\ drop (S C) T = b).
  { unfold C, T.
    replace (pre ++ fn ++ str "(" ++ ws ++ [q] ++ a ++ [colon] ++ b)
      with ((pre ++ fn ++ str "(" ++ ws ++ [q] ++ a) ++ [colon] ++ b)
      by (rewrite <- !app_assoc; reflexivity).
    set (F := pre ++ fn ++ str "(" ++ ws ++ [q] ++ a).
    replace (length (F ++ [colon] ++ b) - length b - 1) with (length F)
      by (rewrite !length_app; simpl; lia).
    split.
    - rewrite lookup_app_r, Nat.sub_diag by lia. reflexivity.
    - replace (S (length F)) with (length (F ++ [colon])) by (rewrite length_app; simpl; lia).
      rewrite (app_assoc F [colon] b). apply drop_app_length. }
  destruct TC as [TC TD].
  assert (LC : C < to /\ length T = C + 1 + length b).
  { unfold C. rewrite LT. unfold T. rewrite !length_app. simpl. lia. }
  assert (S1 : forall x, x <= to -> slice text x to = drop x T).
  { intros x Hx. rewrite <- ET. unfold slice. rewrite take_drop_commute. f_equal. f_equal. lia. }
  assert (EpC : p = C).
  { destruct (Nat.lt_trichotomy p C) as [Hlt|[Heq|Hgt]]; [exfalso|exact Heq|exfalso].
    - apply Hn. rewrite S1 by lia. eapply list_elem_of_lookup_2 with (i := C - S p).
      rewrite lookup_drop. replace (S p + (C - S p)) with C by lia. exact TC.
    - apply Hcb. rewrite <- TD. eapply list_elem_of_lookup_2 with (i := p - S C).
      rewrite lookup_drop. replace (S C + (p - S C)) with p by lia.
      rewrite <- ET. rewrite lookup_take_lt by lia. exact Hc. }
  subst p. unfold colon in *. rewrite D, Ei, S1, TD by lia.
  split; [apply Z.eqb_neq; lia|]. split; [reflexivity|]. split; lia.
Qed.

(** ** Where the span of a call starts *)

(** The span of [withQuotes (Lit fn)] on a call of [fn] starts at the
    name. *)
Lemma shape_span_start text cursorOffset explicit limit pre fn ws q body w :
  callShape text cursorOffset pre fn ws q body ->
  matchBefore (makeContext text cursorOffset explicit limit) (withQuotes (Lit fn)) = Some w ->
  m_from w = length pre /\
  m_text w = fn ++ str "(" ++ ws ++ [q] ++ body.
Proof.
  intros Hshape Hw.
  pose proof (matchBefore_matches _ _ _ _ _ _ Hw) as Hm.
  apply withQuotes_inv_full in Hm as (j1 & j3 & ch & Hn & Hj & Hp & Hsp & Hch & Hqc & Hnq).
  pose proof (shape_quote_at text cursorOffset explicit limit pre fn ws q body Hshape
                _ w j3 ch Hw ltac:(lia) Hch Hqc Hnq) as E3.
  apply matches_lit_inv in Hn as [Ej1 _]. simpl in Ej1.
  destruct Hshape as [E Hws Hq Hbody].
  pose proof (shape_lookup pre fn ws body q) as TT. cbv zeta in TT.
  destruct TT as (Tp & Tws & Tq & Tb & TL).
  assert (L : forall x, x < length (m_text w) ->
              m_text w !! x = (pre ++ fn ++ str "(" ++ ws ++ [q] ++ body) !! (m_from w + x)).
  { intros x Hx. destruct (span_lookup _ _ _ _ _ _ x Hw Hx) as [H _]. rewrite H, E. reflexivity. }
  assert (Lend : m_from w + length (m_text w) = length (pre ++ fn ++ str "(" ++ ws ++ [q] ++ body)).
  { destruct (span_lookup _ _ _ _ _ _ j3 Hw ltac:(lia)) as [_ H]. rewrite H.
    rewrite <- E. rewrite length_take. pose proof (clamp_le cursorOffset (length text)). lia. }
  assert (F : m_from w = length pre).
  { set (Pp := length pre + length fn) in *.
    destruct (Nat.lt_trichotomy (m_from w + j1) Pp) as [Hlt|[Heq|Hgt]]; [exfalso|lia|exfalso].
    - destruct (Hsp (Pp - m_from w)) as (c & Hc & Hcs); [lia|].
      rewrite L in Hc by lia. replace (m_from w + (Pp - m_from w)) with Pp in Hc by lia.
      rewrite Tp in Hc. injection Hc as <-. discriminate.
    - rewrite L in Hp by lia.
      destruct (Tws (m_from w + j1)) as (c & Hc & Hin); [lia|].
      rewrite Hp in Hc. injection Hc as <-.
      pose proof (forallb_elem _ _ _ Hws Hin) as Hx. discriminate. }
  split; [exact F|].
  apply matchBefore_span in Hw as (Hto & _ & Hle & Ht & _).
  pose proof (clamp_le cursorOffset (length text)) as Hcl.
  assert (Lp : length pre <= clamp cursorOffset (length text)).
  { rewrite <- F, <- Hto. exact Hle. }
  rewrite Ht, Hto, F. unfold slice. rewrite take_drop_commute.
  replace (length pre + (clamp cursorOffset (length text) - length pre))
    with (clamp cursorOffset (length text)) by lia.
  rewrite E, drop_app_length. reflexivity.
Qed.

Lemma includesChar_false s c : c ∉ s -> includesChar s c = false.
Proof.
  intros H. unfold includesChar. destruct (existsb (ceq c) s) eqn:X; [exfalso|reflexivity].
  apply existsb_exists in X as (x & Hx & Hc). apply ceq_eq in Hc. subst x.
  apply H, list_elem_of_In, Hx.
Qed.

(** ** [complete] inside the argument of a call *)

(** X4. [complete] inside the string argument of [s] or [sound], the call
    from its name to the cursor within the 8192 characters that [complete]
    looks behind: the options are the sound names, sorted, that contain the
    fragment taken from what is typed after the quote, and they replace
    that fragment. The fragment is an end part of what is typed, and all of
    it when that is made of word characters. *)
Theorem complete_sound_fragment (chordSymbolCompletions : list CmCompletionOption)
    (text : jsstring) (cursorOffset : Z) (explicit : bool) (docIndex : DocIndex)
    (sources : option DynamicSources) (pre fn ws body : jsstring) (q : ascii) :
  let to := clamp cursorOffset (length text) in
  let names := default [] (soundNames (default (mkSources None None) sources)) in
  let fragment := extractSoundFragment body in
  fn = str "s" \/ fn = str "sound" ->
  callShape text cursorOffset pre fn ws q body ->
  length fn + 1 + length ws + 1 + length body <= 8192 ->
  complete chordSymbolCompletions text cursorOffset explicit docIndex sources =
    Some (mkResult (Z.of_nat to - Z.of_nat (length fragment))
            (map (fun l => option2 l (str "sound"))
                 (List.filter (fun name => includes name fragment) (sort names)))) /\
  length fragment <= length body /\
  (forallb isWord body = true -> fragment = body).
Proof.
  intros to names fragment Hfn [E Hws Hq Hbody] Hl.
  destruct (quoted_argument soundName text cursorOffset explicit 8192 pre fn ws q body)
    as (Hno & w & Hw & Hto & Hqi & Hin & _); auto.
  { intros s i. apply matches_soundName. exact Hfn. }
  split; [|split].
  - unfold complete.
    assert (S : soundHandler (makeContext text cursorOffset explicit 8192)
                  (default (mkSources None None) sources) =
                Some (mkResult (Z.of_nat to - Z.of_nat (length fragment))
                        (map (fun l => option2 l (str "sound"))
                             (List.filter (fun name => includes name fragment) (sort names))))).
    { unfold soundHandler, SOUND_NO_QUOTES_REGEX, SOUND_WITH_QUOTES_REGEX.
      rewrite Hno, Hw, Hqi, Hin, Hto. reflexivity. }
    destruct (isInsideString text cursorOffset); cbn [firstResult]; rewrite S; reflexivity.
  - subst fragment. unfold extractSoundFragment, SOUND_FRAGMENT_MATCH_REGEX.
    destruct (fragmentOf_suffix body isWord) as [k ->]. rewrite length_drop. lia.
  - intros Hw'. apply fragmentOf_word.
    eapply forallb_impl; [|exact Hw']. intros x Hx. rewrite (isWord_not_delim _ Hx). reflexivity.
Qed.

(** X5. [complete] inside the string argument of [mode], the call from its
    name to the cursor within the 8192 characters that [complete] looks
    behind: the four handlers before the mode handler decline. Without a
    colon in the argument the options are the modes that start with the
    fragment typed; with one, they are the pitch names for what follows the
    last colon, which they replace. *)
Theorem complete_mode_argument (chordSymbolCompletions : list CmCompletionOption)
    (text : jsstring) (cursorOffset : Z) (explicit : bool) (docIndex : DocIndex)
    (sources : option DynamicSources) (pre ws body : jsstring) (q : ascii) :
  let to := clamp cursorOffset (length text) in
  let result := complete chordSymbolCompletions text cursorOffset explicit docIndex sources in
  callShape text cursorOffset pre (str "mode") ws q body ->
  4 + 1 + length ws + 1 + length body <= 8192 ->
  (colon ∉ body ->
     let fragment := fragmentOf body MODE_FRAGMENT_MATCH_REGEX in
     result = Some (mkResult (Z.of_nat to - Z.of_nat (length fragment))
                      (List.filter (fun m => startsWith (label m) fragment) modeCompletions)) /\
     (forallb isWord body = true -> fragment = body)) /\
  (forall a b, body = a ++ [colon] ++ b -> colon ∉ b ->
     result = Some (mkResult (Z.of_nat to - Z.of_nat (length b)) (pitchOptions b))).
Proof.
  intros to result Hshape Hl.
  assert (Hname : forall s i, litAt s i (str "mode") ->
                    matches s (Lit (str "mode")) i (i + length (str "mode"))).
  { intros s i H. by apply matches_lit. }
  destruct (callShape_argument text cursorOffset explicit 8192 pre (str "mode") ws q body
              (Lit (str "mode")) Hshape Hname Hl)
    as (Hno & w & Hw & Hto & Hqi & Hin & _).
  assert (R : forall r, modeHandler (makeContext text cursorOffset explicit 8192) = Some r ->
                        result = Some r).
  { intros r Hr. unfold result, complete.
    rewrite (soundHandler_declines text cursorOffset explicit 8192 _ _ _ _ _ Hshape) by reflexivity.
    rewrite (bankHandler_declines text cursorOffset explicit 8192 _ _ _ _ _ Hshape) by reflexivity.
    rewrite (chordHandler_declines text cursorOffset explicit 8192 _ _ _ _ _ Hshape) by reflexivity.
    rewrite (scaleHandler_declines text cursorOffset explicit 8192 _ _ _ _ _ Hshape) by reflexivity.
    destruct (isInsideString text cursorOffset); cbn [firstResult];
      rewrite Hr; reflexivity. }
  split.
  - intros Hc fragment. split.
    + apply R. unfold modeHandler, MODE_NO_QUOTES_REGEX, MODE_AFTER_COLON_REGEX,
        MODE_PRE_COLON_REGEX.
      rewrite Hno.
      rewrite (afterColon_absent_no_colon text cursorOffset explicit 8192 _ _ _ _ _ Hshape _ Hc).
      rewrite Hw, Hqi, Hin, Hto. reflexivity.
    + intros Hword. apply fragmentOf_word.
      eapply forallb_impl; [|exact Hword].
      intros x Hx. rewrite (isWord_not_delim _ Hx). reflexivity.
  - intros a b -> Hb.
    destruct (afterColon_argument (Lit (str "mode")) text cursorOffset explicit 8192
                pre (str "mode") ws q a b Hshape Hname Hb Hl)
      as (w' & Hw' & Hc & Hd & Hf & _).
    apply R. unfold modeHandler, MODE_NO_QUOTES_REGEX, MODE_AFTER_COLON_REGEX.
    rewrite Hno, Hw'. unfold colon in *. rewrite Hc, Hd, Hf. reflexivity.
Qed.

(** X6. [complete] inside the string argument of [scale], the call from its
    name to the cursor within the 8192 characters that [complete] looks
    behind: the three handlers before the scale handler decline. Without a
    colon in the argument the options are the pitch names for the pitch
    typed at the end when the request is explicit, and none otherwise; with
    a colon they are the scale names for what follows the last colon, which
    they replace. *)
Theorem complete_scale_argument (chordSymbolCompletions : list CmCompletionOption)
    (text : jsstring) (cursorOffset : Z) (explicit : bool) (docIndex : DocIndex)
    (sources : option DynamicSources) (pre ws body : jsstring) (q : ascii) :
  let to := clamp cursorOffset (length text) in
  let result := complete chordSymbolCompletions text cursorOffset explicit docIndex sources in
  callShape text cursorOffset pre (str "scale") ws q body ->
  5 + 1 + length ws + 1 + length body <= 8192 ->
  (colon ∉ body ->
     let fragment := pitchFragment (str "scale(" ++ ws ++ [q] ++ body) in
     result = if explicit
              then Some (mkResult (Z.of_nat to - Z.of_nat (length fragment))
                           (pitchOptions fragment))
              else Some (mkResult (Z.of_nat to) [])) /\
  (forall a b, body = a ++ [colon] ++ b -> colon ∉ b ->
     result = Some (mkResult (Z.of_nat to - Z.of_nat (length b)) (scaleOptions b))).
Proof.
  intros to result Hshape Hl.
  assert (Hname : forall s i, litAt s i (str "scale") ->
                    matches s (Lit (str "scale")) i (i + length (str "scale"))).
  { intros s i H. by apply matches_lit. }
  assert (R : forall r, scaleHandler (makeContext text cursorOffset explicit 8192) = Some r ->
                        result = Some r).
  { intros r Hr. unfold result, complete.
    rewrite (soundHandler_declines text cursorOffset explicit 8192 _ _ _ _ _ Hshape) by reflexivity.
    rewrite (bankHandler_declines text cursorOffset explicit 8192 _ _ _ _ _ Hshape) by reflexivity.
    rewrite (chordHandler_declines text cursorOffset explicit 8192 _ _ _ _ _ Hshape) by reflexivity.
    destruct (isInsideString text cursorOffset); cbn [firstResult];
      rewrite Hr; reflexivity. }
  destruct (callShape_argument text cursorOffset explicit 8192 pre (str "scale") ws q body
              (Lit (str "scale")) Hshape Hname Hl)
    as (Hno & w & Hw & Hto & Hqi & Hin & _).
  split.
  - intros Hc fragment.
    destruct (shape_span_start text cursorOffset explicit 8192 pre (str "scale") ws q body w
                Hshape Hw) as [_ Et].
    assert (Hi : includesChar (m_text w) ":"%char = false).
    { apply includesChar_false. rewrite Et. intros Hcol.
      change (str "scale" ++ str "(" ++ ws ++ [q] ++ body)
        with (str "scale(" ++ ws ++ [q] ++ body) in Hcol.
      destruct Hshape as [_ Hws Hq _].
      apply elem_of_app in Hcol as [Hcol|Hcol].
      { apply list_elem_of_In in Hcol. simpl in Hcol.
        repeat (destruct Hcol as [Hcol|Hcol]; [discriminate|]). exact Hcol. }
      apply elem_of_app in Hcol as [Hcol|Hcol].
      { pose proof (forallb_elem _ _ _ Hws Hcol). discriminate. }
      apply elem_of_app in Hcol as [Hcol|Hcol].
      { apply list_elem_of_singleton in Hcol. subst q. discriminate. }
      exact (Hc Hcol). }
    assert (S : scaleHandler (makeContext text cursorOffset explicit 8192) =
                if explicit
                then Some (mkResult (Z.of_nat to - Z.of_nat (length fragment))
                             (pitchOptions fragment))
                else Some (mkResult (Z.of_nat to) [])).
    { unfold scaleHandler, SCALE_NO_QUOTES_REGEX, SCALE_AFTER_COLON_REGEX,
        SCALE_PRE_COLON_REGEX.
      rewrite Hno.
      rewrite (afterColon_absent_no_colon text cursorOffset explicit 8192 _ _ _ _ _ Hshape _ Hc).
      rewrite Hw, Hi. cbn [CmEngine.explicit makeContext]. rewrite Hto.
      unfold fragment, pitchFragment. rewrite Et. reflexivity. }
    destruct explicit; apply R; exact S.
  - intros a b -> Hb.
    destruct (afterColon_argument (Lit (str "scale")) text cursorOffset explicit 8192
                pre (str "scale") ws q a b Hshape Hname Hb Hl)
      as (w' & Hw' & Hc & Hd & Hf & _).
    apply R. unfold scaleHandler, SCALE_NO_QUOTES_REGEX, SCALE_AFTER_COLON_REGEX.
    rewrite Hno, Hw'. unfold colon in *. rewrite Hc, Hd, Hf. reflexivity.
Qed.

(** X7. [complete] inside the string argument of [chord], the call from
    its name to the cursor within the 8192 characters that [complete] looks
    behind: the sound and bank handlers decline, and the options replace
    the fragment typed. When the fragment starts with a pitch name, the
    longest one is taken as the root and every label is the root as typed
    followed by a chord symbol that starts with the rest of the fragment;
    otherwise the options are the chord symbols that start with the
    fragment, letter case apart. *)
Theorem complete_chord_argument (chordSymbolCompletions : list CmCompletionOption)
    (text : jsstring) (cursorOffset : Z) (explicit : bool) (docIndex : DocIndex)
    (sources : option DynamicSources) (pre ws body : jsstring) (q : ascii) :
  let to := clamp cursorOffset (length text) in
  let result := complete chordSymbolCompletions text cursorOffset explicit docIndex sources in
  let fragment := fragmentOf body CHORD_FRAGMENT_MATCH_REGEX in
  let rootMatch :=
    List.find (fun pitch => startsWith (toLowerCase fragment) (toLowerCase pitch))
              pitchNamesLongestFirst in
  let symbols needle :=
    List.filter (fun s => startsWith (toLowerCase (label s)) (toLowerCase needle))
                chordSymbolCompletions in
  callShape text cursorOffset pre (str "chord") ws q body ->
  5 + 1 + length ws + 1 + length body <= 8192 ->
  (exists opts, result = Some (mkResult (Z.of_nat to - Z.of_nat (length fragment)) opts) /\
     match rootMatch with
     | None => opts = symbols fragment
     | Some pitch =>
         map label opts =
           map (fun s => take (length pitch) fragment ++ label s)
               (symbols (drop (length pitch) fragment))
     end) /\
  (forallb isWord body = true -> fragment = body).
Proof.
  intros to result fragment rootMatch symbols Hshape Hl.
  assert (Hname : forall s i, litAt s i (str "chord") ->
                    matches s (Lit (str "chord")) i (i + length (str "chord"))).
  { intros s i H. by apply matches_lit. }
  destruct (callShape_argument text cursorOffset explicit 8192 pre (str "chord") ws q body
              (Lit (str "chord")) Hshape Hname Hl)
    as (Hno & w & Hw & Hto & Hqi & Hin & _).
  assert (R : forall r, chordHandler chordSymbolCompletions
                          (makeContext text cursorOffset explicit 8192) = Some r ->
                        result = Some r).
  { intros r Hr. unfold result, complete.
    rewrite (soundHandler_declines text cursorOffset explicit 8192 _ _ _ _ _ Hshape) by reflexivity.
    rewrite (bankHandler_declines text cursorOffset explicit 8192 _ _ _ _ _ Hshape) by reflexivity.
    destruct (isInsideString text cursorOffset); cbn [firstResult];
      rewrite Hr; reflexivity. }
  split.
  - assert (C : chordHandler chordSymbolCompletions
                  (makeContext text cursorOffset explicit 8192) =
                match rootMatch with
                | None =>
                    Some (mkResult (Z.of_nat to - Z.of_nat (length fragment)) (symbols fragment))
                | Some pitch =>
                    Some (mkResult (Z.of_nat to - Z.of_nat (length fragment))
                            (map (fun s =>
                                    let symbol := match apply s with
                                                  | Some a => a
                                                  | None => label s
                                                  end in
                                    let chordText :=
                                      if seq_eqb symbol [] then take (length pitch) fragment
                                      else take (length pitch) fragment ++ symbol in
                                    mkOption (take (length pitch) fragment ++ label s) (type s)
                                             (Some chordText) (Some chordText)
                                             (canonicalName s) (isSynonym s))
                                 (symbols (drop (length pitch) fragment))))
                end).
    { unfold chordHandler, CHORD_NO_QUOTES_REGEX, CHORD_WITH_QUOTES_REGEX.
      rewrite Hno, Hw, Hqi, Hin, Hto. fold fragment. fold rootMatch.
      destruct rootMatch; reflexivity. }
    destruct rootMatch as [pitch|].
    + eexists. split; [apply R; exact C|]. rewrite map_map. reflexivity.
    + eexists. split; [apply R; exact C|]. reflexivity.
  - intros Hword. apply fragmentOf_word.
    eapply forallb_impl; [|exact Hword].
    intros x Hx. rewrite (isWord_not_delim _ Hx). reflexivity.
Qed.

(** ** [complete] outside a call *)

(** A pattern whose matches hold an opening parenthesis finds no span
    when there is none before the cursor. *)
Lemma no_paren_no_span re text cursorOffset explicit limit :
  (forall s i j, matches s re i j -> exists p, i <= p < j /\ s !! p = Some lparen) ->
  lparen ∉ take (clamp cursorOffset (length text)) text ->
  matchBefore (makeContext text cursorOffset explicit limit) re = None.
Proof.
  intros Hre Hno.
  destruct (matchBefore _ re) as [w|] eqn:Hw; [exfalso|reflexivity].
  pose proof (matchBefore_matches _ _ _ _ _ _ Hw) as Hm.
  apply Hre in Hm as (p & Hp & Hpar).
  destruct (span_lookup _ _ _ _ _ _ p Hw ltac:(lia)) as [L _].
  rewrite Hpar in L. symmetry in L. apply Hno. eapply list_elem_of_lookup_2. exact L.
Qed.

Lemma noQuotes_paren name s i j :
  matches s (noQuotes name) i j -> exists p, i <= p < j /\ s !! p = Some lparen.
Proof. intros H. apply noQuotes_inv in H as (p & Hp & Hpar & _). eauto. Qed.

Lemma withQuotes_paren name s i j :
  matches s (withQuotes name) i j -> exists p, i <= p < j /\ s !! p = Some lparen.
Proof.
  intros H. apply withQuotes_inv_full in H as (j1 & j3 & ch & Hn & Hj & Hp & _).
  pose proof (matches_bounds _ _ _ _ Hn) as [B _]. exists j1. split; [lia|exact Hp].
Qed.

Section NoCall.
Variables (text : jsstring) (cursorOffset : Z) (explicit : bool) (limit : nat).
Hypothesis Hno : lparen ∉ take (clamp cursorOffset (length text)) text.

Let ctx := makeContext text cursorOffset explicit limit.

Lemma no_call_absent name :
  matchBefore ctx (noQuotes name) = None /\
  matchBefore ctx (withQuotes name) = None /\
  matchBefore ctx (afterColon name) = None.
Proof.
  assert (W : matchBefore ctx (withQuotes name) = None).
  { apply no_paren_no_span; [apply withQuotes_paren|exact Hno]. }
  split; [apply no_paren_no_span; [apply noQuotes_paren|exact Hno]|].
  split; [exact W|apply afterColon_absent, W].
Qed.

Lemma no_call_declines chordSymbolCompletions sources :
  firstResult (stringHandlers chordSymbolCompletions ctx sources) = None.
Proof.
  unfold stringHandlers. cbn [firstResult].
  destruct (no_call_absent soundName) as (N1 & W1 & _).
  destruct (no_call_absent (Lit (str "bank"))) as (N2 & W2 & _).
  destruct (no_call_absent (Lit (str "chord"))) as (N3 & W3 & _).
  destruct (no_call_absent (Lit (str "scale"))) as (N4 & W4 & A4).
  destruct (no_call_absent (Lit (str "mode"))) as (N5 & W5 & A5).
  assert (S1 : soundHandler ctx sources = None).
  { unfold soundHandler, SOUND_NO_QUOTES_REGEX, SOUND_WITH_QUOTES_REGEX. rewrite N1, W1.
    reflexivity. }
  assert (S2 : bankHandler ctx sources = None).
  { unfold bankHandler, BANK_NO_QUOTES_REGEX, BANK_WITH_QUOTES_REGEX. rewrite N2, W2.
    reflexivity. }
  assert (S3 : chordHandler chordSymbolCompletions ctx = None).
  { unfold chordHandler, CHORD_NO_QUOTES_REGEX, CHORD_WITH_QUOTES_REGEX. rewrite N3, W3.
    reflexivity. }
  assert (S4 : scaleHandler ctx = None).
  { unfold scaleHandler, SCALE_NO_QUOTES_REGEX, SCALE_AFTER_COLON_REGEX,
      SCALE_PRE_COLON_REGEX. rewrite N4, W4, A4. reflexivity. }
  assert (S5 : modeHandler ctx = None).
  { unfold modeHandler, MODE_NO_QUOTES_REGEX, MODE_AFTER_COLON_REGEX,
      MODE_PRE_COLON_REGEX. rewrite N5, W5, A5. reflexivity. }
  rewrite S1, S2, S3, S4, S5. reflexivity.
Qed.
End NoCall.

(** When the five call handlers decline, [complete] is left with the
    fallback handler, outside a string. *)
Lemma complete_after_decline (chordSymbolCompletions : list CmCompletionOption)
    (text : jsstring) (cursorOffset : Z) (explicit : bool) (docIndex : DocIndex)
    (sources : option DynamicSources) :
  firstResult (stringHandlers chordSymbolCompletions
                 (makeContext text cursorOffset explicit 8192)
                 (default (mkSources None None) sources)) = None ->
  complete chordSymbolCompletions text cursorOffset explicit docIndex sources =
    if isInsideString text cursorOffset then None
    else fallbackHandler (makeContext text cursorOffset explicit 8192)
                         (jsdocCompletions docIndex).
Proof.
  intros D. unfold stringHandlers in D. cbn [firstResult] in D.
  unfold complete.
  destruct (isInsideString text cursorOffset); cbn [firstResult].
  - exact D.
  - destruct (soundHandler _ _); [discriminate|].
    destruct (bankHandler _ _); [discriminate|].
    destruct (chordHandler _ _); [discriminate|].
    destruct (scaleHandler _); [discriminate|].
    destruct (modeHandler _); [discriminate|].
    destruct (fallbackHandler _ _); reflexivity.
Qed.

(** X8. With no opening parenthesis before the cursor the five call handlers
    decline, so that [complete] gives null inside a string and when it was
    not asked for explicitly, and otherwise the whole documentation list, to
    be put at the cursor itself: the word typed there is neither used as a
    filter nor replaced. *)
Theorem complete_outside_call (chordSymbolCompletions : list CmCompletionOption)
    (text : jsstring) (cursorOffset : Z) (explicit : bool) (docIndex : DocIndex)
    (sources : option DynamicSources) :
  let to := clamp cursorOffset (length text) in
  lparen ∉ take to text ->
  complete chordSymbolCompletions text cursorOffset explicit docIndex sources =
    if isInsideString text cursorOffset then None
    else if explicit then Some (mkResult (Z.of_nat to) (jsdocCompletions docIndex))
    else None.
Proof.
  intros to Hno.
  rewrite complete_after_decline by (apply no_call_declines; exact Hno).
  rewrite fallbackHandler_eq. fold to.
  destruct (isInsideString text cursorOffset); reflexivity.
Qed.

(** ** Offsets and positions, without carriage returns *)

Lemma splitOn_length c s : forall cur,
  length (splitOn c s cur) = S (length (List.filter (ceq c) s)).
Proof.
  induction s as [|x s IH]; intros cur; cbn [splitOn List.filter]; [reflexivity|].
  rewrite (ceq_sym c x). destruct (ceq x c); cbn [length]; rewrite IH; reflexivity.
Qed.

(** X9. On a text without carriage returns, the position of an offset comes
    back as the offset, clamped to the text, and its line is the number of
    line feeds before it. *)
Theorem offset_roundtrip_lf (text : jsstring) (offset : Z) :
  creturn ∉ text ->
  let clamped := clamp offset (length text) in
  positionToOffset text (offsetToPosition text offset) = clamped /\
  line (offsetToPosition text offset) =
    length (List.filter (ceq newline) (take clamped text)).
Proof.
  intros Hcr clamped.
  assert (Hc : clamped <= length text) by apply clamp_le.
  assert (E : offsetToPosition text offset = offsetToPosition text (Z.of_nat clamped)).
  { unfold offsetToPosition. fold clamped. rewrite (clamp_of_nat clamped) by exact Hc.
    reflexivity. }
  split.
  - rewrite E. apply offset_roundtrip_no_cr; assumption.
  - unfold offsetToPosition. fold clamped. cbn [line].
    rewrite split_lines.
    + rewrite splitOn_length. lia.
    + intros H. apply Hcr. rewrite <- (take_drop clamped text). apply elem_of_app. left. exact H.
Qed.

(** ** The quote rewriter and the literal finder *)

Lemma includesChar_replaceAll1 c rep s n :
  ceq n c = false -> includesChar rep n = false ->
  includesChar (replaceAll1 c rep s) n = includesChar s n.
Proof.
  intros Hc Hr. induction s as [|x s IH]; [reflexivity|].
  change (replaceAll1 c rep (x :: s))
    with ((if ceq x c then rep else [x]) ++ replaceAll1 c rep s).
  rewrite includesChar_app, IH. cbn [includesChar existsb]. fold (includesChar s n).
  f_equal. destruct (ceq x c) eqn:X.
  - apply ceq_eq in X. subst x. rewrite Hr, Hc. reflexivity.
  - cbn. rewrite orb_false_r. reflexivity.
Qed.

Lemma includesChar_replaceAll2 c1 c2 rep n :
  ceq n c1 = false -> ceq n c2 = false ->
  (includesChar rep n = false) ->
  forall s, includesChar (replaceAll2 c1 c2 rep s) n = includesChar s n.
Proof.
  intros H1 H2 Hr s.
  assert (G : forall s, includesChar (replaceAll2 c1 c2 rep s) n = includesChar s n /\
              forall x, includesChar (replaceAll2 c1 c2 rep (x :: s)) n = includesChar (x :: s) n).
  { clear s. induction s as [|y s [IH1 IH2]].
    - split; [reflexivity|]. intros x. reflexivity.
    - split; [apply IH2|]. intros x. rewrite replaceAll2_cons2.
      destruct (ceq x c1 && ceq y c2) eqn:X.
      + apply andb_prop in X as [X1 X2]. apply ceq_eq in X1, X2. subst x y.
        rewrite includesChar_app, Hr, IH1. cbn [includesChar existsb].
        rewrite H1, H2. reflexivity.
      + rewrite includesChar_app, IH2. unfold includesChar. cbn [existsb].
        rewrite orb_false_r. reflexivity. }
  apply G.
Qed.

(** Taking the backslash off the escaped source quote neither adds nor
    removes a line feed. *)
Lemma unescape_newline (c : ascii) (content : jsstring) :
  ceq newline c = false ->
  includesChar (replaceAll2 bslash c [c] content) newline = includesChar content newline.
Proof.
  intros Hc. apply includesChar_replaceAll2; [reflexivity|exact Hc|].
  unfold includesChar. cbn [existsb]. rewrite Hc. reflexivity.
Qed.

(** Nor do the two escaping steps. *)
Lemma escape_newline (q : ascii) (s : jsstring) :
  ceq newline q = false ->
  includesChar (replaceAll1 q [bslash; q] (replaceAll1 bslash [bslash; bslash] s)) newline =
    includesChar s newline.
Proof.
  intros Hq. rewrite !includesChar_replaceAll1; auto.
  unfold includesChar. cbn [existsb]. rewrite Hq. reflexivity.
Qed.

Lemma rewrite_backtick_total (content : jsstring) (from : QuoteChar) :
  rewriteLiteralContent content from QBacktick <> None.
Proof. destruct from; discriminate. Qed.

Lemma rewrite_double_null (content : jsstring) (from : QuoteChar) :
  rewriteLiteralContent content from QDouble = None <-> includesChar content newline = true.
Proof.
  destruct from; cbn [rewriteLiteralContent quote_eqb andb negb];
    rewrite ?escape_newline, ?unescape_newline by reflexivity;
    destruct (includesChar content newline); split; congruence.
Qed.

(** X10. [rewriteLiteralContent] gives null exactly when the target is not
    the backtick and the content has a line feed. *)
Theorem rewriteLiteralContent_null (content : jsstring) (from to : QuoteChar) :
  rewriteLiteralContent content from to = None <->
  to <> QBacktick /\ includesChar content newline = true.
Proof.
  destruct from, to; cbn [rewriteLiteralContent quote_eqb andb negb];
    rewrite ?escape_newline, ?unescape_newline by reflexivity;
    destruct (includesChar content newline); split;
    try (intros [? ?]); try discriminate; try congruence; try (split; congruence).
Qed.

(** ** Escaping, piece by piece *)

Lemma countBackslashes_ext (a b : jsstring) j :
  (forall k, k < j -> a !! k = b !! k) -> countBackslashes a j = countBackslashes b j.
Proof.
  induction j as [|j IH]; intros H; [reflexivity|].
  cbn [countBackslashes]. rewrite (H j) by lia.
  destruct (b !! j) as [c|]; [|reflexivity].
  destruct (ceq c bslash); [|reflexivity]. f_equal. apply IH. intros k Hk. apply H. lia.
Qed.

Lemma countBackslashes_app (a b : jsstring) j :
  j <= length a -> countBackslashes (a ++ b) j = countBackslashes a j.
Proof.
  intros H. apply countBackslashes_ext. intros k Hk. apply lookup_app_l. lia.
Qed.

Lemma countBackslashes_after (a : jsstring) c (b : jsstring) :
  countBackslashes (a ++ c :: b) (S (length a)) =
    if ceq c bslash then S (countBackslashes a (length a)) else 0.
Proof.
  cbn [countBackslashes]. rewrite list_lookup_middle by reflexivity.
  destruct (ceq c bslash); [|reflexivity]. f_equal. apply countBackslashes_app. lia.
Qed.

Lemma countBackslashes_snoc (a : jsstring) c :
  countBackslashes (a ++ [c]) (length (a ++ [c])) =
    if ceq c bslash then S (countBackslashes a (length a)) else 0.
Proof. rewrite length_app, Nat.add_1_r. apply countBackslashes_after. Qed.

Lemma isEscaped_app (a b : jsstring) j :
  j <= length a -> isEscaped (a ++ b) j = isEscaped a j.
Proof. intros H. unfold isEscaped. rewrite countBackslashes_app by lia. reflexivity. Qed.

Lemma quoteChar_facts (to : QuoteChar) :
  let q := quoteChar to in
  ceq q bslash = false /\ ceq q newline = false /\ q <> "$"%char /\ q <> "{"%char /\
  quoteOf q = Some to.
Proof. destruct to; repeat split; discriminate. Qed.

Ltac absurd_quote Hq :=
  cbn -[bslash] in Hq;
  first [ discriminate Hq
        | injection Hq as Hq; first [contradiction | symmetry in Hq; contradiction] ].

(** In a text made of such pieces every target quote is escaped, and a
    character put after the text is not. *)
Lemma tokens_escaped (to : QuoteChar) (toks : list jsstring) :
  let q := quoteChar to in
  Forall (escapeToken q) toks ->
  let out := concat toks in
  Nat.odd (countBackslashes out (length out)) = false /\
  forall i, out !! i = Some q -> isEscaped out i = true.
Proof.
  intros q H.
  destruct (quoteChar_facts to) as (Qb & Qn & Qd & Qc & _). fold q in Qb, Qn, Qd, Qc.
  assert (Qb' : q <> bslash) by (intros E; rewrite E in Qb; discriminate).
  induction toks as [|t toks IH] using rev_ind; [split; [reflexivity|intros i; discriminate]|].
  apply Forall_app in H as [H Ht]. apply Forall_inv in Ht.
  destruct (IH H) as [IHe IHq]. clear IH.
  cbv zeta. rewrite concat_app. cbn [concat]. rewrite app_nil_r.
  set (X := concat toks) in *.
  assert (Old : forall i, i < length X -> (X ++ t) !! i = Some q -> isEscaped (X ++ t) i = true).
  { intros i Hi Hq. rewrite lookup_app_l in Hq by lia.
    rewrite isEscaped_app by lia. auto. }
  assert (Even : Nat.even (countBackslashes X (length X)) = true).
  { rewrite <- Nat.negb_odd, IHe. reflexivity. }
  unfold escapeToken in Ht.
  destruct Ht as [-> | [-> | [-> | (c & -> & Hc1 & Hc2)]]].
  - split.
    + change [bslash; bslash] with ([bslash] ++ [bslash]). rewrite app_assoc.
      rewrite !countBackslashes_snoc. change (ceq bslash bslash) with true. cbv iota.
      rewrite Nat.odd_succ, Nat.even_succ. exact IHe.
    + intros i Hq. destruct (decide (i < length X)) as [Hi|Hi]; [auto|].
      rewrite lookup_app_r in Hq by lia.
      destruct (i - length X) as [|[|k]]; absurd_quote Hq.
  - split.
    + change [bslash; q] with ([bslash] ++ [q]). rewrite app_assoc.
      rewrite countBackslashes_snoc, Qb. reflexivity.
    + intros i Hq. destruct (decide (i < length X)) as [Hi|Hi]; [auto|].
      rewrite lookup_app_r in Hq by lia.
      destruct (i - length X) as [|[|k]] eqn:E; try absurd_quote Hq.
      replace i with (S (length X)) by lia.
      unfold isEscaped. rewrite countBackslashes_after.
      change (ceq bslash bslash) with true. cbv iota.
      rewrite Nat.odd_succ. exact Even.
  - split.
    + change [bslash; "$"%char; "{"%char] with ([bslash; "$"%char] ++ ["{"%char]).
      rewrite app_assoc, countBackslashes_snoc. reflexivity.
    + intros i Hq. destruct (decide (i < length X)) as [Hi|Hi]; [auto|].
      rewrite lookup_app_r in Hq by lia.
      destruct (i - length X) as [|[|[|k]]]; absurd_quote Hq.
  - split.
    + rewrite countBackslashes_snoc.
      destruct (ceq c bslash) eqn:C; [apply ceq_eq in C; contradiction|reflexivity].
    + intros i Hq. destruct (decide (i < length X)) as [Hi|Hi]; [auto|].
      rewrite lookup_app_r in Hq by lia.
      destruct (i - length X) as [|k]; absurd_quote Hq.
Qed.

(** The two escaping steps, character by character. *)
Lemma escape_steps (to : QuoteChar) (s : jsstring) :
  let q := quoteChar to in
  replaceAll1 q [bslash; q] (replaceAll1 bslash [bslash; bslash] s) =
    concat (map (escapeChar q) s).
Proof.
  intros q. destruct (quoteChar_facts to) as (Qb & _). fold q in Qb.
  induction s as [|x s IH]; [reflexivity|].
  change (replaceAll1 bslash [bslash; bslash] (x :: s))
    with ((if ceq x bslash then [bslash; bslash] else [x]) ++
          replaceAll1 bslash [bslash; bslash] s).
  rewrite replaceAll1_app, IH. cbn [map concat]. f_equal.
  unfold escapeChar. destruct (ceq x bslash) eqn:B.
  - unfold replaceAll1. cbn [flat_map].
    assert (F : ceq bslash q = false) by (rewrite ceq_sym; exact Qb).
    rewrite F. reflexivity.
  - unfold replaceAll1. cbn [flat_map]. rewrite app_nil_r. reflexivity.
Qed.

Lemma escapeChar_token (to : QuoteChar) (c : ascii) :
  escapeToken (quoteChar to) (escapeChar (quoteChar to) c).
Proof.
  unfold escapeChar, escapeToken.
  destruct (ceq c bslash) eqn:B; [auto|].
  destruct (ceq c (quoteChar to)) eqn:Q; [auto|].
  right. right. right. exists c. split; [reflexivity|].
  split; intros ->; rewrite ceq_refl in *; discriminate.
Qed.

Lemma replaceAll2_skip c1 c2 rep x l :
  ceq x c1 = false -> replaceAll2 c1 c2 rep (x :: l) = x :: replaceAll2 c1 c2 rep l.
Proof. intros H. destruct l as [|y l]; [reflexivity|]. cbn [replaceAll2]. rewrite H. reflexivity. Qed.

Lemma replaceAll2_other c1 c2 rep x y l :
  ceq y c2 = false -> replaceAll2 c1 c2 rep (x :: y :: l) = x :: replaceAll2 c1 c2 rep (y :: l).
Proof. intros H. cbn [replaceAll2]. rewrite H, andb_false_r. reflexivity. Qed.

(** The escaping for a backtick target, interpolation openers included,
    writes such pieces too. *)
Lemma backtick_tokens (s : jsstring) :
  exists toks, Forall (escapeToken btick) toks /\
    replaceAll2 "$"%char "{"%char [bslash; "$"%char; "{"%char]
      (concat (map (escapeChar btick) s)) = concat toks.
Proof.
  set (R := fun s => exists toks, Forall (escapeToken btick) toks /\
    replaceAll2 "$"%char "{"%char [bslash; "$"%char; "{"%char]
      (concat (map (escapeChar btick) s)) = concat toks).
  assert (G : R s /\ forall x, R (x :: s)); [|apply G].
  assert (Step : forall x l, ceq x "$"%char = false -> R l -> R (x :: l)).
  { intros x l Hx (toks & Ht & E). exists (escapeChar btick x :: toks).
    split; [constructor; [apply (escapeChar_token QBacktick)|exact Ht]|].
    cbn [map concat]. rewrite <- E. unfold escapeChar.
    destruct (ceq x bslash) eqn:B; [|destruct (ceq x btick) eqn:Q].
    - cbn [app]. rewrite !replaceAll2_skip by reflexivity. reflexivity.
    - cbn [app]. rewrite !replaceAll2_skip by reflexivity. reflexivity.
    - cbn [app]. rewrite replaceAll2_skip by exact Hx. reflexivity. }
  induction s as [|y s [IH1 IH2]].
  - split; [exists []; split; [constructor|reflexivity]|].
    intros x. destruct (ceq x "$"%char) eqn:Hx.
    + apply ceq_eq in Hx. subst x. exists [["$"%char]]. split; [|reflexivity].
      constructor; [|constructor]. right. right. right. exists "$"%char.
      repeat split; discriminate.
    + apply Step; [exact Hx|]. exists []. split; [constructor|reflexivity].
  - split; [apply IH2|]. intros x.
    destruct (ceq x "$"%char) eqn:Hx; [|apply Step; [exact Hx|apply IH2]].
    apply ceq_eq in Hx. subst x.
    destruct (ceq y "{"%char) eqn:Hy.
    + apply ceq_eq in Hy. subst y. destruct IH1 as (toks & Ht & E).
      exists ([bslash; "$"%char; "{"%char] :: toks). split.
      * constructor; [|exact Ht]. right. right. left. reflexivity.
      * cbn [map concat]. rewrite <- E. reflexivity.
    + destruct (IH2 y) as (toks & Ht & E).
      exists (["$"%char] :: toks). split.
      * constructor; [|exact Ht]. right. right. right. exists "$"%char.
        repeat split; discriminate.
      * cbn [concat]. rewrite <- E. cbn [map concat].
        change (escapeChar btick "$"%char) with ["$"%char]. cbn [app].
        unfold escapeChar.
        destruct (ceq y bslash) eqn:B; [|destruct (ceq y btick) eqn:Q]; cbn [app].
        -- rewrite (replaceAll2_other _ _ _ "$"%char) by reflexivity. reflexivity.
        -- rewrite (replaceAll2_other _ _ _ "$"%char) by reflexivity. reflexivity.
        -- rewrite (replaceAll2_other _ _ _ "$"%char) by exact Hy. reflexivity.
Qed.

(** ** The rewritten literal *)

Lemma rewriteLiteralContent_steps content from to :
  exists u,
    let escaped := replaceAll1 (quoteChar to) [bslash; quoteChar to]
                     (replaceAll1 bslash [bslash; bslash] u) in
    rewriteLiteralContent content from to =
      match to with
      | QBacktick =>
          Some (replaceAll2 "$"%char "{"%char [bslash; "$"%char; "{"%char] escaped)
      | _ => if includesChar escaped newline then None else Some escaped
      end.
Proof.
  exists (if quote_eqb from to then content
          else replaceAll2 bslash (quoteChar from) [quoteChar from] content).
  destruct from, to; reflexivity.
Qed.

(** What [rewriteLiteralContent] returns is made of escape pieces. *)
Lemma rewriteLiteralContent_tokens content from to out :
  rewriteLiteralContent content from to = Some out ->
  exists toks, Forall (escapeToken (quoteChar to)) toks /\ out = concat toks.
Proof.
  intros H. destruct (rewriteLiteralContent_steps content from to) as [u E].
  cbv zeta in E. rewrite E in H. clear E. rewrite (escape_steps to) in H.
  assert (P : exists toks, Forall (escapeToken (quoteChar to)) toks /\
                concat (map (escapeChar (quoteChar to)) u) = concat toks).
  { exists (map (escapeChar (quoteChar to)) u). split; [|reflexivity].
    apply Forall_map, Forall_forall. intros c _. apply escapeChar_token. }
  destruct to.
  - destruct (includesChar _ newline); [discriminate|]. injection H as <-. exact P.
  - destruct (includesChar _ newline); [discriminate|]. injection H as <-. exact P.
  - injection H as <-. apply backtick_tokens.
Qed.

Lemma countBackslashes_cons (q : ascii) (l : jsstring) j :
  ceq q bslash = false -> countBackslashes (q :: l) (S j) = countBackslashes l j.
Proof.
  intros Hq. induction j as [|j IH].
  - cbn. rewrite Hq. reflexivity.
  - change (countBackslashes (q :: l) (S (S j)))
      with (match l !! j with
            | Some c => if ceq c bslash then S (countBackslashes (q :: l) (S j)) else 0
            | None => 0
            end).
    rewrite IH. reflexivity.
Qed.

(** The quotes inside a rewritten literal are escaped and its closing
    quote is not. *)
Lemma rewritten_delimiters (content : jsstring) (from to : QuoteChar) (out : jsstring) :
  rewriteLiteralContent content from to = Some out ->
  let q := quoteChar to in
  let lit := [q] ++ out ++ [q] in
  isEscaped lit 0 = false /\
  isEscaped lit (S (length out)) = false /\
  forall i, 0 < i < S (length out) -> lit !! i = Some q -> isEscaped lit i = true.
Proof.
  intros H q lit.
  destruct (rewriteLiteralContent_tokens _ _ _ _ H) as (toks & Ht & ->).
  destruct (tokens_escaped to toks Ht) as [He Hq].
  destruct (quoteChar_facts to) as (Qb & _). fold q in Qb.
  split; [reflexivity|]. split.
  - unfold lit, isEscaped. cbn [app]. rewrite countBackslashes_cons by exact Qb.
    rewrite countBackslashes_app by lia. exact He.
  - intros i Hi Hl. destruct i as [|j]; [lia|].
    unfold lit, isEscaped in *. cbn [app] in *. rewrite countBackslashes_cons by exact Qb.
    rewrite countBackslashes_app by lia.
    apply Hq. change ((concat toks ++ [q]) !! j = Some q) in Hl.
    rewrite lookup_app_l in Hl by lia. exact Hl.
Qed.

(** X11. In the literal made of a rewritten content between two quotes of
    the target kind, the only quotes of that kind that [isEscaped] does not
    take as escaped are the first and the last character: no quote inside
    ends the literal early, and no backslash at the end of the content
    escapes the closing quote. *)
Theorem rewritten_quotes_escaped (content : jsstring) (from to : QuoteChar) (out : jsstring) :
  rewriteLiteralContent content from to = Some out ->
  let q := quoteChar to in
  let lit := [q] ++ out ++ [q] in
  forall i, lit !! i = Some q ->
    isEscaped lit i = false <-> i = 0 \/ i = S (length out).
Proof.
  intros H q lit i Hi.
  destruct (rewritten_delimiters content from to out H) as (E0 & E1 & E2).
  fold q in E0, E1, E2. fold lit in E0, E1, E2.
  assert (L : i < length lit) by (eapply lookup_lt_Some; eauto).
  unfold lit in L. rewrite !length_app in L. simpl in L.
  split.
  - intros Hf. destruct (decide (i = 0)) as [|N0]; [auto|].
    destruct (decide (i = S (length out))) as [|N1]; [auto|].
    rewrite E2 in Hf by (auto; lia). discriminate.
  - intros [-> | ->]; assumption.
Qed.

Lemma indexOf_from_none (s : jsstring) c : forall i,
  includesChar s c = false -> indexOf_from i s c = None.
Proof.
  induction s as [|x s IH]; intros i H; [reflexivity|].
  unfold includesChar in H. cbn [existsb] in H. apply orb_false_elim in H as [H1 H2].
  cbn [indexOf_from]. rewrite ceq_sym, H1. apply IH. exact H2.
Qed.

Lemma includesChar_drop (s : jsstring) c k :
  includesChar s c = false -> includesChar (drop k s) c = false.
Proof.
  intros H. destruct (includesChar (drop k s) c) eqn:E; [|reflexivity].
  unfold includesChar in *. apply existsb_exists in E as (x & Hx & Hc).
  assert (In x s).
  { apply list_elem_of_In. apply list_elem_of_In in Hx.
    rewrite <- (take_drop k s). apply elem_of_app. right. exact Hx. }
  assert (existsb (ceq c) s = true) by (apply existsb_exists; eauto). congruence.
Qed.

(** The closing scan stops at the first quote of its kind that is not
    escaped. *)
Lemma scanClose_first (text : jsstring) (quote : QuoteChar) (c : nat) :
  text !! c = Some (quoteChar quote) -> isEscaped text c = false ->
  forall n i, i <= c -> c - i < n ->
    (forall j, i <= j < c -> text !! j = Some (quoteChar quote) -> isEscaped text j = true) ->
    scanClose text quote n i = Some c.
Proof.
  intros Hc He. induction n as [|n IH]; intros i Hi Hn Hb; [lia|].
  cbn [scanClose]. destruct (decide (i = c)) as [->|Hne].
  - rewrite Hc, ceq_refl, He. reflexivity.
  - assert (Next : scanClose text quote n (S i) = Some c).
    { apply IH; [lia|lia|]. intros j Hj. apply Hb. lia. }
    destruct (text !! i) as [ch|] eqn:T; [|exact Next].
    destruct (ceq ch (quoteChar quote)) eqn:Q; [|exact Next].
    apply ceq_eq in Q. subst ch. rewrite (Hb i) by (auto; lia). exact Next.
Qed.

(** The rewriting neither adds nor removes a line feed. *)
Lemma rewriteLiteralContent_newline content from to out :
  rewriteLiteralContent content from to = Some out ->
  includesChar out newline = includesChar content newline.
Proof.
  intros H.
  destruct from, to; cbn [rewriteLiteralContent quote_eqb andb negb] in H;
    try (match type of H with
         | context [if ?b then _ else _] => destruct b eqn:N; [discriminate|]
         end);
    injection H as <-;
    rewrite ?includesChar_replaceAll2 by reflexivity;
    rewrite ?escape_newline, ?unescape_newline by reflexivity; reflexivity.
Qed.

(** X12. The rewritten literal, taken as a text of its own with the
    selection starting after its opening quote, is found again by
    [findEnclosingStringLiteral] as one literal from its first to its last
    character, when the content has no line feed. *)
Theorem rewritten_literal_found (content : jsstring) (from to : QuoteChar) (out : jsstring)
    (selectionEnd : nat) :
  rewriteLiteralContent content from to = Some out ->
  includesChar content newline = false ->
  1 <= selectionEnd <= S (length out) ->
  let lit := [quoteChar to] ++ out ++ [quoteChar to] in
  findEnclosingStringLiteral lit 1 selectionEnd =
    Some (mkLiteral 0 (length lit) to 1 (S (length out))).
Proof.
  intros H Hnl He lit.
  destruct (rewritten_delimiters content from to out H) as (E0 & E1 & E2).
  fold lit in E0, E1, E2.
  destruct (quoteChar_facts to) as (Qb & Qn & _ & _ & Qo).
  assert (Hout : includesChar out newline = false).
  { rewrite (rewriteLiteralContent_newline _ _ _ _ H). exact Hnl. }
  assert (Hlit : includesChar lit newline = false).
  { unfold lit. rewrite !includesChar_app, Hout. unfold includesChar. cbn [existsb].
    rewrite (ceq_sym newline), Qn. reflexivity. }
  assert (L : length lit = S (S (length out))).
  { unfold lit. rewrite !length_app. simpl. lia. }
  assert (Last : lit !! S (length out) = Some (quoteChar to)).
  { unfold lit. change (([quoteChar to] ++ out ++ [quoteChar to]) !! S (length out))
      with ((out ++ [quoteChar to]) !! length out).
    rewrite list_lookup_middle by reflexivity. reflexivity. }
  unfold findEnclosingStringLiteral.
  replace (1 - 1) with 0 by lia.
  assert (B : lastIndexUpTo lit newline 0 = None).
  { unfold lit. cbn [lastIndexUpTo app]. cbn -[ceq]. rewrite Qn. reflexivity. }
  rewrite B.
  assert (A : indexOfFrom lit newline selectionEnd = None).
  { unfold indexOfFrom. apply indexOf_from_none, includesChar_drop, Hlit. }
  rewrite A.
  assert (O : scanOpen lit 0 1 = Some (0, to)).
  { cbn [scanOpen]. change (0 <? 0) with false. cbv iota.
    change (lit !! 0) with (Some (quoteChar to)). cbv iota.
    rewrite Qo, E0. reflexivity. }
  rewrite O.
  replace (Nat.max selectionEnd (0 + 1)) with selectionEnd by lia.
  rewrite (scanClose_first lit to (S (length out)) Last E1); [| lia | lia |].
  - assert (C1 : (1 <? 0) = false) by reflexivity.
    assert (C2 : (S (length out) + 1 <? selectionEnd) = false) by (apply Nat.ltb_ge; lia).
    rewrite C1, C2. cbn [orb]. rewrite L. repeat f_equal; lia.
  - intros j Hj Hq. apply E2; [lia|exact Hq].
Qed.

(** ** The literal around a selection *)

Lemma quoteOf_Some c q : quoteOf c = Some q -> c = quoteChar q.
Proof.
  unfold quoteOf. intros H.
  destruct (ceq c squote) eqn:A; [apply ceq_eq in A; injection H as <-; exact A|].
  destruct (ceq c dquote) eqn:B; [apply ceq_eq in B; injection H as <-; exact B|].
  destruct (ceq c btick) eqn:C; [apply ceq_eq in C; injection H as <-; exact C|].
  discriminate.
Qed.

Lemma scanOpen_spec text lineStart : forall i1 o q,
  scanOpen text lineStart i1 = Some (o, q) ->
  lineStart <= o < i1 /\ text !! o = Some (quoteChar q) /\ isEscaped text o = false /\
  forall j c q', o < j < i1 -> text !! j = Some c -> quoteOf c = Some q' ->
    isEscaped text j = true.
Proof.
  induction i1 as [|i IH]; intros o q H; [discriminate|].
  cbn [scanOpen] in H.
  destruct (i <? lineStart) eqn:Lt; [discriminate|]. apply Nat.ltb_ge in Lt.
  assert (Rec : scanOpen text lineStart i = Some (o, q) ->
                (forall c q', text !! i = Some c -> quoteOf c = Some q' ->
                              isEscaped text i = true) ->
                lineStart <= o < S i /\ text !! o = Some (quoteChar q) /\
                isEscaped text o = false /\
                forall j c q', o < j < S i -> text !! j = Some c -> quoteOf c = Some q' ->
                  isEscaped text j = true).
  { intros R Hi. destruct (IH o q R) as (B & T & E & N).
    split; [lia|]. split; [exact T|]. split; [exact E|].
    intros j c q' Hj Hc Hq. destruct (decide (j = i)) as [->|Hne]; [eauto|].
    eapply N; eauto. lia. }
  destruct (text !! i) as [ch|] eqn:T; [|apply Rec; [exact H|discriminate]].
  destruct (quoteOf ch) as [q0|] eqn:Q.
  - destruct (isEscaped text i) eqn:E; cbn [negb] in H.
    + apply Rec; [exact H|]. intros; first [assumption | reflexivity].
    + injection H as <- <-. split; [lia|]. split; [|split; [exact E|intros; lia]].
      rewrite T. f_equal. apply quoteOf_Some, Q.
  - apply Rec; [exact H|]. intros c q' Hc Hq. injection Hc as <-. congruence.
Qed.

Lemma scanClose_spec text quote : forall n i c,
  scanClose text quote n i = Some c ->
  i <= c < i + n /\ text !! c = Some (quoteChar quote) /\ isEscaped text c = false /\
  forall j, i <= j < c -> text !! j = Some (quoteChar quote) -> isEscaped text j = true.
Proof.
  induction n as [|n IH]; intros i c H; [discriminate|].
  cbn [scanClose] in H.
  assert (Rec : scanClose text quote n (S i) = Some c ->
                (text !! i = Some (quoteChar quote) -> isEscaped text i = true) ->
                i <= c < i + S n /\ text !! c = Some (quoteChar quote) /\
                isEscaped text c = false /\
                forall j, i <= j < c -> text !! j = Some (quoteChar quote) ->
                  isEscaped text j = true).
  { intros R Hi. destruct (IH _ _ R) as (B & T & E & N).
    split; [lia|]. split; [exact T|]. split; [exact E|].
    intros j Hj Hq. destruct (decide (j = i)) as [->|Hne]; [auto|]. apply N; [lia|exact Hq]. }
  destruct (text !! i) as [ch|] eqn:T; [|apply Rec; [exact H|discriminate]].
  destruct (ceq ch (quoteChar quote)) eqn:Q.
  - apply ceq_eq in Q. subst ch. destruct (isEscaped text i) eqn:E; cbn [negb andb] in H.
    + apply Rec; [exact H|intros; first [assumption | reflexivity]].
    + injection H as <-. split; [lia|]. split; [exact T|]. split; [exact E|intros; lia].
  - cbn [andb] in H. apply Rec; [exact H|]. intros Hc. injection Hc as ->.
    rewrite ceq_refl in Q. discriminate.
Qed.

Lemma lastIndexUpTo_spec text c : forall n,
  match lastIndexUpTo text c n with
  | Some b => b <= n /\ forall k, b < k <= n -> text !! k <> Some c
  | None => forall k, k <= n -> text !! k <> Some c
  end.
Proof.
  assert (Hit : forall n x, text !! n = Some x -> ceq x c = false -> text !! n <> Some c).
  { intros n x T X E. rewrite T in E. injection E as ->. rewrite ceq_refl in X. discriminate. }
  induction n as [|n IH].
  - cbn [lastIndexUpTo]. destruct (text !! 0) as [x|] eqn:T.
    + destruct (ceq x c) eqn:X.
      * split; [lia|intros; lia].
      * intros k Hk. replace k with 0 by lia. eapply Hit; eauto.
    + intros k Hk. replace k with 0 by lia. rewrite T. discriminate.
  - cbn [lastIndexUpTo].
    assert (Rec : text !! S n <> Some c ->
              match lastIndexUpTo text c n with
              | Some b => b <= S n /\ forall k, b < k <= S n -> text !! k <> Some c
              | None => forall k, k <= S n -> text !! k <> Some c
              end).
    { intros Hn. destruct (lastIndexUpTo text c n) as [b|].
      - destruct IH as [B N]. split; [lia|]. intros k Hk.
        destruct (decide (k = S n)) as [->|]; [exact Hn|apply N; lia].
      - intros k Hk. destruct (decide (k = S n)) as [->|]; [exact Hn|apply IH; lia]. }
    destruct (text !! S n) as [x|] eqn:T.
    + destruct (ceq x c) eqn:X.
      * split; [lia|intros; lia].
      * apply Rec. rewrite <- T. eapply Hit; eauto.
    + apply Rec. discriminate.
Qed.

Lemma indexOf_from_spec c : forall (s : jsstring) i,
  match indexOf_from i s c with
  | Some a => i <= a < i + length s /\ forall k, k < a - i -> s !! k <> Some c
  | None => forall k, s !! k <> Some c
  end.
Proof.
  induction s as [|x s IH]; intros i; cbn [indexOf_from].
  - intros k. discriminate.
  - destruct (ceq x c) eqn:X.
    + split; [simpl; lia|intros; lia].
    + assert (Hx : x <> c) by (intros ->; rewrite ceq_refl in X; discriminate).
      specialize (IH (S i)). destruct (indexOf_from (S i) s c) as [a|].
      * destruct IH as [B N]. split; [simpl; lia|]. intros k Hk.
        destruct k as [|k]; [cbn; congruence|]. apply N. lia.
      * intros [|k]; [cbn; congruence|apply IH].
Qed.

Lemma indexOfFrom_spec text c fromIndex :
  match indexOfFrom text c fromIndex with
  | Some a => fromIndex <= a < length text /\ forall k, fromIndex <= k < a -> text !! k <> Some c
  | None => forall k, fromIndex <= k -> text !! k <> Some c
  end.
Proof.
  unfold indexOfFrom. pose proof (indexOf_from_spec c (drop fromIndex text) fromIndex) as H.
  destruct (indexOf_from fromIndex (drop fromIndex text) c) as [a|].
  - destruct H as [B N]. rewrite length_drop in B. split; [lia|].
    intros k Hk. specialize (N (k - fromIndex)). rewrite lookup_drop in N.
    replace (fromIndex + (k - fromIndex)) with k in N by lia. apply N. lia.
  - intros k Hk. specialize (H (k - fromIndex)). rewrite lookup_drop in H.
    replace (fromIndex + (k - fromIndex)) with k in H by lia. exact H.
Qed.

(** X13. What [findEnclosingStringLiteral] returns: the literal starts
    before the selection and ends after it, at the nearest quote to the left
    of the selection that is not escaped and at the first quote of the same
    kind from the end of the selection on that is not escaped, and it has no
    line feed outside the selection. *)
Theorem findEnclosingStringLiteral_found (text : jsstring) (selectionStart selectionEnd : nat)
    (lit : Literal) :
  findEnclosingStringLiteral text selectionStart selectionEnd = Some lit ->
  let q := quoteChar (l_quote lit) in
  (l_start lit < selectionStart /\ selectionEnd <= l_end lit <= length text) /\
  (innerStart lit = l_start lit + 1 /\ l_end lit = innerEnd lit + 1 /\
   innerStart lit <= innerEnd lit) /\
  (text !! l_start lit = Some q /\ isEscaped text (l_start lit) = false) /\
  (text !! innerEnd lit = Some q /\ isEscaped text (innerEnd lit) = false) /\
  (forall j c q', l_start lit < j < selectionStart -> text !! j = Some c ->
     quoteOf c = Some q' -> isEscaped text j = true) /\
  (forall j, Nat.max selectionEnd (innerStart lit) <= j < innerEnd lit ->
     text !! j = Some q -> isEscaped text j = true) /\
  (forall j, l_start lit <= j < l_end lit -> text !! j = Some newline ->
     selectionStart <= j < selectionEnd).
Proof.
  unfold findEnclosingStringLiteral. intros H.
  pose proof (lastIndexUpTo_spec text newline (selectionStart - 1)) as HB.
  pose proof (indexOfFrom_spec text newline selectionEnd) as HA.
  set (lineStart := match lastIndexUpTo text newline (selectionStart - 1) with
                    | Some b => b + 1 | None => 0 end) in *.
  set (lineEnd := match indexOfFrom text newline selectionEnd with
                  | Some a => a | None => length text end) in *.
  destruct (scanOpen text lineStart selectionStart) as [[o q0]|] eqn:O; [|discriminate].
  destruct (scanClose text q0 (lineEnd - Nat.max selectionEnd (o + 1))
              (Nat.max selectionEnd (o + 1))) as [c|] eqn:C; [|discriminate].
  destruct ((selectionStart <? o) || (c + 1 <? selectionEnd)) eqn:G; [discriminate|].
  injection H as <-. cbn [l_start l_end l_quote innerStart innerEnd].
  apply orb_false_elim in G as [G1 G2]. apply Nat.ltb_ge in G1, G2.
  apply scanOpen_spec in O as (OB & OT & OE & ON).
  apply scanClose_spec in C as (CB & CT & CE & CN).
  assert (LE : lineEnd <= length text).
  { unfold lineEnd. destruct (indexOfFrom text newline selectionEnd); [lia|lia]. }
  assert (NB : forall j, lineStart <= j -> j <= selectionStart - 1 -> text !! j <> Some newline).
  { intros j Hj1 Hj2. unfold lineStart in Hj1.
    destruct (lastIndexUpTo text newline (selectionStart - 1)) as [b|].
    - apply HB. lia.
    - apply HB. lia. }
  assert (NA : forall j, selectionEnd <= j < lineEnd -> text !! j <> Some newline).
  { intros j Hj. unfold lineEnd in Hj.
    destruct (indexOfFrom text newline selectionEnd) as [a|].
    - apply HA. lia.
    - apply HA. lia. }
  split; [lia|]. split; [lia|]. split; [auto|]. split; [auto|].
  split; [exact ON|]. split.
  - intros j Hj Hq. apply CN; [|exact Hq]. lia.
  - intros j Hj Hn. split.
    + destruct (decide (selectionStart <= j)) as [|N]; [assumption|].
      exfalso. apply (NB j); [lia|lia|assumption].
    + destruct (decide (j < selectionEnd)) as [|N]; [assumption|].
      exfalso. apply (NA j); [lia|assumption].
Qed.

(** ** The quote conversions offered *)

(** X14. The quote conversions offered for a selection inside a literal: the
    template string unless the literal is one, then the double-quoted string
    unless the literal is one or its content has a line feed. Each replaces
    the whole literal, and in its new text the only quotes of the new kind
    that are not escaped are the first and the last character. *)
Theorem quoteActions_offered (text : jsstring) (range : Range) (lit : Literal) :
  let selStart := fst (rangeToOffsets text range) in
  let selEnd := snd (rangeToOffsets text range) in
  let effectiveEnd :=
    if selStart =? selEnd then Nat.min (selEnd + 1) (length text) else selEnd in
  findEnclosingStringLiteral text selStart effectiveEnd = Some lit ->
  let content := slice text (innerStart lit) (innerEnd lit) in
  let actions := quoteActions text range in
  title <$> actions =
    (if quote_eqb (l_quote lit) QBacktick then [] else ["Convert to template string"%string]) ++
    (if quote_eqb (l_quote lit) QDouble || includesChar content newline then []
     else ["Convert to double quotes"%string]) /\
  forall a, a ∈ actions ->
    literalRange a = mkRange (offsetToPosition text (Z.of_nat (l_start lit)))
                             (offsetToPosition text (Z.of_nat (l_end lit))) /\
    exists to out,
      to <> l_quote lit /\
      rewriteLiteralContent content (l_quote lit) to = Some out /\
      newText a = [quoteChar to] ++ out ++ [quoteChar to] /\
      forall i, newText a !! i = Some (quoteChar to) ->
        (isEscaped (newText a) i = false <-> i = 0 \/ i = S (length out)).
Proof.
  intros selStart selEnd effectiveEnd Hlit content actions.
  assert (Delim : forall to out, rewriteLiteralContent content (l_quote lit) to = Some out ->
            forall i, ([quoteChar to] ++ out ++ [quoteChar to]) !! i = Some (quoteChar to) ->
              (isEscaped ([quoteChar to] ++ out ++ [quoteChar to]) i = false <->
               i = 0 \/ i = S (length out))).
  { intros to out H i Hi.
    destruct (rewritten_delimiters content (l_quote lit) to out H) as (E0 & E1 & E2).
    assert (L : i < length ([quoteChar to] ++ out ++ [quoteChar to]))
      by (eapply lookup_lt_Some; eauto).
    rewrite !length_app in L. simpl in L.
    split.
    - intros Hf. destruct (decide (i = 0)) as [|N0]; [auto|].
      destruct (decide (i = S (length out))) as [|N1]; [auto|].
      rewrite E2 in Hf by (auto; lia). discriminate.
    - intros [-> | ->]; assumption. }
  assert (E : actions =
            (if negb (quote_eqb (l_quote lit) QBacktick) then
               match rewriteLiteralContent content (l_quote lit) QBacktick with
               | Some rewritten =>
                   [mkQuoteAction "Convert to template string"
                      (mkRange (offsetToPosition text (Z.of_nat (l_start lit)))
                               (offsetToPosition text (Z.of_nat (l_end lit))))
                      ([btick] ++ rewritten ++ [btick])]
               | None => []
               end
             else []) ++
            (if negb (quote_eqb (l_quote lit) QDouble) then
               match rewriteLiteralContent content (l_quote lit) QDouble with
               | Some rewritten =>
                   [mkQuoteAction "Convert to double quotes"
                      (mkRange (offsetToPosition text (Z.of_nat (l_start lit)))
                               (offsetToPosition text (Z.of_nat (l_end lit))))
                      ([dquote] ++ rewritten ++ [dquote])]
               | None => []
               end
             else [])).
  { unfold actions, quoteActions. subst effectiveEnd selStart selEnd.
    destruct (rangeToOffsets text range) as [a b]. cbn [fst snd] in Hlit.
    rewrite Hlit. reflexivity. }
  rewrite E. clear E.
  destruct (rewriteLiteralContent content (l_quote lit) QBacktick) as [t|] eqn:T.
  2: { exfalso. exact (rewrite_backtick_total _ _ T). }
  destruct (rewriteLiteralContent content (l_quote lit) QDouble) as [d|] eqn:D.
  - assert (Nl : includesChar content newline = false).
    { destruct (includesChar content newline) eqn:N; [|reflexivity].
      assert (X : rewriteLiteralContent content (l_quote lit) QDouble = None)
        by (apply rewrite_double_null; exact N).
      congruence. }
    rewrite Nl, orb_false_r. split.
    + destruct (l_quote lit); reflexivity.
    + intros a Ha.
      assert (Cases : (l_quote lit <> QBacktick /\
                       a = mkQuoteAction "Convert to template string"
                             (mkRange (offsetToPosition text (Z.of_nat (l_start lit)))
                                      (offsetToPosition text (Z.of_nat (l_end lit))))
                             ([btick] ++ t ++ [btick])) \/
                      (l_quote lit <> QDouble /\
                       a = mkQuoteAction "Convert to double quotes"
                             (mkRange (offsetToPosition text (Z.of_nat (l_start lit)))
                                      (offsetToPosition text (Z.of_nat (l_end lit))))
                             ([dquote] ++ d ++ [dquote]))).
      { destruct (l_quote lit); cbn [quote_eqb negb app] in Ha;
          repeat (apply elem_of_cons in Ha as [-> | Ha]);
          try (apply elem_of_nil in Ha; contradiction);
          try (left; split; [discriminate|reflexivity]);
          try (right; split; [discriminate|reflexivity]). }
      destruct Cases as [[Hq ->] | [Hq ->]]; cbn [literalRange newText];
        (split; [reflexivity|]).
      * exists QBacktick, t. split; [congruence|]. split; [exact T|]. split; [reflexivity|].
        apply (Delim QBacktick t T).
      * exists QDouble, d. split; [congruence|]. split; [exact D|]. split; [reflexivity|].
        apply (Delim QDouble d D).
  - apply rewrite_double_null in D. rename D into Nl. rewrite Nl, orb_true_r, !app_nil_r.
    split.
    + destruct (l_quote lit); reflexivity.
    + intros a Ha.
      assert (Cases : l_quote lit <> QBacktick /\
                      a = mkQuoteAction "Convert to template string"
                            (mkRange (offsetToPosition text (Z.of_nat (l_start lit)))
                                     (offsetToPosition text (Z.of_nat (l_end lit))))
                            ([btick] ++ t ++ [btick])).
      { destruct (l_quote lit); cbn [quote_eqb negb app] in Ha;
          repeat (apply elem_of_cons in Ha as [-> | Ha]);
          try (apply elem_of_nil in Ha; contradiction);
          split; (discriminate || reflexivity). }
      destruct Cases as [Hq ->]. cbn [literalRange newText]. split; [reflexivity|].
      exists QBacktick, t. split; [congruence|]. split; [exact T|]. split; [reflexivity|].
      apply (Delim QBacktick t T).
Qed.

(** ** Banks *)

Lemma splitOn_plain c s : forall cur, c ∉ s -> splitOn c s cur = [rev cur ++ s].
Proof.
  induction s as [|x s IH]; intros cur H; cbn [splitOn].
  - rewrite app_nil_r. reflexivity.
  - destruct (ceq x c) eqn:X.
    + apply ceq_eq in X. subst x. exfalso. apply H. left.
    + rewrite IH by (intros Hin; apply H; right; exact Hin).
      cbn [rev]. rewrite <- app_assoc. reflexivity.
Qed.

Lemma splitOn_first c b r : forall cur,
  c ∉ b -> splitOn c (b ++ c :: r) cur = (rev cur ++ b) :: splitOn c r [].
Proof.
  induction b as [|x b IH]; intros cur H; cbn [splitOn app].
  - rewrite ceq_refl, app_nil_r. reflexivity.
  - destruct (ceq x c) eqn:X.
    + apply ceq_eq in X. subst x. exfalso. apply H. left.
    + rewrite IH by (intros Hin; apply H; right; exact Hin).
      cbn [rev]. rewrite <- app_assoc. reflexivity.
Qed.

(** A string has no [c], or a first one. *)
Lemma first_occurrence (c : ascii) (s : jsstring) :
  (c ∉ s) \/ exists b r, s = b ++ c :: r /\ (c ∉ b).
Proof.
  induction s as [|x s IH]; [left; apply not_elem_of_nil|].
  destruct (ceq x c) eqn:X.
  - apply ceq_eq in X. subst x. right. exists [], s. split; [reflexivity|apply not_elem_of_nil].
  - assert (Hx : x <> c) by (intros ->; rewrite ceq_refl in X; discriminate).
    destruct IH as [H | (b & r & -> & H)].
    + left. intros Hin. apply elem_of_cons in Hin as [->|Hin]; [contradiction|auto].
    + right. exists (x :: b), r. split; [reflexivity|].
      intros Hin. apply elem_of_cons in Hin as [->|Hin]; [contradiction|auto].
Qed.

(** The first piece of a split is not empty when the string does not start
    with the separator. *)
Lemma splitOn_head c x rest :
  x <> c -> exists p ps, splitOn c (x :: rest) [] = (x :: p) :: ps.
Proof.
  intros Hx. destruct (first_occurrence c (x :: rest)) as [H | (b & r & E & H)].
  - rewrite splitOn_plain by exact H. eauto.
  - rewrite E, splitOn_first by exact H. destruct b as [|y b]; cbn [app] in E.
    + injection E as -> _. contradiction.
    + injection E as -> _. cbn [rev app]. eauto.
Qed.

(** The test of the loop of [deriveBanksFromSounds] on one key. *)
Lemma bank_test (key bank : jsstring) :
  (exists suffix, splitOn "_"%char key [] !! 0 = Some bank /\
                  splitOn "_"%char key [] !! 1 = Some suffix /\
                  nonEmpty suffix && nonEmpty bank = true) <->
  bankKey bank key.
Proof.
  split.
  - intros (suffix & H0 & H1 & Hn). apply andb_prop in Hn as [Hs Hb].
    destruct (first_occurrence "_"%char key) as [H | (b & r & -> & H)].
    + rewrite splitOn_plain in H1 by exact H. discriminate.
    + rewrite splitOn_first in H0, H1 by exact H. cbn in H0. injection H0 as <-.
      change ((([] ++ b) :: splitOn "_"%char r []) !! 1) with (splitOn "_"%char r [] !! 0) in H1.
      destruct r as [|x rest].
      { cbn in H1. injection H1 as <-. discriminate. }
      destruct (ceq x "_"%char) eqn:X.
      { cbn [splitOn] in H1. rewrite X in H1. cbn in H1. injection H1 as <-. discriminate. }
      exists x, rest. split; [reflexivity|]. split; [exact H|]. split.
      * intros ->. discriminate.
      * intros ->. discriminate.
  - intros (x & rest & -> & H & Hb & Hx).
    destruct (splitOn_head "_"%char x rest Hx) as (p & ps & E).
    exists (x :: p). rewrite splitOn_first by exact H. rewrite E.
    split; [reflexivity|]. split; [reflexivity|].
    destruct bank; [contradiction|reflexivity].
Qed.

Lemma setAdd_elem x y l : x ∈ setAdd y l <-> x = y \/ x ∈ l.
Proof.
  unfold setAdd. destruct (existsb (seq_eqb y) l) eqn:E.
  - split; [auto|]. intros [->|H]; [|exact H].
    apply existsb_exists in E as (z & Hz & Ez). apply seq_eqb_eq in Ez. subst z.
    apply list_elem_of_In, Hz.
  - rewrite elem_of_app, list_elem_of_singleton. tauto.
Qed.

Lemma setAdd_NoDup y l : NoDup l -> NoDup (setAdd y l).
Proof.
  intros H. unfold setAdd. destruct (existsb (seq_eqb y) l) eqn:E; [exact H|].
  apply NoDup_app. split; [exact H|]. split; [|apply NoDup_singleton].
  intros x Hx Hy. apply list_elem_of_singleton in Hy. subst x.
  assert (existsb (seq_eqb y) l = true); [|congruence].
  apply existsb_exists. exists y. split; [apply list_elem_of_In, Hx|].
  apply seq_eqb_eq. reflexivity.
Qed.

(** X15. [deriveBanksFromSounds] gives, in order and once each, the banks
    that some sound name belongs to: the part before the first underscore of
    a name, when that part is not empty and the underscore is followed by a
    character that is not an underscore. *)
Theorem deriveBanksFromSounds_spec (soundNames : list jsstring) :
  let banks := deriveBanksFromSounds soundNames in
  StronglySorted str_le banks /\ NoDup banks /\
  forall bank, bank ∈ banks <-> exists key, key ∈ soundNames /\ bankKey bank key.
Proof.
  intros banks. subst banks. unfold deriveBanksFromSounds.
  set (f := fun (banks : list jsstring) (key : jsstring) =>
              match splitOn "_"%char key [] !! 0, splitOn "_"%char key [] !! 1 with
              | Some bank, Some suffix =>
                  if nonEmpty suffix && nonEmpty bank then setAdd bank banks else banks
              | _, _ => banks
              end).
  assert (F : forall names acc, NoDup acc ->
            NoDup (fold_left f names acc) /\
            forall bank, bank ∈ fold_left f names acc <->
              bank ∈ acc \/ exists key, key ∈ names /\ bankKey bank key).
  { induction names as [|key names IH]; intros acc Hacc; cbn [fold_left].
    - split; [exact Hacc|]. intros bank. split; [auto|].
      intros [H|(key & Hk & _)]; [exact H|]. apply elem_of_nil in Hk. contradiction.
    - assert (S : NoDup (f acc key) /\
                  forall bank, bank ∈ f acc key <-> bank ∈ acc \/ bankKey bank key).
      { unfold f.
        destruct (splitOn "_"%char key [] !! 0) as [b0|] eqn:E0;
          [destruct (splitOn "_"%char key [] !! 1) as [s1|] eqn:E1;
           [destruct (nonEmpty s1 && nonEmpty b0) eqn:N|]|].
        - split; [apply setAdd_NoDup, Hacc|]. intros bank. rewrite setAdd_elem.
          split.
          + intros [->|H]; [|auto]. right. apply bank_test. exists s1. auto.
          + intros [H|H]; [auto|]. left. apply bank_test in H as (s & H0 & _).
            rewrite E0 in H0. injection H0 as ->. reflexivity.
        - split; [exact Hacc|]. intros bank. split; [auto|]. intros [H|H]; [exact H|].
          apply bank_test in H as (s & H0 & H1 & Hn).
          rewrite E0 in H0. injection H0 as ->. rewrite E1 in H1. injection H1 as ->.
          congruence.
        - split; [exact Hacc|]. intros bank. split; [auto|]. intros [H|H]; [exact H|].
          apply bank_test in H as (s & _ & H1 & _). rewrite E1 in H1. discriminate.
        - split; [exact Hacc|]. intros bank. split; [auto|]. intros [H|H]; [exact H|].
          apply bank_test in H as (s & H0 & _). rewrite E0 in H0. discriminate. }
      destruct S as [S1 S2]. destruct (IH _ S1) as [I1 I2]. split; [exact I1|].
      intros bank. rewrite I2, S2. split.
      + intros [[H|H]|(k & Hk & Hb)]; [auto| |].
        * right. exists key. split; [left|exact H].
        * right. exists k. split; [right; exact Hk|exact Hb].
      + intros [H|(k & Hk & Hb)]; [auto|].
        apply elem_of_cons in Hk as [->|Hk]; [auto|]. right. eauto. }
  destruct (F soundNames [] (NoDup_nil_2)) as [F1 F2].
  split; [apply sort_sorted|]. split.
  - unfold sort. rewrite sortBy_perm. exact F1.
  - intros bank. rewrite sort_elem, F2. split.
    + intros [H|H]; [apply elem_of_nil in H; contradiction|exact H].
    + auto.
Qed.

(** ** The documentation index *)

Lemma keptDoc_Some d name :
  keptDoc d = Some name ->
  getDocLabel d = Some name /\ isValidDoc d = true /\ isRecord d = true /\ name <> [].
Proof.
  unfold keptDoc. destruct (isRecord d); [|discriminate].
  destruct (isValidDoc d); [|discriminate]. cbn [negb].
  destruct (getDocLabel d) as [n|]; [|discriminate].
  destruct n as [|x n]; [discriminate|]. intros H. injection H as <-.
  repeat split. discriminate.
Qed.

Lemma seq_eqb_refl a : seq_eqb a a = true.
Proof. apply seq_eqb_eq. reflexivity. Qed.

Lemma seq_eqb_neq a b : a <> b -> seq_eqb a b = false.
Proof.
  intros H. destruct (seq_eqb a b) eqn:E; [|reflexivity]. apply seq_eqb_eq in E. contradiction.
Qed.

Lemma setIfAbsent_lookup {V} (key : jsstring) (v : V) (m : gmap jsstring V) k :
  setIfAbsent key v m !! k =
    match m !! k with
    | Some x => Some x
    | None => if seq_eqb key k then Some v else None
    end.
Proof.
  unfold setIfAbsent. destruct (m !! key) as [x|] eqn:E.
  - destruct (m !! k) as [y|] eqn:F; [reflexivity|].
    rewrite seq_eqb_neq; [reflexivity|]. congruence.
  - destruct (decide (key = k)) as [->|N].
    + rewrite lookup_insert_eq, E, seq_eqb_refl. reflexivity.
    + rewrite lookup_insert_ne by congruence. rewrite seq_eqb_neq by exact N.
      destruct (m !! k); reflexivity.
Qed.

(** The synonyms loop inside the first loop of [buildDocIndex]. *)
Lemma synonyms_loop (name : jsstring) (k : jsstring) : forall (syns : list json)
    (m : gmap jsstring jsstring),
  fold_left (fun bySynonym s =>
               match s with
               | JStr s => if nonEmpty s then setIfAbsent s name bySynonym else bySynonym
               | _ => bySynonym
               end) syns m !! k =
    match m !! k with
    | Some x => Some x
    | None =>
        if nonEmpty k &&
           existsb (fun j => match j with JStr t => seq_eqb t k | _ => false end) syns
        then Some name else None
    end.
Proof.
  induction syns as [|s syns IH]; intros m; cbn [fold_left existsb].
  - rewrite andb_false_r. destruct (m !! k); reflexivity.
  - rewrite IH. clear IH.
    destruct s as [| | |t| |]; cbn [orb]; try reflexivity.
    destruct t as [|x t]; cbn [nonEmpty].
    + destruct k as [|y k]; [|reflexivity]. cbn [nonEmpty andb].
      destruct (m !! []); reflexivity.
    + rewrite setIfAbsent_lookup. destruct (m !! k) as [y|]; [reflexivity|].
      destruct (seq_eqb (x :: t) k) eqn:E; [|reflexivity].
      apply seq_eqb_eq in E. subst k. reflexivity.
Qed.

(** The two maps after the first loop over [docs], from any maps. *)
Lemma index_loop (name : jsstring) : forall (docs : list json)
    (maps : gmap jsstring json * gmap jsstring jsstring),
  fst (fold_left indexDoc docs maps) !! name =
    match fst maps !! name with
    | Some d => Some d
    | None => List.find (namedDoc name) docs
    end /\
  snd (fold_left indexDoc docs maps) !! name =
    match snd maps !! name with
    | Some n => Some n
    | None =>
        if nonEmpty name
        then match List.find (listsSynonym name) docs with
             | Some d => keptDoc d
             | None => None
             end
        else None
    end.
Proof.
  induction docs as [|d docs IH]; intros maps; cbn [fold_left List.find].
  - destruct (fst maps !! name), (snd maps !! name), (nonEmpty name); auto.
  - destruct (IH (indexDoc maps d)) as [IH1 IH2]. rewrite IH1, IH2. clear IH IH1 IH2.
    unfold indexDoc, namedDoc, listsSynonym.
    destruct (keptDoc d) as [n|] eqn:K; [|split; reflexivity].
    cbn [fst snd]. rewrite setIfAbsent_lookup, synonyms_loop. split.
    + destruct (fst maps !! name); [reflexivity|].
      destruct (seq_eqb n name); reflexivity.
    + destruct (snd maps !! name); [reflexivity|].
      destruct (nonEmpty name); cbn [andb]; [|reflexivity].
      destruct (existsb _ (synonymsOf d)); [|reflexivity].
      rewrite K. reflexivity.
Qed.

Lemma find_Some_elem {A} (p : A -> bool) l x :
  List.find p l = Some x -> x ∈ l /\ p x = true.
Proof. intros H. apply find_some in H as [H1 H2]. split; [apply list_elem_of_In, H1|exact H2]. Qed.

Lemma find_is_Some {A} (p : A -> bool) l x :
  x ∈ l -> p x = true -> is_Some (List.find p l).
Proof.
  intros Hx Hp. destruct (List.find p l) eqn:E; [eauto|].
  apply list_elem_of_In in Hx. pose proof (find_none _ _ E _ Hx). congruence.
Qed.

Lemma byName_lookup (docs : list json) (name : jsstring) :
  fst (fold_left indexDoc docs (∅, ∅)) !! name = List.find (namedDoc name) docs.
Proof.
  destruct (index_loop name docs (∅, ∅)) as [E _]. rewrite E.
  cbn [fst]. rewrite lookup_empty. reflexivity.
Qed.

Lemma bySynonym_lookup (docs : list json) (s : jsstring) :
  snd (fold_left indexDoc docs (∅, ∅)) !! s =
    if nonEmpty s
    then match List.find (listsSynonym s) docs with
         | Some d => keptDoc d
         | None => None
         end
    else None.
Proof.
  destruct (index_loop s docs (∅, ∅)) as [_ E]. rewrite E.
  cbn [snd]. rewrite lookup_empty. reflexivity.
Qed.

(** X16. The maps of the documentation index: a label maps to the first
    document kept under it, which is valid and has that label; a synonym
    maps to the label of the first kept document that lists it, and that
    label is in turn a key of [byName]. *)
Theorem buildDocIndex_maps (fields : list (jsstring * json)) (docs : list json)
    (idx : FullDocIndex) :
  getField fields (str "docs") = Some (JArr docs) ->
  buildDocIndex (Some (JObj fields)) = Some idx ->
  (forall name, byName idx !! name = List.find (namedDoc name) docs) /\
  (forall name d, byName idx !! name = Some d ->
     getDocLabel d = Some name /\ isValidDoc d = true /\ name <> []) /\
  (forall s, bySynonym idx !! s =
     if nonEmpty s
     then match List.find (listsSynonym s) docs with
          | Some d => keptDoc d
          | None => None
          end
     else None) /\
  (forall s name, bySynonym idx !! s = Some name -> is_Some (byName idx !! name)).
Proof.
  intros Hd H. unfold buildDocIndex in H. rewrite Hd in H. injection H as <-.
  cbn [byName bySynonym].
  split; [apply byName_lookup|]. split; [|split; [apply bySynonym_lookup|]].
  - intros name d. rewrite byName_lookup. intros F. apply find_Some_elem in F as [_ F].
    unfold namedDoc in F. destruct (keptDoc d) as [n|] eqn:K; [|discriminate].
    apply seq_eqb_eq in F. subst n. apply keptDoc_Some in K. tauto.
  - intros s name. rewrite bySynonym_lookup, byName_lookup.
    destruct (nonEmpty s); [|discriminate].
    destruct (List.find (listsSynonym s) docs) as [d|] eqn:F; [|discriminate].
    intros K. apply find_Some_elem in F as [Hin _].
    eapply find_is_Some; [exact Hin|]. unfold namedDoc. rewrite K. apply seq_eqb_refl.
Qed.

(** *** The completions of the index *)

Lemma nonEmptyStrings_elem (l : jsstring) (items : list json) :
  l ∈ nonEmptyStrings items <->
  nonEmpty l && existsb (fun j => match j with JStr t => seq_eqb t l | _ => false end) items
    = true.
Proof.
  induction items as [|j items IH]; cbn [nonEmptyStrings existsb].
  - rewrite andb_false_r. split; [intros H; apply elem_of_nil in H; contradiction|discriminate].
  - assert (Skip : (l ∈ nonEmptyStrings items <->
                    nonEmpty l && (false || existsb
                      (fun j => match j with JStr t => seq_eqb t l | _ => false end) items)
                      = true)) by exact IH.
    destruct j as [| | |t| |]; try exact Skip.
    destruct t as [|x t]; cbn [nonEmpty].
    + destruct l as [|y l]; [|exact Skip]. cbn [nonEmpty andb]. rewrite IH. cbn. tauto.
    + rewrite elem_of_cons, IH. destruct (seq_eqb (x :: t) l) eqn:E.
      * apply seq_eqb_eq in E. subst l. cbn. tauto.
      * cbn [orb]. split; [|auto]. intros [->|H]; [|exact H].
        rewrite seq_eqb_refl in E. discriminate.
Qed.

Lemma existsb_seq_eqb (l : jsstring) (seen : list jsstring) :
  existsb (seq_eqb l) seen = true <-> l ∈ seen.
Proof.
  rewrite existsb_exists. split.
  - intros (x & Hx & E). apply seq_eqb_eq in E. subst x. apply list_elem_of_In, Hx.
  - intros H. exists l. split; [apply list_elem_of_In, H|apply seq_eqb_refl].
Qed.

(** The loop over the labels of one document. *)
Lemma labels_loop (docs : list json) (c : jsstring) (d : json) :
  d ∈ docs -> keptDoc d = Some c ->
  forall (labels : list jsstring) (acc : list jsstring * list CmCompletionOption),
    (forall l, l ∈ labels -> l ∈ labelsOf c d) ->
    completionsOk docs acc ->
    let f := fun (acc : list jsstring * list CmCompletionOption) (label : jsstring) =>
               if existsb (seq_eqb label) (fst acc) then acc
               else (fst acc ++ [label],
                     snd acc ++ [mkOption label (Some (str "function")) None None (Some c)
                                          (Some (negb (seq_eqb label c)))]) in
    completionsOk docs (fold_left f labels acc) /\
    forall l, l ∈ fst (fold_left f labels acc) <-> l ∈ fst acc \/ l ∈ labels.
Proof.
  intros Hd K. induction labels as [|x labels IH]; intros acc Hl Hacc f; cbn [fold_left].
  - split; [exact Hacc|]. intros l. split; [auto|].
    intros [H|H]; [exact H|apply elem_of_nil in H; contradiction].
  - assert (Step : completionsOk docs (f acc x) /\
                   forall l, l ∈ fst (f acc x) <-> l ∈ fst acc \/ l = x).
    { unfold f. destruct (existsb (seq_eqb x) (fst acc)) eqn:E.
      - split; [exact Hacc|]. intros l. split; [auto|]. intros [H | ->]; [exact H|].
        apply existsb_seq_eqb, E.
      - destruct Hacc as (A1 & A2 & A3). split.
        + split; [|split]; cbn [fst snd].
          * rewrite map_app, A1. reflexivity.
          * apply NoDup_app. split; [exact A2|]. split; [|apply NoDup_singleton].
            intros y Hy Hx. apply list_elem_of_singleton in Hx. subst y.
            apply existsb_seq_eqb in Hy. congruence.
          * apply Forall_app. split; [exact A3|]. apply Forall_singleton.
            split; [reflexivity|]. split; [reflexivity|]. split; [reflexivity|].
            exists c, d. cbn [label canonicalName isSynonym].
            split; [exact Hd|]. split; [exact K|]. split; [reflexivity|].
            split; [apply Hl; left|reflexivity].
        + intros l. cbn [fst]. rewrite elem_of_app, list_elem_of_singleton. reflexivity. }
    destruct Step as [S1 S2].
    destruct (IH (f acc x)) as [I1 I2]; [intros l H; apply Hl; right; exact H|exact S1|].
    split; [exact I1|]. intros l. etransitivity; [apply I2|].
    rewrite S2, elem_of_cons. tauto.
Qed.

(** The second loop. *)
Lemma completions_loop (all : list json) : forall (docs : list json)
    (acc : list jsstring * list CmCompletionOption),
  (forall d, d ∈ docs -> d ∈ all) ->
  completionsOk all acc ->
  completionsOk all (fold_left completeDoc docs acc) /\
  forall l, l ∈ fst (fold_left completeDoc docs acc) <->
    l ∈ fst acc \/ exists d c, d ∈ docs /\ keptDoc d = Some c /\ l ∈ labelsOf c d.
Proof.
  induction docs as [|d docs IH]; intros acc Hall Hacc; cbn [fold_left].
  - split; [exact Hacc|]. intros l. split; [auto|].
    intros [H|(d & c & H & _)]; [exact H|apply elem_of_nil in H; contradiction].
  - assert (Step : completionsOk all (completeDoc acc d) /\
                   forall l, l ∈ fst (completeDoc acc d) <->
                     l ∈ fst acc \/ exists c, keptDoc d = Some c /\ l ∈ labelsOf c d).
    { unfold completeDoc. destruct (keptDoc d) as [c|] eqn:K.
      - destruct (labels_loop all c d (Hall d ltac:(left)) K (labelsOf c d) acc
                    ltac:(auto) Hacc) as [L1 L2].
        split; [exact L1|]. intros l. rewrite L2. split.
        + intros [H|H]; [auto|]. right. exists c. auto.
        + intros [H|(c' & E & H)]; [auto|]. injection E as <-. auto.
      - split; [exact Hacc|]. intros l. split; [auto|].
        intros [H|(c & E & _)]; [exact H|discriminate]. }
    destruct Step as [S1 S2].
    destruct (IH (completeDoc acc d)) as [I1 I2];
      [intros x Hx; apply Hall; right; exact Hx|exact S1|].
    split; [exact I1|]. intros l. rewrite I2, S2. split.
    + intros [[H|(c & K & H)]|(d' & c & Hd & K & H)]; [auto| |].
      * right. exists d, c. split; [left|auto].
      * right. exists d', c. split; [right; exact Hd|auto].
    + intros [H|(d' & c & Hd & K & H)]; [auto|].
      apply elem_of_cons in Hd as [-> | Hd]; [left; right; eauto|right; eauto].
Qed.

(** X17. The completions of the documentation index: one for each key of the
    two maps, none twice, each a function with the label of a kept document
    as its canonical name, which is a key of [byName], and marked as a
    synonym exactly when its label differs from that name. *)
Theorem buildDocIndex_completions (fields : list (jsstring * json)) (docs : list json)
    (idx : FullDocIndex) :
  getField fields (str "docs") = Some (JArr docs) ->
  buildDocIndex (Some (JObj fields)) = Some idx ->
  let opts := jsdocCompletions (forComplete idx) in
  NoDup (map label opts) /\
  (forall l, l ∈ map label opts <->
     is_Some (byName idx !! l) \/ is_Some (bySynonym idx !! l)) /\
  (forall o, o ∈ opts ->
     type o = Some (str "function") /\ apply o = None /\
     exists c, canonicalName o = Some c /\ is_Some (byName idx !! c) /\
       isSynonym o = Some (negb (seq_eqb (label o) c))).
Proof.
  intros Hd H opts. unfold buildDocIndex in H. rewrite Hd in H. injection H as <-.
  subst opts. cbn [byName bySynonym forComplete jsdocCompletions].
  destruct (completions_loop docs docs ([], [])) as [[C1 [C2 C3]] C4]; [auto| |].
  { split; [reflexivity|]. split; [apply NoDup_nil_2|apply Forall_nil_2]. }
  set (acc := fold_left completeDoc docs ([], [])) in *.
  rewrite <- C1. split; [exact C2|]. split.
  - intros l. rewrite C4, byName_lookup, bySynonym_lookup. split.
    + intros [H|(d & c & Hin & K & Hl)]; [apply elem_of_nil in H; contradiction|].
      pose proof (keptDoc_Some _ _ K) as (_ & _ & _ & Hc).
      unfold labelsOf in Hl. cbn [nonEmptyStrings] in Hl.
      destruct c as [|x c]; [contradiction|]. cbn [nonEmpty] in Hl.
      apply elem_of_cons in Hl as [-> | Hl].
      * left. eapply find_is_Some; [exact Hin|]. unfold namedDoc. rewrite K. apply seq_eqb_refl.
      * right. apply nonEmptyStrings_elem in Hl. apply andb_prop in Hl as [N E].
        rewrite N.
        destruct (find_is_Some (listsSynonym l) docs d Hin) as [d' F].
        { unfold listsSynonym. rewrite K. exact E. }
        rewrite F. apply find_Some_elem in F as [_ F]. unfold listsSynonym in F.
        destruct (keptDoc d'); [eauto|discriminate].
    + intros [[d F]|[n F]]; right.
      * apply find_Some_elem in F as [Hin F]. unfold namedDoc in F.
        destruct (keptDoc d) as [c|] eqn:K; [|discriminate].
        apply seq_eqb_eq in F. subst c. exists d, l. split; [exact Hin|]. split; [exact K|].
        pose proof (keptDoc_Some _ _ K) as (_ & _ & _ & Hc).
        unfold labelsOf. cbn [nonEmptyStrings].
        destruct l as [|x l]; [contradiction|]. left.
      * destruct (nonEmpty l) eqn:N; [|discriminate].
        destruct (List.find (listsSynonym l) docs) as [d|] eqn:G; [|discriminate].
        apply find_Some_elem in G as [Hin G]. unfold listsSynonym in G.
        destruct (keptDoc d) as [c|] eqn:K; [|discriminate].
        exists d, c. split; [exact Hin|]. split; [exact K|].
        pose proof (keptDoc_Some _ _ K) as (_ & _ & _ & Hc).
        unfold labelsOf. cbn [nonEmptyStrings].
        destruct c as [|x c]; [contradiction|]. cbn [nonEmpty]. right.
        apply nonEmptyStrings_elem. rewrite N. exact G.
  - intros o Ho. rewrite Forall_forall in C3. destruct (C3 o Ho) as (T & A & _ & c & d & Hin & K & Cn & _ & S).
    split; [exact T|]. split; [exact A|]. exists c. split; [exact Cn|]. split; [|exact S].
    rewrite byName_lookup. eapply find_is_Some; [exact Hin|].
    unfold namedDoc. rewrite K. apply seq_eqb_refl.
Qed.

(** ** The sample index at startup *)

Lemma code_inj (x y : ascii) : code x = code y -> x = y.
Proof.
  unfold code. intros H. rewrite <- (ascii_nat_embedding x), <- (ascii_nat_embedding y), H.
  reflexivity.
Qed.

Lemma str_leb_antisym (a : jsstring) : forall b,
  str_leb a b = true -> str_leb b a = true -> a = b.
Proof.
  induction a as [|x a IH]; intros [|y b] H1 H2; cbn [str_leb] in *; try congruence.
  destruct (code x <? code y) eqn:E1; destruct (code y <? code x) eqn:E2;
    try discriminate; rewrite ?Nat.ltb_lt, ?Nat.ltb_ge in *; try lia.
  f_equal; [apply code_inj; lia|auto].
Qed.

(** Sorting does not depend on the order of the elements. *)
Lemma sort_permutation (l1 l2 : list jsstring) : l1 ≡ₚ l2 -> sort l1 = sort l2.
Proof.
  intros H.
  assert (A : AntiSymm (=) str_le).
  { intros a b H1 H2. apply str_leb_antisym; assumption. }
  apply (StronglySorted_unique str_le); [apply sort_sorted|apply sort_sorted|].
  unfold sort. rewrite !sortBy_perm. exact H.
Qed.

Lemma filter_permutation {A} (p : A -> bool) (l1 l2 : list A) :
  l1 ≡ₚ l2 -> List.filter p l1 ≡ₚ List.filter p l2.
Proof.
  induction 1 as [|x l1 l2 _ IH|x y l|l1 l2 l3 _ IH1 _ IH2]; cbn [List.filter].
  - reflexivity.
  - destruct (p x); [constructor|]; exact IH.
  - destruct (p x), (p y); try reflexivity. apply perm_swap.
  - etransitivity; eassumption.
Qed.

Lemma filter_elem {A} (p : A -> bool) (l : list A) x :
  x ∈ List.filter p l <-> x ∈ l /\ p x = true.
Proof.
  split.
  - intros H. apply list_elem_of_In, filter_In in H as [H1 H2].
    split; [apply list_elem_of_In, H1|exact H2].
  - intros [H1 H2]. apply list_elem_of_In, filter_In. split; [apply list_elem_of_In, H1|exact H2].
Qed.

(** X18. The sample index built from a sample map at startup: the keys in
    order, without the key [_base] and the empty key, whatever the order in
    which the object gives its keys; the empty index for a value that is not
    an object. *)
Theorem buildSampleIndex_spec (sampleMap : option json) :
  let idx := buildSampleIndex sampleMap in
  StronglySorted str_le (si_soundNames idx) /\
  (forall key, key ∈ si_soundNames idx <->
     key ∈ objectKeys (default JNull sampleMap) /\ key <> str "_base" /\ key <> []) /\
  (notAnObject sampleMap = true -> idx = mkSampleIndex [] []) /\
  (forall fields fields', sampleMap = Some (JObj fields) -> fields' ≡ₚ fields ->
     buildSampleIndex (Some (JObj fields')) = idx).
Proof.
  intros idx. subst idx. unfold buildSampleIndex.
  destruct (notAnObject sampleMap) eqn:N.
  - cbn [si_soundNames]. split; [constructor|]. split; [|split; [reflexivity|]].
    + intros key. split; [intros H; apply elem_of_nil in H; contradiction|].
      intros (H & _). destruct sampleMap as [[]|]; try discriminate;
        apply elem_of_nil in H; contradiction.
    + intros fields fields' ->. discriminate.
  - cbn [si_soundNames]. split; [apply sort_sorted|]. split; [|split; [discriminate|]].
    + intros key. rewrite sort_elem, filter_elem, andb_true_iff, negb_true_iff.
      split; intros (H1 & H2 & H3); split; auto.
      * split; [intros ->; rewrite seq_eqb_refl in H2; discriminate|].
        intros ->. discriminate.
      * split; [apply seq_eqb_neq; exact H2|]. destruct key; [contradiction|reflexivity].
    + intros fields fields' -> P. cbn [notAnObject from_option id objectKeys].
      assert (E : sort (List.filter (fun key => negb (seq_eqb key (str "_base")) && nonEmpty key)
                          (map fst fields')) =
                  sort (List.filter (fun key => negb (seq_eqb key (str "_base")) && nonEmpty key)
                          (map fst fields))).
      { apply sort_permutation, filter_permutation. rewrite P. reflexivity. }
      rewrite E. reflexivity.
Qed.

(** ** Publishing diagnostics *)

Section DebounceFacts.
Variable parse : jsstring -> option Thrown.

Lemma validateDocument_fresh_eq (doc : TextDocument) (st : ServerState) :
  lastKnownVersionByUri st !! uri doc = Some (version doc) ->
  validateDocument parse doc st = sendDiagnostics (uri doc) (diagnosticsFor parse doc) st.
Proof.
  intros H. unfold validateDocument, diagnosticsFor. rewrite H.
  cbn [version_eqb]. rewrite Z.eqb_refl. cbn [negb].
  destruct (parse (getText doc)) as [e|]; [|reflexivity].
  destruct (syntaxDiagnosticsFromError e); reflexivity.
Qed.

(** What [syntaxDiagnosticsFromError] returns. *)
Lemma syntaxDiagnostics_shape (e : Thrown) :
  syntaxDiagnosticsFromError e = None \/
  exists msg p, msg <> [] /\
    syntaxDiagnosticsFromError e = Some [mkDiagnostic msg (mkRange p p)].
Proof.
  destruct e as [|[msg|] loc]; [left; reflexivity| |left; reflexivity].
  cbn [syntaxDiagnosticsFromError]. destruct msg as [|x msg]; [left; reflexivity|].
  cbn [nonEmpty negb]. destruct loc as [[l c]|]; [|left; reflexivity].
  right. eexists _, _. split; [|reflexivity]. discriminate.
Qed.

Lemma diagnosticsFor_shape (doc : TextDocument) :
  diagnosticsFor parse doc = [] \/
  exists msg p, msg <> [] /\ diagnosticsFor parse doc = [mkDiagnostic msg (mkRange p p)].
Proof.
  unfold diagnosticsFor. destruct (parse (getText doc)) as [e|]; [|left; reflexivity].
  destruct (syntaxDiagnostics_shape e) as [-> | (msg & p & Hm & ->)]; [left; reflexivity|].
  right. eauto.
Qed.

(** X19. A validation of the version last recorded for the document
    publishes once, for that document, and changes nothing else: no
    diagnostic when the text parses, and otherwise at most one, which has a
    message and an empty range. *)
Theorem validateDocument_fresh (doc : TextDocument) (st : ServerState) :
  lastKnownVersionByUri st !! uri doc = Some (version doc) ->
  let ds := diagnosticsFor parse doc in
  sent (validateDocument parse doc st) = (uri doc, ds) :: sent st /\
  documents (validateDocument parse doc st) = documents st /\
  lastKnownVersionByUri (validateDocument parse doc st) = lastKnownVersionByUri st /\
  debounceTimersByUri (validateDocument parse doc st) = debounceTimersByUri st /\
  length ds <= 1 /\
  (parse (getText doc) = None -> ds = []) /\
  forall d, d ∈ ds -> d_message d <> [] /\ r_start (d_range d) = r_end (d_range d).
Proof.
  intros H ds. rewrite validateDocument_fresh_eq by exact H. fold ds.
  split; [reflexivity|]. split; [reflexivity|]. split; [reflexivity|].
  split; [reflexivity|].
  assert (P : parse (getText doc) = None -> ds = []).
  { intros P. unfold ds, diagnosticsFor. rewrite P. reflexivity. }
  destruct (diagnosticsFor_shape doc) as [E | (msg & p & Hm & E)]; fold ds in E.
  - split; [rewrite E; simpl; lia|]. split; [exact P|].
    intros d Hd. rewrite E in Hd. apply elem_of_nil in Hd. contradiction.
  - split; [rewrite E; simpl; lia|]. split; [exact P|].
    intros d Hd. rewrite E in Hd. apply list_elem_of_singleton in Hd. subst d.
    split; [exact Hm|reflexivity].
Qed.

Lemma runEvents_snoc (st : ServerState) (evs : list Event) (ev : Event) :
  runEvents parse st (evs ++ [ev]) = step parse (runEvents parse st evs) ev.
Proof. unfold runEvents. rewrite fold_left_app. reflexivity. Qed.

(** The state after a run of edits of one document. *)
Lemma edits_state (u : string) : forall (docs : list TextDocument) (d : TextDocument)
    (st : ServerState),
  (forall x, x ∈ docs ++ [d] -> uri x = u) ->
  let st' := runEvents parse st (map DidChangeContent (docs ++ [d])) in
  documents st' !! u = Some d /\
  lastKnownVersionByUri st' !! u = Some (version d) /\
  debounceTimersByUri st' !! u = Some (timers st + length docs) /\
  timers st' = S (timers st + length docs) /\
  sent st' = sent st.
Proof.
  induction docs as [|x docs IH] using rev_ind; intros d st Hu.
  - cbn. rewrite (Hu d) by (apply list_elem_of_singleton; reflexivity).
    rewrite !lookup_insert_eq. rewrite Nat.add_0_r. auto.
  - intros st'. subst st'. rewrite map_app.
    change (map DidChangeContent [d]) with [DidChangeContent d]. rewrite runEvents_snoc.
    destruct (IH x st) as (_ & _ & _ & HT & HS).
    { intros y Hy. apply Hu. apply elem_of_app. left. exact Hy. }
    set (s1 := runEvents parse st (map DidChangeContent (docs ++ [x]))) in *.
    cbn [step onDidChangeContent storeDocument scheduleValidation
         documents lastKnownVersionByUri debounceTimersByUri timers sent].
    rewrite (Hu d) by (apply elem_of_app; right; apply list_elem_of_singleton; reflexivity).
    rewrite !lookup_insert_eq, HT, HS, length_app. cbn [length].
    repeat split; try reflexivity; f_equal; lia.
Qed.

(** X20. After a run of edits of one document, which publish nothing, only
    the timer of the last edit does something when it fires: it publishes
    the diagnostics of the last version, once, and leaves no timer behind. *)
Theorem debounce_last_edit_wins (u : string) (docs : list TextDocument) (d : TextDocument)
    (st : ServerState) :
  (forall x, x ∈ docs ++ [d] -> uri x = u) ->
  let st' := runEvents parse st (map DidChangeContent (docs ++ [d])) in
  let newest := timers st + length docs in
  sent st' = sent st /\
  (forall t, t <> newest -> step parse st' (TimerFired u t) = st') /\
  sent (step parse st' (TimerFired u newest)) = (u, diagnosticsFor parse d) :: sent st /\
  (forall t, step parse (step parse st' (TimerFired u newest)) (TimerFired u t) =
             step parse st' (TimerFired u newest)).
Proof.
  intros Hu st' newest.
  destruct (edits_state u docs d st Hu) as (HD & HV & HT & _ & HS). fold st' in HD, HV, HT, HS.
  assert (Ud : uri d = u)
    by (apply Hu, elem_of_app; right; apply list_elem_of_singleton; reflexivity).
  split; [exact HS|]. split.
  - intros t Ht. cbn [step]. rewrite HT. fold newest.
    destruct (newest =? t) eqn:E; [apply Nat.eqb_eq in E; congruence|reflexivity].
  - assert (F : step parse st' (TimerFired u newest) =
                sendDiagnostics u (diagnosticsFor parse d)
                  (mkState (documents st') (lastKnownVersionByUri st')
                           (delete u (debounceTimersByUri st')) (timers st') (sent st'))).
    { cbn [step]. rewrite HT. fold newest. rewrite Nat.eqb_refl.
      unfold timerCallback. cbn [documents]. rewrite HD.
      rewrite validateDocument_fresh_eq; [rewrite Ud; reflexivity|].
      cbn [lastKnownVersionByUri]. rewrite Ud. exact HV. }
    rewrite F. split.
    + cbn [sent sendDiagnostics]. rewrite HS. reflexivity.
    + intros t. cbn [step sendDiagnostics debounceTimersByUri].
      rewrite lookup_delete_eq. reflexivity.
Qed.

(** X21. Closing a document publishes the empty set for it and cancels its
    timer: no timer of the document does anything afterwards, opening it
    again publishes nothing until the next edit, and the other documents are
    left as they are. *)
Theorem close_cancels_validation (doc : TextDocument) (st : ServerState) :
  let st' := step parse st (DidClose doc) in
  sent st' = (uri doc, []) :: sent st /\
  (forall t, step parse st' (TimerFired (uri doc) t) = st') /\
  (forall doc', uri doc' = uri doc -> step parse st' (DidOpen doc') = storeDocument doc' st') /\
  (forall u, u <> uri doc ->
     debounceTimersByUri st' !! u = debounceTimersByUri st !! u /\
     lastKnownVersionByUri st' !! u = lastKnownVersionByUri st !! u /\
     documents st' !! u = documents st !! u).
Proof.
  intros st'. subst st'.
  cbn [step onDidClose dropDocument sendDiagnostics
       documents lastKnownVersionByUri debounceTimersByUri timers sent].
  split; [reflexivity|]. split; [|split].
  - intros t. rewrite lookup_delete_eq. reflexivity.
  - intros doc' Hu. unfold onDidOpen, validateDocument.
    assert (L : lastKnownVersionByUri (onDidClose doc (dropDocument doc st)) !! uri doc = None).
    { unfold onDidClose. cbn [lastKnownVersionByUri]. apply lookup_delete_eq. }
    cbn [storeDocument lastKnownVersionByUri]. rewrite Hu, L.
    cbn [version_eqb negb].
    destruct (parse (getText doc')); reflexivity.
  - intros u Hu. rewrite !lookup_delete_ne by congruence. auto.
Qed.
End DebounceFacts.

(** ** Completion requests *)

Lemma clamp_idem (n : Z) (len : nat) : clamp (Z.of_nat (clamp n len)) len = clamp n len.
Proof. apply clamp_of_nat, clamp_le. Qed.

Lemma offsetToPosition_clamp (text : jsstring) (offset : Z) :
  offsetToPosition text (Z.of_nat (clamp offset (length text))) = offsetToPosition text offset.
Proof. unfold offsetToPosition. rewrite clamp_idem. reflexivity. Qed.

(** X22. Outside a string and with no opening parenthesis before the cursor,
    the completion handler offers every documentation completion, in the
    order of the index, each as an edit of the empty range at the cursor:
    accepting one inserts its text after the word typed so far. *)
Theorem onCompletion_outside_call (chordSymbolCompletions : list CmCompletionOption)
    (documents : gmap string TextDocument) (docIndex : DocIndex) (sampleIndex : SampleIndex)
    (u : string) (position : Position) (doc : TextDocument) :
  documents !! u = Some doc ->
  let text := getText doc in
  let offset := positionToOffset text position in
  let cursor := offsetToPosition text (Z.of_nat offset) in
  lparen ∉ take offset text ->
  isInsideString text (Z.of_nat offset) = false ->
  let items := onCompletion chordSymbolCompletions documents docIndex sampleIndex u position in
  map ci_label items = map label (jsdocCompletions docIndex) /\
  forall item, item ∈ items -> te_range (ci_textEdit item) = mkRange cursor cursor.
Proof.
  intros Hdoc text offset cursor Hno Hin items.
  assert (Hno' : lparen ∉ take (clamp (Z.of_nat offset) (length text)) text).
  { intros H. apply Hno. unfold clamp in H.
    apply list_elem_of_lookup in H as [i Hi].
    apply lookup_take_Some in Hi as [Hi Hlt].
    eapply list_elem_of_lookup_2. rewrite lookup_take_lt; [exact Hi|lia]. }
  assert (C : complete chordSymbolCompletions text (Z.of_nat offset) true docIndex
                (Some (mkSources (Some (si_soundNames sampleIndex))
                                 (Some (banks sampleIndex)))) =
              Some (mkResult (Z.of_nat (clamp (Z.of_nat offset) (length text)))
                      (jsdocCompletions docIndex))).
  { rewrite complete_after_decline by (apply no_call_declines; exact Hno').
    rewrite Hin, fallbackHandler_eq. reflexivity. }
  assert (E : items = map (completionItem text
                             (Z.of_nat (clamp (Z.of_nat offset) (length text))) offset)
                          (jsdocCompletions docIndex)).
  { unfold items, onCompletion. rewrite Hdoc. fold text. fold offset. rewrite C. reflexivity. }
  rewrite E. split.
  - rewrite map_map. reflexivity.
  - intros item Hi. apply list_elem_of_fmap in Hi as (opt & -> & _).
    cbn [completionItem ci_textEdit te_range]. rewrite offsetToPosition_clamp. reflexivity.
Qed.

(** ** A run of characters of one class *)

Lemma takeWhile_prefix {A} (p : A -> bool) (l : list A) :
  takeWhile p l = take (length (takeWhile p l)) l.
Proof.
  induction l as [|x l IH]; [reflexivity|]. cbn [takeWhile].
  destruct (p x); [|reflexivity]. cbn [length take]. f_equal. exact IH.
Qed.

Lemma takeWhile_forall {A} (p : A -> bool) (l : list A) x :
  x ∈ takeWhile p l -> p x = true.
Proof.
  induction l as [|y l IH]; cbn [takeWhile]; [intros H; apply elem_of_nil in H; contradiction|].
  destruct (p y) eqn:E; [|intros H; apply elem_of_nil in H; contradiction].
  intros H. apply elem_of_cons in H as [-> | H]; auto.
Qed.

Lemma takeWhile_length {A} (p : A -> bool) (l : list A) : length (takeWhile p l) <= length l.
Proof.
  induction l as [|x l IH]; [reflexivity|]. cbn [takeWhile].
  destruct (p x); simpl; lia.
Qed.

(** The element after the run, if any, is not in the class. *)
Lemma takeWhile_stop {A} (p : A -> bool) (l : list A) x :
  l !! length (takeWhile p l) = Some x -> p x = false.
Proof.
  induction l as [|y l IH]; cbn [takeWhile]; [discriminate|].
  destruct (p y) eqn:E; [exact IH|]. cbn. intros H. injection H as <-. exact E.
Qed.

(** The loop of a greedy [p*] whose continuation accepts everywhere stops
    after the whole run of [p] at its start. *)
Lemma starLoop_greedy {R} (s : jsstring) (p : ascii -> bool)
    (k : nat -> caps -> option R) :
  (forall j c, is_Some (k j c)) ->
  forall fuel i c,
    length (takeWhile p (drop i s)) <= fuel ->
    starLoop (Re.run s (Chr p)) k fuel i c = k (i + length (takeWhile p (drop i s))) c.
Proof.
  intros Hk. induction fuel as [|fuel IH]; intros i c Hf.
  - cbn [starLoop]. replace (length (takeWhile p (drop i s))) with 0 by lia.
    rewrite Nat.add_0_r. reflexivity.
  - cbn [starLoop Re.run].
    destruct (s !! i) as [ch|] eqn:Hi.
    + rewrite (drop_S _ _ _ Hi) in Hf |- *. cbn [takeWhile] in Hf |- *.
      destruct (p ch); cbn [length] in Hf |- *.
      * replace (S i <=? i) with false by (symmetry; apply Nat.leb_gt; lia).
        rewrite IH by lia. replace (i + S (length (takeWhile p (drop (S i) s))))
          with (S i + length (takeWhile p (drop (S i) s))) by lia.
        destruct (Hk (S i + length (takeWhile p (drop (S i) s))) c) as [x ->]. reflexivity.
      * rewrite Nat.add_0_r. reflexivity.
    + rewrite drop_ge by (apply lookup_ge_None; exact Hi). cbn. rewrite Nat.add_0_r.
      reflexivity.
Qed.

(** [p+] tried at the start of [s] takes the whole run of [p] there. *)
Lemma matchAt_plus_start (p : ascii -> bool) (s : jsstring) :
  matchAt (Plus (Chr p)) s 0 =
    match takeWhile p s with
    | [] => None
    | w => Some (mkExec 0 w [] s)
    end.
Proof.
  unfold matchAt, Plus. destruct s as [|ch s']; [reflexivity|].
  cbn [Re.run takeWhile]. change ((ch :: s') !! 0) with (Some ch). cbv iota.
  destruct (p ch) eqn:P; [|reflexivity].
  etransitivity; [apply (starLoop_greedy (ch :: s') p)|].
  - intros j c. eauto.
  - change (drop 1 (ch :: s')) with s'. cbn [length]. pose proof (takeWhile_length p s'). lia.
  - change (drop 1 (ch :: s')) with s'. f_equal. f_equal. unfold slice.
    change (drop 0 (ch :: s')) with (ch :: s').
    replace (1 + length (takeWhile p s') - 0) with (S (length (takeWhile p s'))) by lia.
    cbn [take]. f_equal. symmetry. apply takeWhile_prefix.
Qed.

Lemma search_leftmost r s fuel : forall i m,
  search r s fuel i = Some m -> forall i', i <= i' < index m -> matchAt r s i' = None.
Proof.
  induction fuel as [|fuel IH]; intros i m H i' Hi'; cbn [search] in H.
  - destruct (matchAt r s i) as [m'|] eqn:E; [|discriminate]. injection H as ->.
    unfold matchAt in E. apply run_sound in E as (j & c & _ & E). injection E as <-.
    cbn [index] in Hi'. lia.
  - destruct (matchAt r s i) as [m'|] eqn:E.
    + injection H as ->. unfold matchAt in E. apply run_sound in E as (j & c & _ & E).
      injection E as <-. cbn [index] in Hi'. lia.
    + destruct (decide (i' = i)) as [->|N]; [exact E|]. eapply IH; [exact H|lia].
Qed.

Lemma last_rev_head {A} (l : list A) : last (rev l) = head l.
Proof. destruct l as [|x l]; [reflexivity|]. cbn [rev head]. apply last_snoc. Qed.

(** The run of [p] at the end of [s], and what is before it. *)
Lemma suffix_run {A} (p : A -> bool) (s : list A) :
  let w := rev (takeWhile p (rev s)) in
  exists front, s = front ++ w /\ (forall x, x ∈ w -> p x = true) /\
    (forall y, last front = Some y -> p y = false).
Proof.
  intros w. subst w.
  exists (rev (drop (length (takeWhile p (rev s))) (rev s))). split; [|split].
  - rewrite <- rev_app_distr.
    assert (E : takeWhile p (rev s) ++ drop (length (takeWhile p (rev s))) (rev s) = rev s).
    { rewrite (takeWhile_prefix p (rev s)) at 1. apply take_drop. }
    rewrite E, rev_involutive. reflexivity.
  - intros x Hx. apply list_elem_of_In, in_rev, list_elem_of_In in Hx.
    eapply takeWhile_forall. exact Hx.
  - intros y Hy. rewrite last_rev_head in Hy.
    rewrite head_lookup, lookup_drop, Nat.add_0_r in Hy.
    eapply takeWhile_stop. exact Hy.
Qed.

(** [p+$] finds the run of [p] at the end of [s], when there is one. *)
Lemma match_plus_end (p : ascii -> bool) (s : jsstring) :
  let w := rev (takeWhile p (rev s)) in
  m0 <$> match_ s (Seq (Plus (Chr p)) Eol) =
    match w with
    | [] => None
    | _ => Some w
    end.
Proof.
  intros w. destruct (suffix_run p s) as (front & Es & Hw & Hf). fold w in Es, Hw.
  set (r := Seq (Plus (Chr p)) Eol).
  assert (Ls : length s = length front + length w) by (rewrite Es at 1; apply length_app).
  assert (A : forall i j, matches s r i j ->
            j = length s /\ i < length s /\
            forall q, i <= q < length s -> exists ch, s !! q = Some ch /\ p ch = true).
  { intros i j H. unfold r, Plus in H.
    apply matches_seq_inv in H as (j1 & H1 & H2).
    apply matches_eol_inv in H2 as [-> ->].
    apply matches_seq_inv in H1 as (j2 & H1 & H3).
    apply matches_chr_inv in H1 as (ch & -> & Hch & Hp).
    pose proof (matches_bounds _ _ _ _ H3) as [B _].
    split; [reflexivity|]. split; [lia|].
    intros q Hq. destruct (decide (q = i)) as [->|N]; [eauto|].
    eapply matches_star_chr; [exact H3|lia]. }
  assert (B : forall i j, matches s r i j -> length front <= i).
  { intros i j H. apply A in H as (_ & Hi & Hall).
    destruct (decide (length front <= i)) as [|N]; [assumption|exfalso].
    destruct front as [|y front _] using rev_ind; [simpl in N; lia|].
    rewrite length_app in N, Ls. cbn [length] in N, Ls.
    destruct (Hall (length front)) as (ch & Hch & Hp); [lia|].
    rewrite Es, <- app_assoc in Hch. change ([y] ++ w) with (y :: w) in Hch.
    rewrite list_lookup_middle in Hch by reflexivity.
    injection Hch as <-. rewrite (Hf y) in Hp by apply last_snoc. discriminate. }
  assert (C : w <> [] -> matches s r (length front) (length s)).
  { intros Hne. destruct w as [|x w'] eqn:Ew; [contradiction|].
    unfold r, Plus. apply M_Seq with (length s); [|constructor; reflexivity].
    apply M_Seq with (S (length front)).
    - apply M_Chr with x; [rewrite Es; apply list_lookup_middle; reflexivity|].
      apply Hw. left.
    - replace (length s) with (S (length front) + length w') by (simpl in Ls; lia).
      apply matches_star_class. intros q Hq.
      destruct (lookup_lt_is_Some_2 s q) as [ch Hch]; [simpl in Ls; lia|].
      exists ch. split; [exact Hch|]. apply Hw.
      rewrite Es in Hch. rewrite lookup_app_r in Hch by lia.
      eapply list_elem_of_lookup_2. exact Hch. }
  unfold match_. fold r.
  destruct (exec r s 0) as [m|] eqn:E.
  - pose proof (exec_ok_intro _ _ _ _ E) as [_ He Ht _ Hm].
    pose proof (A _ _ Hm) as (Hj & Hi & _).
    pose proof (B _ _ Hm) as Hb.
    assert (Hne : w <> []).
    { intros Ew. rewrite Ew in Ls. simpl in Ls. lia. }
    assert (Hidx : index m = length front).
    { destruct (decide (index m = length front)) as [|N]; [assumption|exfalso].
      unfold exec in E. cbn in E.
      pose proof (search_leftmost _ _ _ _ _ E (length front) ltac:(lia)) as No.
      destruct (matchAt_complete r s (length front) (length s) (C Hne) ltac:(lia)) as [x Hx].
      congruence. }
    cbn [fmap option_fmap option_map]. rewrite Ht, Hj, Hidx. unfold slice.
    replace (length s - length front) with (length w) by lia.
    rewrite Es at 1. rewrite drop_app_length, firstn_all.
    destruct w; [contradiction|reflexivity].
  - destruct w as [|x w'] eqn:Ew; [reflexivity|exfalso].
    destruct (exec_complete r s (length front) (length s) 0) as [m Hm]; [|lia|lia|congruence].
    apply C. discriminate.
Qed.

(** ** Hover and the documentation of a completion *)

Lemma hoverWord_eq (text : jsstring) (offset : nat) :
  hoverWord text offset = wordAround text offset.
Proof.
  unfold hoverWord, wordAround, HOVER_LEFT_REGEX, HOVER_RIGHT_REGEX.
  pose proof (match_plus_end isWord (take offset text)) as L. cbv zeta in L.
  rewrite matchAt_plus_start. f_equal.
  - destruct (match_ (take offset text) (Seq (Plus (Chr isWord)) Eol)) as [m|];
      cbn [fmap option_fmap option_map] in L.
    + destruct (rev (takeWhile isWord (rev (take offset text)))); [discriminate|].
      injection L as ->. reflexivity.
    + destruct (rev (takeWhile isWord (rev (take offset text)))); [reflexivity|discriminate].
  - destruct (takeWhile isWord (drop offset text)); reflexivity.
Qed.

Section DocumentationFacts.
Variable buildMarkdownDoc : json -> option jsstring -> jsstring.

(** X23. Hover looks up the whole word around the cursor, as a synonym
    first. With the index of [buildDocIndex] a synonym always has its
    document: hovering one never gives null, and shows the document of its
    label under the synonym. A word that is no synonym shows the document
    kept under it, if any. *)
Theorem onHover_word (fields : list (jsstring * json)) (docs : list json) (idx : FullDocIndex)
    (documents : gmap string TextDocument) (u : string) (position : Position)
    (doc : TextDocument) :
  getField fields (str "docs") = Some (JArr docs) ->
  buildDocIndex (Some (JObj fields)) = Some idx ->
  documents !! u = Some doc ->
  let text := getText doc in
  let word := wordAround text (positionToOffset text position) in
  let answer := onHover buildMarkdownDoc documents idx u position in
  (word = [] -> answer = None) /\
  (forall c, bySynonym idx !! word = Some c ->
     exists d, byName idx !! c = Some d /\ answer = Some (buildMarkdownDoc d (Some word))) /\
  (word <> [] -> bySynonym idx !! word = None ->
     answer = (fun d => buildMarkdownDoc d None) <$> byName idx !! word).
Proof.
  intros Hd Hidx Hdoc text word answer.
  assert (E : answer =
            if negb (nonEmpty word) then None
            else match byName idx !! (match bySynonym idx !! word with
                                      | Some c => c | None => word end) with
                 | None => None
                 | Some d => Some (buildMarkdownDoc d
                                     (match bySynonym idx !! word with
                                      | Some _ => Some word | None => None end))
                 end).
  { unfold answer, onHover. rewrite Hdoc. fold text. rewrite hoverWord_eq. reflexivity. }
  assert (Syn : forall s c, bySynonym idx !! s = Some c ->
                  nonEmpty s = true /\ is_Some (byName idx !! c)).
  { unfold buildDocIndex in Hidx. rewrite Hd in Hidx. injection Hidx as <-.
    cbn [byName bySynonym]. intros s c. rewrite bySynonym_lookup, byName_lookup.
    destruct (nonEmpty s); [|discriminate]. split; [reflexivity|].
    destruct (List.find (listsSynonym s) docs) as [d|] eqn:F; [|discriminate].
    apply find_Some_elem in F as [Hin _].
    eapply find_is_Some; [exact Hin|]. unfold namedDoc. rewrite H. apply seq_eqb_refl. }
  split; [|split].
  - intros W. rewrite E, W. reflexivity.
  - intros c Hc. destruct (Syn _ _ Hc) as [Hn [d Hb]]. exists d. split; [exact Hb|].
    rewrite E, Hn, Hc, Hb. reflexivity.
  - intros W Hs. rewrite E, Hs. destruct word; [contradiction|]. cbn [nonEmpty negb].
    destruct (byName idx !! _); reflexivity.
Qed.

(** X24. Every documentation completion that the completion handler offers
    gets its documentation when it is resolved: the document of its
    canonical name, under the label for a synonym. *)
Theorem onCompletionResolve_documented (fields : list (jsstring * json)) (docs : list json)
    (idx : FullDocIndex) (text : jsstring) (cmFrom : Z) (offset : nat)
    (opt : CmCompletionOption) :
  getField fields (str "docs") = Some (JArr docs) ->
  buildDocIndex (Some (JObj fields)) = Some idx ->
  opt ∈ jsdocCompletions (forComplete idx) ->
  exists c d, canonicalName opt = Some c /\ byName idx !! c = Some d /\
    onCompletionResolve buildMarkdownDoc idx (completionItem text cmFrom offset opt) =
      Some (buildMarkdownDoc d (if seq_eqb (label opt) c then None else Some (label opt))).
Proof.
  intros Hd Hidx Hopt.
  unfold buildDocIndex in Hidx. rewrite Hd in Hidx. injection Hidx as <-.
  cbn [byName bySynonym forComplete jsdocCompletions] in *.
  destruct (completions_loop docs docs ([], [])) as [[C1 [C2 C3]] C4]; [auto| |].
  { split; [reflexivity|]. split; [apply NoDup_nil_2|apply Forall_nil_2]. }
  rewrite Forall_forall in C3.
  destruct (C3 opt Hopt) as (T & A & _ & c & d & Hin & K & Cn & _ & S).
  pose proof (keptDoc_Some _ _ K) as (_ & _ & _ & Hc).
  destruct (find_is_Some (namedDoc c) docs d Hin) as [d' Hd'].
  { unfold namedDoc. rewrite K. apply seq_eqb_refl. }
  exists c, d'. split; [exact Cn|]. split; [rewrite byName_lookup; exact Hd'|].
  unfold onCompletionResolve, completionItem. cbn [ci_data].
  rewrite T, Cn, S. cbn [truthyString truthyBool from_option id].
  rewrite seq_eqb_refl. destruct c as [|x c]; [contradiction|]. cbn [nonEmpty andb].
  cbn [data_name data_type data_synonym byName]. rewrite byName_lookup, Hd'.
  destruct (seq_eqb (label opt) (x :: c)); reflexivity.
Qed.
End DocumentationFacts.

(** ** The theorems above at concrete inputs *)

(** The shape of [soundText], [bankText], [modeText] and [scaleText]:
    nothing before the call, no white space after the parenthesis. *)
Lemma example_shape (fn body : string) :
  forallb plainChar (str body) = true ->
  callShape (str fn ++ str "(" ++ [dquote] ++ str body)
            (Z.of_nat (length (str fn ++ str "(" ++ [dquote] ++ str body)))
            [] (str fn) [] dquote (str body).
Proof.
  intros H. split; [|reflexivity|reflexivity|exact H].
  rewrite clamp_of_nat by lia. rewrite firstn_all. reflexivity.
Qed.

Lemma open_paren_is_terminal_witness :
  forallb isSpace (str " ") = true /\
  bankHandler (makeContext (str "s.bank( ") 8 false 100) drumSources = Some (mkResult 8 []).
Proof.
  split; [reflexivity|].
  apply (open_paren_is_terminal [] (str "s.bank( ") 8 false 100 drumSources
           (str "s.") (str "bank") (str " ") eq_refl eq_refl); [|reflexivity].
  apply Nat.leb_le. reflexivity.
Defined.

Lemma complete_sound_open_paren_witness :
  forallb isSpace [] = true /\
  complete [] (str "sound(") 6 false (mkDocIndex []) None = Some (mkResult 6 []).
Proof.
  split; [reflexivity|].
  apply (complete_sound_open_paren [] (str "sound(") 6 false (mkDocIndex []) None
           [] (str "sound") []); [right; reflexivity|reflexivity|reflexivity|].
  apply Nat.leb_le. vm_compute. reflexivity.
Defined.

Lemma complete_sound_fragment_witness :
  callShape (soundText "bd") 9 [] (str "sound") [] dquote (str "bd") /\
  complete [] (soundText "bd") 9 false (mkDocIndex []) (Some drumSources) =
    Some (mkResult 7 [option2 (str "bd") (str "sound"); option2 (str "bd_808") (str "sound")]).
Proof.
  assert (S : callShape (soundText "bd") 9 [] (str "sound") [] dquote (str "bd"))
    by (apply (example_shape "sound" "bd"); reflexivity).
  split; [exact S|].
  apply (complete_sound_fragment [] (soundText "bd") 9 false (mkDocIndex []) (Some drumSources)
           [] (str "sound") [] (str "bd") dquote); [right; reflexivity|exact S|].
  apply Nat.leb_le. vm_compute. reflexivity.
Defined.

Lemma complete_bank_fragment_witness :
  callShape (bankText "d") 7 [] (str "bank") [] dquote (str "d") /\
  complete [] (bankText "d") 7 false (mkDocIndex []) (Some drumSources) =
    Some (mkResult 6 [option2 (str "drum") (str "bank")]).
Proof.
  assert (S : callShape (bankText "d") 7 [] (str "bank") [] dquote (str "d"))
    by (apply (example_shape "bank" "d"); reflexivity).
  split; [exact S|].
  apply (complete_bank_fragment [] (bankText "d") 7 false (mkDocIndex []) (Some drumSources)
           [] [] (str "d") dquote); [exact S|].
  apply Nat.leb_le. vm_compute. reflexivity.
Defined.

Lemma complete_mode_argument_witness :
  callShape (modeText "duck:c") 12 [] (str "mode") [] dquote (str "duck:c") /\
  complete [] (modeText "duck:c") 12 false (mkDocIndex []) None =
    Some (mkResult 11 (pitchOptions (str "c"))).
Proof.
  assert (S : callShape (modeText "duck:c") 12 [] (str "mode") [] dquote (str "duck:c"))
    by (apply (example_shape "mode" "duck:c"); reflexivity).
  split; [exact S|].
  assert (L : 4 + 1 + length (@nil ascii) + 1 + length (str "duck:c") <= 8192)
    by (apply Nat.leb_le; vm_compute; reflexivity).
  apply (proj2 (complete_mode_argument [] (modeText "duck:c") 12 false (mkDocIndex []) None
                  [] [] (str "duck:c") dquote S L) (str "duck") (str "c") eq_refl).
  intros H. apply list_elem_of_singleton in H. discriminate.
Defined.

Lemma complete_scale_argument_witness :
  callShape (scaleText "C") 8 [] (str "scale") [] dquote (str "C") /\
  complete [] (scaleText "C") 8 true (mkDocIndex []) None =
    Some (mkResult 7 (pitchOptions (str "C"))).
Proof.
  assert (S : callShape (scaleText "C") 8 [] (str "scale") [] dquote (str "C"))
    by (apply (example_shape "scale" "C"); reflexivity).
  split; [exact S|].
  assert (L : 5 + 1 + length (@nil ascii) + 1 + length (str "C") <= 8192)
    by (apply Nat.leb_le; vm_compute; reflexivity).
  apply (proj1 (complete_scale_argument [] (scaleText "C") 8 true (mkDocIndex []) None
                  [] [] (str "C") dquote S L)).
  intros H. apply list_elem_of_singleton in H. discriminate.
Defined.

Lemma complete_outside_call_witness :
  (lparen ∉ take (clamp 2 (length (str "so"))) (str "so")) /\
  complete [] (str "so") 2 true (mkDocIndex noteAndSound) None =
    Some (mkResult 2 noteAndSound).
Proof.
  assert (H : lparen ∉ take (clamp 2 (length (str "so"))) (str "so")).
  { intros H. repeat (apply elem_of_cons in H as [H|H]; [discriminate|]).
    apply elem_of_nil in H. exact H. }
  split; [exact H|].
  apply (complete_outside_call [] (str "so") 2 true (mkDocIndex noteAndSound) None H).
Defined.

Lemma onCompletion_outside_call_witness :
  wordStore !! "file:///a.str"%string = Some wordDoc /\
  isInsideString (str "so") 2 = false /\
  map ci_label (onCompletion [] wordStore (mkDocIndex noteAndSound) (mkSampleIndex [] [])
                             "file:///a.str" (mkPosition 0 2)) =
    [str "note"; str "sound"].
Proof.
  assert (H : wordStore !! "file:///a.str"%string = Some wordDoc) by (vm_compute; reflexivity).
  split; [exact H|]. split; [reflexivity|].
  refine (proj1 (onCompletion_outside_call [] wordStore (mkDocIndex noteAndSound)
                   (mkSampleIndex [] []) "file:///a.str" (mkPosition 0 2) wordDoc H _ eq_refl)).
  intros E. vm_compute in E. repeat (apply elem_of_cons in E as [E|E]; [discriminate|]).
  apply elem_of_nil in E. exact E.
Defined.

Lemma rewritten_quotes_escaped_witness :
  rewriteLiteralContent its_content QSingle QDouble = Some (str "it's") /\
  (isEscaped ([dquote] ++ str "it's" ++ [dquote]) 5 = false <-> 5 = 0 \/ 5 = S 4).
Proof.
  split; [reflexivity|].
  apply (rewritten_quotes_escaped its_content QSingle QDouble (str "it's") eq_refl 5).
  reflexivity.
Defined.

Lemma rewritten_literal_found_witness :
  rewriteLiteralContent its_content QSingle QDouble = Some (str "it's") /\
  includesChar its_content newline = false /\
  findEnclosingStringLiteral ([dquote] ++ str "it's" ++ [dquote]) 1 1 =
    Some (mkLiteral 0 6 QDouble 1 5).
Proof.
  split; [reflexivity|]. split; [reflexivity|].
  apply (rewritten_literal_found its_content QSingle QDouble (str "it's") 1 eq_refl eq_refl).
  simpl. lia.
Defined.

Lemma findEnclosingStringLiteral_found_witness :
  findEnclosingStringLiteral its_source 3 4 = Some (mkLiteral 2 9 QSingle 3 8) /\
  its_source !! 2 = Some squote /\ isEscaped its_source 2 = false.
Proof.
  split; [reflexivity|].
  apply (findEnclosingStringLiteral_found its_source 3 4 (mkLiteral 2 9 QSingle 3 8) eq_refl).
Defined.

Lemma quoteActions_offered_witness :
  findEnclosingStringLiteral its_source 4 5 = Some (mkLiteral 2 9 QSingle 3 8) /\
  title <$> quoteActions its_source (mkRange (mkPosition 0 4) (mkPosition 0 4)) =
    ["Convert to template string"%string; "Convert to double quotes"%string].
Proof.
  split; [reflexivity|].
  apply (quoteActions_offered its_source (mkRange (mkPosition 0 4) (mkPosition 0 4))
           (mkLiteral 2 9 QSingle 3 8) eq_refl).
Defined.

Lemma validateDocument_fresh_witness :
  lastKnownVersionByUri freshState !! uri staleDoc = Some (version staleDoc) /\
  sent (validateDocument (fun _ => None) staleDoc freshState) = [("file:///a.str"%string, [])].
Proof.
  assert (H : lastKnownVersionByUri freshState !! uri staleDoc = Some (version staleDoc))
    by (vm_compute; reflexivity).
  split; [exact H|].
  apply (validateDocument_fresh (fun _ => None) staleDoc freshState H).
Defined.

Lemma debounce_last_edit_wins_witness :
  (forall x, x ∈ [staleDoc] ++ [wordDoc] -> uri x = "file:///a.str"%string) /\
  sent (step (fun _ => None)
          (runEvents (fun _ => None) initialState
             (map DidChangeContent ([staleDoc] ++ [wordDoc])))
          (TimerFired "file:///a.str" 1)) =
    [("file:///a.str"%string, diagnosticsFor (fun _ => None) wordDoc)].
Proof.
  assert (H : forall x, x ∈ [staleDoc] ++ [wordDoc] -> uri x = "file:///a.str"%string).
  { intros x Hx. repeat (apply elem_of_cons in Hx as [-> | Hx]; [reflexivity|]).
    apply elem_of_nil in Hx. contradiction. }
  split; [exact H|].
  apply (debounce_last_edit_wins (fun _ => None) "file:///a.str" [staleDoc] wordDoc
           initialState H).
Defined.

Lemma offset_roundtrip_lf_witness :
  (creturn ∉ lfText) /\ positionToOffset lfText (offsetToPosition lfText 3) = 3.
Proof.
  assert (H : creturn ∉ lfText).
  { intros H. repeat (apply elem_of_cons in H as [H|H]; [discriminate|]).
    apply elem_of_nil in H. exact H. }
  split; [exact H|].
  apply (offset_roundtrip_lf lfText 3 H).
Defined.

Lemma exampleIndex_built : buildDocIndex (Some (JObj exampleDocJson)) = Some exampleIndex.
Proof. reflexivity. Qed.

Lemma buildDocIndex_maps_witness :
  getField exampleDocJson (str "docs") = Some (JArr exampleDocs) /\
  buildDocIndex (Some (JObj exampleDocJson)) = Some exampleIndex /\
  bySynonym exampleIndex !! str "cutoff" = Some (str "lpf").
Proof.
  split; [reflexivity|]. split; [exact exampleIndex_built|].
  apply (proj1 (proj2 (proj2 (buildDocIndex_maps exampleDocJson exampleDocs exampleIndex
                                eq_refl exampleIndex_built)))).
Defined.

Lemma buildDocIndex_completions_witness :
  getField exampleDocJson (str "docs") = Some (JArr exampleDocs) /\
  buildDocIndex (Some (JObj exampleDocJson)) = Some exampleIndex /\
  NoDup (map label (jsdocCompletions (forComplete exampleIndex))).
Proof.
  split; [reflexivity|]. split; [exact exampleIndex_built|].
  apply (buildDocIndex_completions exampleDocJson exampleDocs exampleIndex
           eq_refl exampleIndex_built).
Defined.

Lemma onHover_word_witness :
  cutoffStore !! "file:///a.str"%string = Some cutoffDoc /\
  wordAround (str "cutoff(1)") 3 = str "cutoff" /\
  exists d, byName exampleIndex !! str "lpf" = Some d /\
    onHover (fun _ _ => []) cutoffStore exampleIndex "file:///a.str" (mkPosition 0 3) =
      Some [].
Proof.
  assert (H : cutoffStore !! "file:///a.str"%string = Some cutoffDoc) by (vm_compute; reflexivity).
  split; [exact H|]. split; [reflexivity|].
  apply (proj1 (proj2 (onHover_word (fun _ _ => []) exampleDocJson exampleDocs exampleIndex
                         cutoffStore "file:///a.str" (mkPosition 0 3) cutoffDoc
                         eq_refl exampleIndex_built H)) (str "lpf")).
  vm_compute. reflexivity.
Defined.

Lemma onCompletionResolve_documented_witness :
  lpfOption ∈ jsdocCompletions (forComplete exampleIndex) /\
  exists c d,
    canonicalName lpfOption = Some c /\ byName exampleIndex !! c = Some d /\
    onCompletionResolve (fun _ _ => []) exampleIndex (completionItem [] 0 0 lpfOption) =
      Some [].
Proof.
  assert (H : lpfOption ∈ jsdocCompletions (forComplete exampleIndex)) by (vm_compute; left).
  split; [exact H|].
  apply (onCompletionResolve_documented (fun _ _ => []) exampleDocJson exampleDocs
           exampleIndex [] 0 0 lpfOption eq_refl exampleIndex_built H).
Defined.

Lemma complete_chord_argument_witness :
  callShape chordText 8 [] (str "chord") [] dquote (str "C") /\
  exists opts,
    complete chordVocabulary chordText 8 false (mkDocIndex []) None =
      Some (mkResult 7 opts) /\
    map label opts = [str "Cmajor"; str "Cm7"; str "Cmaj7"].
Proof.
  assert (S : callShape chordText 8 [] (str "chord") [] dquote (str "C"))
    by (apply (example_shape "chord" "C"); reflexivity).
  split; [exact S|].
  assert (L : 5 + 1 + length (@nil ascii) + 1 + length (str "C") <= 8192)
    by (apply Nat.leb_le; vm_compute; reflexivity).
  destruct (proj1 (complete_chord_argument chordVocabulary chordText 8 false (mkDocIndex []) None
                     [] [] (str "C") dquote S L)) as (opts & H1 & H2).
  exists opts. split; [exact H1|exact H2].
Defined.
